(** * geomCalc: cost estimation of 2D laser-cut profiles

    A shallow embedding of [geomCalc.py] and the verification of its
    specification.

    Conventions of the embedding.
    - Python floats are idealised as the real numbers [R]: there is no
      rounding, overflow or underflow (so [math.exp] is never [0.0]).  The
      partial operations of the interpreter and of the [math] module keep
      their exceptions ([x / 0.0] raises [ZeroDivisionError], [math.sqrt]
      and [math.asin] raise [ValueError] outside their domain).
    - Every number of a schema is read as a float, so [/] is the float
      division throughout.  (On two JSON integers Python 2 floors
      [(a + b) / 2]; the only such division is that of ["chord_midpoint"],
      a value that is stored and read nowhere.)
    - A Python [dict] is an association list with pairwise distinct keys,
      iterated in insertion order.
    - Exceptions are values of [exn]; a computation that may raise returns a
      [result].
    - Vertex ids are integers: the JSON keys of ["Vertices"] are their decimal
      spellings, so [str] and [int] on them are the identity here.  A key
      that spells no integer, on which the [int(v)] of [createGraph] raises
      [ValueError], is not a schema of the embedding.
    - The files named on the command line exist and can be read, and their
      names do not end in a tab or a line break (after which [print] writes
      no separating space).
    - The two [networkx] calls ([cycle_basis], [shortest_path]) and the
      [format] call of [costFormat] are library code: they are the fields of
      a [Library] record the pipeline is parameterised by. *)

From Stdlib Require Import String.
From Stdlib Require Import Reals Lra Lia ZArith Bool List Permutation.
From Stdlib Require Import Sorting.Sorted.
Import ListNotations.

Open Scope R_scope.

(* ================================================================= *)
(** ** Exceptions and the [result] monad *)

Inductive exn : Type :=
| ValueError
| KeyError
| IndexError
| TypeError
| ZeroDivisionError
| NetworkXError
| NetworkXNoPath
| NetworkXNoCycle.

Inductive result (A : Type) : Type :=
| Ok (a : A)
| Raise (e : exn).

Arguments Ok {A} a.
Arguments Raise {A} e.

Definition bind {A B : Type} (m : result A) (k : A -> result B) : result B :=
  match m with
  | Ok a => k a
  | Raise e => Raise e
  end.

Notation "x <- m ;; k" := (bind m (fun x => k))
  (at level 61, m at next level, right associativity).
Notation "' p <- m ;; k" := (bind m (fun p => k))
  (at level 61, p pattern, m at next level, right associativity).

Fixpoint mapM {A B : Type} (f : A -> result B) (l : list A) : result (list B) :=
  match l with
  | [] => Ok []
  | a :: l' => b <- f a ;; bs <- mapM f l' ;; Ok (b :: bs)
  end.

Fixpoint filterM {A : Type} (f : A -> result bool) (l : list A) : result (list A) :=
  match l with
  | [] => Ok []
  | a :: l' =>
      keep <- f a ;; rest <- filterM f l' ;;
      Ok (if keep then a :: rest else rest)
  end.

(** A [for] loop whose body updates an accumulator and may raise. *)
Fixpoint foldM {A S : Type} (body : S -> A -> result S) (l : list A) (s : S)
  : result S :=
  match l with
  | [] => Ok s
  | a :: l' => s' <- body s a ;; foldM body l' s'
  end.

Definition is_ok {A : Type} (m : result A) : bool :=
  match m with Ok _ => true | Raise _ => false end.

(* ================================================================= *)
(** ** Python values: keys, dictionaries, sequences *)

Class KeyEq (K : Type) := key_eq_dec : forall a b : K, {a = b} + {a <> b}.

#[export] Instance Z_KeyEq : KeyEq Z := Z.eq_dec.
#[export] Instance string_KeyEq : KeyEq string := string_dec.
#[export] Instance R_KeyEq : KeyEq R := Req_dec_T.
#[export] Instance pair_KeyEq {A B : Type} `{KeyEq A} `{KeyEq B} : KeyEq (A * B).
Proof.
  intros [a b] [a' b'].
  destruct (key_eq_dec a a') as [->|Ha]; [|right; congruence].
  destruct (key_eq_dec b b') as [->|Hb]; [left; reflexivity|right; congruence].
Defined.

Definition eqb {K : Type} `{KeyEq K} (a b : K) : bool :=
  if key_eq_dec a b then true else false.

(** [x in xs] *)
Definition contains {K : Type} `{KeyEq K} (x : K) (xs : list K) : bool :=
  existsb (eqb x) xs.

Definition dict (K V : Type) : Type := list (K * V).

Definition keys {K V : Type} (d : dict K V) : list K := map fst d.

Fixpoint dict_find {K V : Type} `{KeyEq K} (d : dict K V) (k : K) : option V :=
  match d with
  | [] => None
  | (k', v) :: d' => if eqb k k' then Some v else dict_find d' k
  end.

(** [d[k]] *)
Definition getitem {K V : Type} `{KeyEq K} (d : dict K V) (k : K) : result V :=
  match dict_find d k with
  | Some v => Ok v
  | None => Raise KeyError
  end.

(** [d[k] = v]: an existing key keeps its place, a new one goes last. *)
Fixpoint setitem {K V : Type} `{KeyEq K} (d : dict K V) (k : K) (v : V) : dict K V :=
  match d with
  | [] => [(k, v)]
  | (k', v') :: d' => if eqb k k' then (k', v) :: d' else (k', v') :: setitem d' k v
  end.

(** [set(xs)], as the list of the distinct elements of [xs]. *)
Fixpoint set_of {K : Type} `{KeyEq K} (xs : list K) : list K :=
  match xs with
  | [] => []
  | x :: xs' => if contains x xs' then set_of xs' else x :: set_of xs'
  end.

(** [xs[i]] for a non-negative index. *)
Definition index_at {A : Type} (xs : list A) (i : nat) : result A :=
  match nth_error xs i with
  | Some a => Ok a
  | None => Raise IndexError
  end.

(** [xs.index(x)] *)
Fixpoint list_index {K : Type} `{KeyEq K} (xs : list K) (x : K) : result nat :=
  match xs with
  | [] => Raise ValueError
  | y :: xs' => if eqb y x then Ok O else i <- list_index xs' x ;; Ok (S i)
  end.

(** [izip(p, islice(p, 1, None))]: the consecutive pairs of [p]. *)
Definition izip_next {A : Type} (p : list A) : list (A * A) :=
  combine p (skipn 1 p).

(** [itertools.product(xs, ys)] *)
Definition product {A B : Type} (xs : list A) (ys : list B) : list (A * B) :=
  list_prod xs ys.

(* ================================================================= *)
(** ** Arithmetic of the interpreter and of the [math] module *)

(** [a / b] on floats. *)
Definition pdiv (a b : R) : result R :=
  if Req_dec_T b 0 then Raise ZeroDivisionError else Ok (a / b).

Definition math_sqrt (x : R) : result R :=
  if Rlt_dec x 0 then Raise ValueError else Ok (sqrt x).

Definition math_asin (x : R) : result R :=
  if Rlt_dec x (-1) then Raise ValueError
  else if Rlt_dec 1 x then Raise ValueError
  else Ok (asin x).

Definition math_exp (x : R) : R := exp x.

Definition math_fabs (x : R) : R := Rabs x.

(** [cmp(a, b)] *)
Definition cmp (a b : R) : Z :=
  if Rlt_dec a b then (-1)%Z else if Rlt_dec b a then 1%Z else 0%Z.

Definition Rltb (a b : R) : bool := if Rlt_dec a b then true else false.

(* ================================================================= *)
(** ** Module constants *)

Definition PADDING : R := 1 / 10.
Definition MATERIAL_COST : R := 3 / 4.
Definition LASER_SPEED : R := 1 / 2.
Definition TIME_COST : R := 7 / 100.

(* ================================================================= *)
(** ** The schema *)

Record position : Type := { X : R; Y : R }.

Record Vertex : Type := { Position : position }.

(** An edge as the loader hands it over; ["Center"] and ["ClockwiseFrom"]
    are absent from line segments. *)
Record Edge : Type := {
  Type_ : string;
  EVertices : list Z;
  Center : option position;
  ClockwiseFrom : option Z
}.

(** The parsed schema: a dict that may lack either top-level key. *)
Record Schema : Type := {
  Edges : option (dict string Edge);
  Vertices : option (dict Z Vertex)
}.

Definition point : Type := (R * R)%type.

(** [schema["Edges"]] and [schema["Vertices"]] *)
Definition schema_Edges (schema : Schema) : result (dict string Edge) :=
  match Edges schema with Some d => Ok d | None => Raise KeyError end.

Definition schema_Vertices (schema : Schema) : result (dict Z Vertex) :=
  match Vertices schema with Some d => Ok d | None => Raise KeyError end.

(** [(schema["Vertices"][id]["Position"]["X"], schema["Vertices"][id]["Position"]["Y"])] *)
Definition vertex_coords (schema : Schema) (id : Z) : result point :=
  vs <- schema_Vertices schema ;;
  v <- getitem vs id ;;
  Ok (X (Position v), Y (Position v)).

Definition is_LineSegment (edge : Edge) : bool := eqb (Type_ edge) "LineSegment"%string.
Definition is_CircularArc (edge : Edge) : bool := eqb (Type_ edge) "CircularArc"%string.

(* ================================================================= *)
(** ** The graph and the library calls *)

(** [nx.Graph]: the nodes in the order they were added and the undirected
    edges, each stored once. *)
Record Graph : Type := {
  g_nodes : list Z;
  g_edges : list (Z * Z)
}.

Definition add_node (g : Graph) (n : Z) : Graph :=
  if contains n (g_nodes g) then g
  else {| g_nodes := g_nodes g ++ [n]; g_edges := g_edges g |}.

Definition add_edge (g : Graph) (u v : Z) : Graph :=
  let g := add_node (add_node g u) v in
  if contains (u, v) (g_edges g) || contains (v, u) (g_edges g) then g
  else {| g_nodes := g_nodes g; g_edges := g_edges g ++ [(u, v)] |}.

(** [g.add_edges_from]: every entry is a 2-tuple; networkx refuses other
    lengths (a 3-tuple needs a dict as its last component). *)
Definition add_edges_from (g : Graph) (ebunch : list (list Z)) : result Graph :=
  foldM (fun g e =>
           match e with
           | [u; v] => Ok (add_edge g u v)
           | [_; _; _] => Raise TypeError
           | _ => Raise NetworkXError
           end) ebunch g.

(** What the program takes from its libraries. *)
Record Library : Type := {
  (** [nx.cycle_basis(g)] *)
  nx_cycle_basis : Graph -> list (list Z);
  (** [nx.shortest_path(g, a, b)] *)
  nx_shortest_path : Graph -> Z -> Z -> result (list Z);
  (** ["{:.2f}".format(x)] *)
  format_2f : R -> string
}.

(** [createGraph]: the nodes are [int(v)] of the keys of ["Vertices"], which
    are integers here (see the conventions), the edges the vertex lists of
    the edges as tuples. *)
Definition createGraph (schema : Schema) : result Graph :=
  vs <- schema_Vertices schema ;;
  let g := fold_left add_node (keys vs) {| g_nodes := []; g_edges := [] |} in
  es <- schema_Edges schema ;;
  add_edges_from g (map (fun kv => EVertices (snd kv)) es).

(** [pointLookup((x,y), schema)]: the first vertex key at these coordinates. *)
Definition pointLookup (xy : point) (schema : Schema) : result Z :=
  vs <- schema_Vertices schema ;;
  index_at
    (map fst
       (filter (fun kv => eqb (X (Position (snd kv))) (fst xy)
                          && eqb (Y (Position (snd kv))) (snd xy)) vs))
    0.

(** [edgeLookup((x,y), schema)]: the first edge key joining the two ids. *)
Definition edgeLookup (xy : Z * Z) (schema : Schema) : result string :=
  es <- schema_Edges schema ;;
  index_at
    (map fst
       (filter (fun kv => contains (fst xy) (EVertices (snd kv))
                          && contains (snd xy) (EVertices (snd kv))) es))
    0.

Section Pipeline.

Variable lib : Library.

Definition costFormat (x : R) : string := ("$" ++ format_2f lib x)%string.

Definition findPath (schema_graph : Graph) : result (list (list Z)) :=
  let cycles := nx_cycle_basis lib schema_graph in
  if (0 <? length cycles)%nat then Ok cycles else Raise NetworkXNoCycle.

Definition validateSchema (name : string) (schema : Schema)
  : result (list (list Z) * Graph) :=
  match Edges schema, Vertices schema with
  | Some es, Some vs =>
      if negb (length (keys es) =? length (set_of (keys es)))%nat
         || negb (length (keys vs) =? length (set_of (keys vs)))%nat
      then Raise ValueError
      else
        g <- createGraph schema ;;
        cycles <- findPath g ;;
        Ok (cycles, g)
  | _, _ => Raise ValueError
  end.

(* ================================================================= *)
(** ** Edge geometry *)

(** An entry of [values_dict]: the keys a line segment gets, or those of an
    arc. *)
Inductive EdgeValues : Type :=
| LineValues (start_id finish_id : Z) (dist : R)
| ArcValues (start_id finish_id : Z) (center : point) (radius : R)
    (chord_length : R) (chord_midpoint : point)
    (sector_length sector_height : R) (box_points : list point).

Definition start_id (v : EdgeValues) : result Z :=
  match v with
  | LineValues s _ _ => Ok s
  | ArcValues s _ _ _ _ _ _ _ _ => Ok s
  end.

Definition finish_id (v : EdgeValues) : result Z :=
  match v with
  | LineValues _ f _ => Ok f
  | ArcValues _ f _ _ _ _ _ _ _ => Ok f
  end.

Definition dist (v : EdgeValues) : result R :=
  match v with
  | LineValues _ _ d => Ok d
  | ArcValues _ _ _ _ _ _ _ _ _ => Raise KeyError
  end.

Definition radius (v : EdgeValues) : result R :=
  match v with
  | LineValues _ _ _ => Raise KeyError
  | ArcValues _ _ _ r _ _ _ _ _ => Ok r
  end.

Definition chord_length (v : EdgeValues) : result R :=
  match v with
  | LineValues _ _ _ => Raise KeyError
  | ArcValues _ _ _ _ c _ _ _ _ => Ok c
  end.

Definition sector_length (v : EdgeValues) : result R :=
  match v with
  | LineValues _ _ _ => Raise KeyError
  | ArcValues _ _ _ _ _ _ sl _ _ => Ok sl
  end.

Definition sector_height (v : EdgeValues) : result R :=
  match v with
  | LineValues _ _ _ => Raise KeyError
  | ArcValues _ _ _ _ _ _ _ sh _ => Ok sh
  end.

Definition box_points (v : EdgeValues) : result (list point) :=
  match v with
  | LineValues _ _ _ => Raise KeyError
  | ArcValues _ _ _ _ _ _ _ _ bp => Ok bp
  end.

(** The body of the loop of [computeValues] for a line segment. *)
Definition lineValues (schema : Schema) (edge : Edge) : result EdgeValues :=
  start_id <- index_at (EVertices edge) 0 ;;
  finish_id <- index_at (EVertices edge) 1 ;;
  start_coords <- vertex_coords schema start_id ;;
  finish_coords <- vertex_coords schema finish_id ;;
  dist <- math_sqrt ((fst finish_coords - fst start_coords) ^ 2
                     + (snd finish_coords - snd start_coords) ^ 2) ;;
  Ok (LineValues start_id finish_id dist).

(** The body of the loop of [computeValues] for any other edge. *)
Definition arcValues (schema : Schema) (edge : Edge) : result EdgeValues :=
  start_id <- match ClockwiseFrom edge with
              | Some s => Ok s
              | None => Raise KeyError
              end ;;
  finish_id <- index_at (filter (fun p => negb (eqb p start_id)) (EVertices edge)) 0 ;;
  start_coords <- vertex_coords schema start_id ;;
  finish_coords <- vertex_coords schema finish_id ;;
  center <- match Center edge with
            | Some c => Ok (X c, Y c)
            | None => Raise KeyError
            end ;;
  radius <- math_sqrt ((fst center - fst start_coords) ^ 2
                       + (snd center - snd start_coords) ^ 2) ;;
  let dx := fst finish_coords - fst start_coords in
  let dy := snd finish_coords - snd start_coords in
  chord_length <- math_sqrt (dx ^ 2 + dy ^ 2) ;;
  mx <- pdiv (fst start_coords + fst finish_coords) 2 ;;
  my <- pdiv (snd start_coords + snd finish_coords) 2 ;;
  let chord_midpoint := (mx, my) in
  ratio <- pdiv chord_length (2 * radius) ;;
  angle <- math_asin ratio ;;
  let sector_length := 2 * radius * angle in
  quarter <- pdiv (chord_length ^ 2) 4 ;;
  root <- math_sqrt (radius ^ 2 - quarter) ;;
  let sector_height := radius - root in
  oy <- pdiv (sector_height * dy) chord_length ;;
  ox <- pdiv (sector_height * dx) chord_length ;;
  oy' <- pdiv (sector_height * dy) chord_length ;;
  ox' <- pdiv (sector_height * dx) chord_length ;;
  oy'' <- pdiv (sector_height * dy) chord_length ;;
  ox'' <- pdiv (sector_height * dx) chord_length ;;
  oy''' <- pdiv (sector_height * dy) chord_length ;;
  ox''' <- pdiv (sector_height * dx) chord_length ;;
  let box_points :=
    [ (fst start_coords + oy, snd start_coords - ox);
      (fst start_coords - oy', snd start_coords + ox');
      (fst finish_coords - oy'', snd finish_coords + ox'');
      (fst finish_coords + oy''', snd finish_coords - ox''') ] in
  Ok (ArcValues start_id finish_id center radius chord_length chord_midpoint
        sector_length sector_height box_points).

Definition edgeValues (schema : Schema) (edge : Edge) : result EdgeValues :=
  if is_LineSegment edge then lineValues schema edge else arcValues schema edge.

Definition computeValues (schema : Schema) : result (dict string EdgeValues) :=
  es <- schema_Edges schema ;;
  foldM (fun values_dict kv =>
           v <- edgeValues schema (snd kv) ;;
           Ok (setitem values_dict (fst kv) v))
        es [].

(* ================================================================= *)
(** ** Cut cost *)

Definition arcLength (schema : Schema) (values_dict : dict string EdgeValues)
  : result R :=
  es <- schema_Edges schema ;;
  foldM (fun price kv =>
           let edge_id := fst kv in
           let edge := snd kv in
           v <- getitem values_dict edge_id ;;
           if is_LineSegment edge then
             d <- dist v ;;
             t <- pdiv d LASER_SPEED ;;
             Ok (price + t * TIME_COST)
           else
             sl <- sector_length v ;;
             r <- radius v ;;
             q <- pdiv (-1) r ;;
             t <- pdiv sl (LASER_SPEED * math_exp q) ;;
             Ok (price + t * TIME_COST))
        es 0.

(* ================================================================= *)
(** ** Convex hull (Graham scan, monotone chain) *)

Definition turn (p q r : point) : Z :=
  cmp ((fst q - fst p) * (snd r - snd p) - (fst r - fst p) * (snd q - snd p)) 0.

(** The [while] loop of [keep_left], on the hull held last point first:
    [q] is [hull[-1]] and [p] is [hull[-2]]. *)
Fixpoint keep_left_pop (stack : list point) (r : point) : list point :=
  match stack with
  | q :: ((p :: _) as rest) =>
      if negb (turn p q r =? 1)%Z then keep_left_pop rest r else stack
  | _ => stack
  end.

Definition keep_left (hull : list point) (r : point) : list point :=
  let stack := keep_left_pop (rev hull) r in
  match stack with
  | [] => rev (r :: stack)
  | top :: _ => if negb (eqb top r) then rev (r :: stack) else rev stack
  end.

(** [sorted(points)]: tuples compare lexicographically. *)
Definition point_leb (p q : point) : bool :=
  if Rlt_dec (fst p) (fst q) then true
  else if Rlt_dec (fst q) (fst p) then false
  else if Rle_dec (snd p) (snd q) then true else false.

Fixpoint insert_sorted (x : point) (l : list point) : list point :=
  match l with
  | [] => [x]
  | y :: l' => if point_leb x y then x :: l else y :: insert_sorted x l'
  end.

Definition sorted (points : list point) : list point :=
  fold_right insert_sorted [] points.

Definition grahams_hull (points : list point) : list point :=
  let points := sorted points in
  let l := fold_left keep_left points [] in
  let u := fold_left keep_left (rev points) [] in
  l ++ firstn (length u - 2) (skipn 1 u).

Definition computeInnerHull (schema : Schema) (schema_graph : Graph)
  : result (list (list Z)) :=
  cycles <- findPath schema_graph ;;
  mapM (fun path =>
          coords <- mapM (vertex_coords schema) path ;;
          mapM (fun h => pointLookup h schema) (grahams_hull coords))
       cycles.

(** The arcs of one hull side that count as extrusions, in path order. *)
Definition extrusions_between (schema : Schema) (schema_graph : Graph)
    (values_dict : dict string EdgeValues) (a b : Z) : result (list string) :=
  path <- nx_shortest_path lib schema_graph a b ;;
  looked_up <- mapM (fun xy => edgeLookup xy schema) (izip_next path) ;;
  arcs_on_path <- filterM (fun arc =>
                             es <- schema_Edges schema ;;
                             e <- getitem es arc ;;
                             Ok (is_CircularArc e))
                          looked_up ;;
  filterM (fun x =>
             v <- getitem values_dict x ;;
             s <- start_id v ;;
             i <- list_index path s ;;
             v' <- getitem values_dict x ;;
             f <- finish_id v' ;;
             j <- list_index path f ;;
             Ok (j <? i)%nat)
          arcs_on_path.

Definition computeConvexHull (schema : Schema) (schema_graph : Graph)
    (values_dict : dict string EdgeValues) : result (list (list point)) :=
  initial_hull <- computeInnerHull schema schema_graph ;;
  es <- schema_Edges schema ;;
  if (length (filter (fun kv => is_CircularArc (snd kv)) es) =? 0)%nat then
    mapM (fun hull => mapM (vertex_coords schema) hull) initial_hull
  else
    mapM (fun hull =>
            new_hull <- mapM (vertex_coords schema) hull ;;
            first <- index_at hull 0 ;;
            let points := hull ++ [first] in
            new_hull <-
              foldM (fun new_hull ab =>
                       extrusions <- extrusions_between schema schema_graph
                                       values_dict (fst ab) (snd ab) ;;
                       foldM (fun new_hull x =>
                                v <- getitem values_dict x ;;
                                bp <- box_points v ;;
                                Ok (new_hull ++ bp))
                             extrusions new_hull)
                    (izip_next points) new_hull ;;
            Ok (grahams_hull new_hull))
         initial_hull.

(* ================================================================= *)
(** ** Minimum bounding rectangle *)

(** A value of [caliper_sizes]:
    [(area, (height_numerator, width_numerator, segment_length_square))]. *)
Definition caliper : Type := (R * (R * R * R))%type.

(** [a < b] on these tuples: the first differing component decides. *)
Definition caliper_ltb (a b : caliper) : bool :=
  let '(a0, (a1, a2, a3)) := a in
  let '(b0, (b1, b2, b3)) := b in
  if Rltb a0 b0 then true else if Rltb b0 a0 then false
  else if Rltb a1 b1 then true else if Rltb b1 a1 then false
  else if Rltb a2 b2 then true else if Rltb b2 a2 then false
  else Rltb a3 b3.

Definition height_numerator (e : point * point) (p3 : point) : R :=
  let '((x1, y1), (x2, y2)) := e in
  let '(x3, y3) := p3 in
  (y2 - y1) * x3 - (x2 - x1) * y3 + x2 * y1 - y2 * x1.

Definition width_numerator (e : point * point) (p45 : point * point) : R :=
  let '((x1, y1), (x2, y2)) := e in
  let '((x4, y4), (x5, y5)) := p45 in
  (x5 - x4) * (x2 - x1) + (y5 - y4) * (y2 - y1).

Definition segment_length_square (e : point * point) : R :=
  let '((x1, y1), (x2, y2)) := e in
  (x2 - x1) ^ 2 + (y2 - y1) ^ 2.

(** The body of the loop of [findMinimumRectangle]; [s[0][0]] is the edge,
    [s[0][1]] a hull point off it and [s[1]] a pair of hull points. *)
Definition caliper_step (caliper_sizes : dict (point * point) caliper)
    (s : ((point * point) * point) * (point * point))
  : result (dict (point * point) caliper) :=
  let e := fst (fst s) in
  let hn := height_numerator e (snd (fst s)) in
  let wn := width_numerator e (snd s) in
  let sl := segment_length_square e in
  area <- pdiv (math_fabs (hn * wn)) sl ;;
  if contains e (keys caliper_sizes) then
    old <- getitem caliper_sizes e ;;
    if Rltb (fst old) area then Ok (setitem caliper_sizes e (area, (hn, wn, sl)))
    else Ok caliper_sizes
  else Ok (setitem caliper_sizes e (area, (hn, wn, sl))).

(** [min(d, key=d.get)]: the first key whose value is least. *)
Definition min_by_value {K : Type} (d : dict K caliper) : result K :=
  match d with
  | [] => Raise ValueError
  | kv :: d' =>
      Ok (fst (fold_left (fun best kv' =>
                            if caliper_ltb (snd kv') (snd best) then kv' else best)
                         d' kv))
  end.

Definition findMinimumRectangle (hull : list point) : result R :=
  first <- index_at hull 0 ;;
  let p := hull ++ [first] in
  let candidates :=
    product (filter (fun x => negb (eqb (snd x) (fst (fst x)))
                              && negb (eqb (snd x) (snd (fst x))))
                    (product (izip_next p) hull))
            (product hull hull) in
  caliper_sizes <- foldM caliper_step candidates [] ;;
  best_edge <- min_by_value caliper_sizes ;;
  best <- getitem caliper_sizes best_edge ;;
  let '(_, (hn, wn, sl)) := best in
  root <- math_sqrt sl ;;
  height <- pdiv (math_fabs hn) root ;;
  root' <- math_sqrt sl ;;
  width <- pdiv (math_fabs wn) root' ;;
  Ok ((height + PADDING) * (width + PADDING)).

Definition rotateCalipers (schema : Schema) (schema_graph : Graph)
    (values_dict : dict string EdgeValues) : result R :=
  hulls <- computeConvexHull schema schema_graph values_dict ;;
  areas <- mapM findMinimumRectangle hulls ;;
  Ok (fold_left (fun price region => price + MATERIAL_COST * region) areas 0).

(* ================================================================= *)
(** ** The driver *)

(** The contents of a schema file: text that is not JSON, or a JSON object
    with its members as written (a key may be repeated in the text). *)
Record RawSchema : Type := {
  raw_Edges : option (list (string * Edge));
  raw_Vertices : option (list (Z * Vertex))
}.

Inductive file : Type :=
| NotJSON
| JSONText (raw : RawSchema).

(** [dict(pairs)], as [json.load] builds an object: the last value given for
    a key is the one kept. *)
Definition dict_of_pairs {K V : Type} `{KeyEq K} (pairs : list (K * V)) : dict K V :=
  fold_left (fun d kv => setitem d (fst kv) (snd kv)) pairs [].

Definition json_load (f : file) : result Schema :=
  match f with
  | NotJSON => Raise ValueError
  | JSONText raw =>
      Ok {| Edges := option_map dict_of_pairs (raw_Edges raw);
            Vertices := option_map dict_of_pairs (raw_Vertices raw) |}
  end.

(** The number handed to [costFormat] for one parsed schema. *)
Definition price (s : string) (data : Schema) : result R :=
  pg <- validateSchema s data ;;
  values <- computeValues data ;;
  cut <- arcLength data values ;;
  material <- rotateCalipers data (snd pg) values ;;
  Ok (cut + material).

(** The [try] block as a whole: the complete line it prints when nothing is
    raised, or the exception that leaves it. *)
Definition process (s : string) (f : file) : result string :=
  data <- json_load f ;;
  x <- price s data ;;
  Ok (s ++ " " ++ costFormat x)%string.

(** The statements of the [try] block that come before the [print]
    statement: [data], [graph] and [values]. *)
Definition prepare (s : string) (f : file)
  : result (Schema * Graph * dict string EdgeValues) :=
  data <- json_load f ;;
  pg <- validateSchema s data ;;
  values <- computeValues data ;;
  Ok (data, snd pg, values).

(** The argument of [costFormat] in the [print] statement. *)
Definition quote (data : Schema) (graph : Graph) (values : dict string EdgeValues)
  : result R :=
  cut <- arcLength data values ;;
  material <- rotateCalipers data graph values ;;
  Ok (cut + material).

(** [main]: the lines on the standard output, and the exception that ended
    the run, if any.

    The statement [print s, x] of Python 2 writes [s] before it evaluates
    [x], and the next item written to the same line is preceded by a space.
    When [x] raises [ValueError] the [except] branch therefore continues the
    line that holds [s] already; when [x] raises anything else, [s] is what
    is left on the output (the interpreter ends the line before the
    traceback). *)
Fixpoint main (schemas : list (string * file)) : list string * option exn :=
  match schemas with
  | [] => ([], None)
  | (s, f) :: rest =>
      match prepare s f with
      | Ok (data, graph, values) =>
          match quote data graph values with
          | Ok x =>
              let (out, e) := main rest in
              ((s ++ " " ++ costFormat x)%string :: out, e)
          | Raise ValueError =>
              let (out, e) := main rest in
              ((s ++ " " ++ s ++ " is not in valid JSON format.")%string :: out, e)
          | Raise e => ([s], Some e)
          end
      | Raise ValueError =>
          let (out, e) := main rest in
          ((s ++ " is not in valid JSON format.")%string :: out, e)
      | Raise e => ([], Some e)
      end
  end.

End Pipeline.

(* ================================================================= *)
(** * Specification-side definitions and sample inputs *)

(** ** Builders for schema entries *)

Definition vertex_at (x y : R) : Vertex := {| Position := {| X := x; Y := y |} |}.

Definition line_segment (u v : Z) : Edge :=
  {| Type_ := "LineSegment"; EVertices := [u; v]; Center := None; ClockwiseFrom := None |}.

Definition circular_arc (u v : Z) (cx cy : R) (from : Z) : Edge :=
  {| Type_ := "CircularArc"; EVertices := [u; v];
     Center := Some {| X := cx; Y := cy |}; ClockwiseFrom := Some from |}.

(** The schema [json.load] builds from the members of a JSON object. *)
Definition schema_of_raw (raw : RawSchema) : Schema :=
  {| Edges := option_map dict_of_pairs (raw_Edges raw);
     Vertices := option_map dict_of_pairs (raw_Vertices raw) |}.

(** The message [main] prints in its [except ValueError] branch. *)
Definition not_valid_line (s : string) : string :=
  (s ++ " is not in valid JSON format.")%string.

(** Whether the [print] statement of the [try] block is reached for a
    file: its name is then written before the price is computed. *)
Definition name_written (lib : Library) (s : string) (f : file) : bool :=
  is_ok (prepare lib s f).

(** The line on the output once the [except ValueError] branch has run: the
    message, after the name when the name was written already. *)
Definition reported (lib : Library) (s : string) (f : file) : string :=
  if name_written lib s f then (s ++ " " ++ not_valid_line s)%string
  else not_valid_line s.

(** What is on the output for a file whose exception is not caught. *)
Definition left_on_output (lib : Library) (s : string) (f : file) : list string :=
  if name_written lib s f then [s] else [].

(** ** Sample input: an open path, two vertices joined by one segment *)

Definition open_path_raw : RawSchema :=
  {| raw_Edges := Some [("7"%string, line_segment 0 1)];
     raw_Vertices := Some [(0%Z, vertex_at 0 0); (1%Z, vertex_at 1 0)] |}.

Definition open_path : Schema := schema_of_raw open_path_raw.

Definition open_path_graph : Graph :=
  {| g_nodes := [0%Z; 1%Z]; g_edges := [(0%Z, 1%Z)] |}.

(** The library on graphs without a cycle: the cycle basis is empty. *)
Definition acyclic_library : Library :=
  {| nx_cycle_basis := fun _ => [];
     nx_shortest_path := fun _ _ _ => Raise NetworkXNoPath;
     format_2f := fun _ => "0.00"%string |}.

(** ** Sample input: a triangle whose JSON text repeats the edge id "c" *)

Definition triangle_vertices : list (Z * Vertex) :=
  [(0%Z, vertex_at 0 0); (1%Z, vertex_at 4 0); (2%Z, vertex_at 0 3)].

Definition repeated_edge_id_raw : RawSchema :=
  {| raw_Edges := Some [("a"%string, line_segment 0 1);
                        ("b"%string, line_segment 1 2);
                        ("c"%string, line_segment 2 0);
                        ("c"%string, line_segment 0 2)];
     raw_Vertices := Some triangle_vertices |}.

Definition triangle_graph : Graph :=
  {| g_nodes := [0%Z; 1%Z; 2%Z]; g_edges := [(0%Z, 1%Z); (1%Z, 2%Z); (0%Z, 2%Z)] |}.

(** The library on the triangle 0-1-2: one cycle through the three nodes,
    and every two nodes adjacent. *)
Definition triangle_library : Library :=
  {| nx_cycle_basis := fun _ => [[0%Z; 1%Z; 2%Z]];
     nx_shortest_path := fun _ a b => Ok [a; b];
     format_2f := fun _ => "0.00"%string |}.

Definition raw_edges_or_nil (raw : RawSchema) : list (string * Edge) :=
  match raw_Edges raw with Some es => es | None => [] end.

(** ** Edge geometry in the specification's terms *)

(** Euclidean distance from [p] to [q]. *)
Definition distance (p q : point) : R :=
  sqrt ((fst q - fst p) ^ 2 + (snd q - snd p) ^ 2).

(** The four [boxPoints] of an arc from [ps] to [pf] with sagitta [sh] and
    chord length [ch]: both endpoints, moved by the sagitta along the
    perpendicular of the chord, to either side. *)
Definition bulge_box (ps pf : point) (sh ch : R) : list point :=
  let dx := fst pf - fst ps in
  let dy := snd pf - snd ps in
  [ (fst ps + sh * dy / ch, snd ps - sh * dx / ch);
    (fst ps - sh * dy / ch, snd ps + sh * dx / ch);
    (fst pf - sh * dy / ch, snd pf + sh * dx / ch);
    (fst pf + sh * dy / ch, snd pf - sh * dx / ch) ].

(** The entry of an arc that starts at [ps] (vertex [s], the ["ClockwiseFrom"]
    vertex), finishes at [pf] (vertex [f]) and has the declared centre [c]:
    every quantity is derived from the radius [distance ps c]. *)
Definition arc_entry (s f : Z) (ps pf c : point) : EdgeValues :=
  let r := distance ps c in
  let ch := distance ps pf in
  let sh := r - sqrt (r ^ 2 - ch ^ 2 / 4) in
  ArcValues s f c r ch
    ((fst ps + fst pf) / 2, (snd ps + snd pf) / 2)
    (2 * r * asin (ch / (2 * r))) sh (bulge_box ps pf sh ch).

(** What the arithmetic of the arc branch of [computeValues] does with two
    endpoints and a centre. *)
Definition arc_geometry (s f : Z) (ps pf c : point) : result EdgeValues :=
  let r := distance ps c in
  let ch := distance ps pf in
  if Req_dec_T r 0 then Raise ZeroDivisionError
  else if Rlt_dec (2 * r) ch then Raise ValueError
  else if Req_dec_T ch 0 then Raise ZeroDivisionError
  else Ok (arc_entry s f ps pf c).

(** The lookups of the arc branch: start id, finish id, their coordinates
    and the centre. *)
Definition arc_ends (schema : Schema) (edge : Edge) (s f : Z) (ps pf c : point) : Prop :=
  ClockwiseFrom edge = Some s
  /\ index_at (filter (fun p => negb (eqb p s)) (EVertices edge)) 0 = Ok f
  /\ vertex_coords schema s = Ok ps
  /\ vertex_coords schema f = Ok pf
  /\ option_map (fun c => (X c, Y c)) (Center edge) = Some c.

(** ** Sample input: a closed profile with one arc

    Vertices 0 and 1 sit at [p0] and [p1], vertex 2 at (0,2); an arc centred
    at the origin goes clockwise from 0 to 1, and two segments close the
    profile through 2. *)

Definition arc_profile_raw (p0 p1 : point) : RawSchema :=
  {| raw_Edges := Some [("arc"%string, circular_arc 0 1 0 0 0);
                        ("s1"%string, line_segment 1 2);
                        ("s2"%string, line_segment 2 0)];
     raw_Vertices := Some [(0%Z, vertex_at (fst p0) (snd p0));
                           (1%Z, vertex_at (fst p1) (snd p1));
                           (2%Z, vertex_at 0 2)] |}.

Definition arc_profile (p0 p1 : point) : Schema := schema_of_raw (arc_profile_raw p0 p1).

Definition arc_profile_graph : Graph :=
  {| g_nodes := [0%Z; 1%Z; 2%Z]; g_edges := [(0%Z, 1%Z); (1%Z, 2%Z); (2%Z, 0%Z)] |}.

(** The arc profile with the arc's start vertex at (-3,4) and its finish
    vertex at (3,4): the arc bulges above the chord, up to (0,5). *)
Definition bulge_profile : Schema := arc_profile (-3, 4) (3, 4).

(** What [computeValues] stores for [bulge_profile]: radius 5, chord 6,
    sagitta 1. *)
Definition bulge_values_dict : dict string EdgeValues :=
  [("arc"%string,
    ArcValues 0 1 (0, 0) 5 6 (0, 4) (2 * 5 * asin (6 / (2 * 5))) 1
      [(-3, 3); (-3, 5); (3, 5); (3, 3)]);
   ("s1"%string, LineValues 1 2 (distance (3, 4) (0, 2)));
   ("s2"%string, LineValues 2 0 (distance (0, 2) (-3, 4)))].

(** The same profile with the arc's start and finish vertices exchanged. *)
Definition exchanged_profile : Schema := arc_profile (3, 4) (-3, 4).

Definition exchanged_values_dict : dict string EdgeValues :=
  [("arc"%string,
    ArcValues 0 1 (0, 0) 5 6 (0, 4) (2 * 5 * asin (6 / (2 * 5))) 1
      [(3, 5); (3, 3); (-3, 3); (-3, 5)]);
   ("s1"%string, LineValues 1 2 (distance (-3, 4) (0, 2)));
   ("s2"%string, LineValues 2 0 (distance (0, 2) (3, 4)))].

(** ** Cut cost in the specification's terms *)

(** The lookups of the segment branch: the two endpoint ids and their
    coordinates. *)
Definition segment_ends (schema : Schema) (edge : Edge) (s f : Z) (ps pf : point) : Prop :=
  index_at (EVertices edge) 0 = Ok s
  /\ index_at (EVertices edge) 1 = Ok f
  /\ vertex_coords schema s = Ok ps
  /\ vertex_coords schema f = Ok pf.

(** [v] is the geometry of [edge]: a segment's Euclidean length, or the
    entry of an arc whose radius comes from the centre and the start
    vertex. *)
Definition edge_entry (schema : Schema) (edge : Edge) (v : EdgeValues) : Prop :=
  if is_LineSegment edge then
    exists s f ps pf,
      segment_ends schema edge s f ps pf /\ v = LineValues s f (distance ps pf)
  else
    exists s f ps pf c,
      arc_ends schema edge s f ps pf c
      /\ 0 < distance ps pf <= 2 * distance ps c
      /\ v = arc_entry s f ps pf c.

Definition cut_length (v : EdgeValues) : R :=
  match v with
  | LineValues _ _ d => d
  | ArcValues _ _ _ _ _ _ sl _ _ => sl
  end.

Definition effective_speed (v : EdgeValues) : R :=
  match v with
  | LineValues _ _ _ => LASER_SPEED
  | ArcValues _ _ _ r _ _ _ _ _ => LASER_SPEED * exp (-1 / r)
  end.

Definition cut_cost (v : EdgeValues) : R :=
  cut_length v / effective_speed v * TIME_COST.

(** The sum of a list of numbers. *)
Definition total (xs : list R) : R := fold_right Rplus 0 xs.

(** ** Planar geometry of the hull *)

(** Twice the signed area of the triangle [p q r]: positive when [r] lies
    to the left of the directed line from [p] to [q]. *)
Definition cross (p q r : point) : R :=
  (fst q - fst p) * (snd r - snd p) - (fst r - fst p) * (snd q - snd p).

(** The order of [sorted] on points. *)
Definition lex_le (p q : point) : Prop :=
  fst p < fst q \/ (fst p = fst q /\ snd p <= snd q).

(** The converse order, in which the upper hull is built. *)
Definition lex_ge (p q : point) : Prop := lex_le q p.

Definition neg (p : point) : point := (- fst p, - snd p).

(** The sides of the polygon [hull], the closing side included. *)
Definition sides (hull : list point) : list (point * point) :=
  match hull with
  | [] => []
  | first :: _ => izip_next (hull ++ [first])
  end.

(** [p] is inside or on the polygon [hull], whose corners are listed
    counter-clockwise: it is on the left of, or on, every side, and within
    the lexicographic range of the corners (which makes a polygon with two
    corners the segment between them). *)
Definition inside_or_on (hull : list point) (p : point) : Prop :=
  Forall (fun side => 0 <= cross (fst side) (snd side) p) (sides hull)
  /\ exists lo hi, In lo hull /\ In hi hull /\ lex_le lo p /\ lex_le p hi.

(** [keep_left] on the hull held last point first. *)
Definition keep_left_stack (stack : list point) (r : point) : list point :=
  match keep_left_pop stack r with
  | [] => [r]
  | top :: rest => if negb (eqb top r) then r :: top :: rest else top :: rest
  end.

(** The chain [reduce(keep_left, points, [])] builds, last point first. *)
Definition chain (points : list point) : list point :=
  fold_left keep_left_stack points [].

(** ** Invariants of the monotone chain

    A chain is held last point first.  [le] is the order in which the points
    are fed to [keep_left]: [lex_le] for the lower hull, its converse for
    the upper hull. *)

Definition strictly (le : point -> point -> Prop) (p q : point) : Prop :=
  le p q /\ p <> q.

(** Every point of the chain comes strictly after the one before it. *)
Inductive increasing (le : point -> point -> Prop) : list point -> Prop :=
| increasing_nil : increasing le []
| increasing_one (a : point) : increasing le [a]
| increasing_cons (q p : point) (rest : list point) :
    strictly le p q -> increasing le (p :: rest) -> increasing le (q :: p :: rest).

(** Any three consecutive points of the chain make a strict left turn. *)
Inductive left_turns : list point -> Prop :=
| left_turns_nil : left_turns []
| left_turns_one (a : point) : left_turns [a]
| left_turns_two (b a : point) : left_turns [b; a]
| left_turns_cons (q p o : point) (rest : list point) :
    0 < cross o p q -> left_turns (p :: o :: rest) -> left_turns (q :: p :: o :: rest).

(** [x] is the only point of the chain, or lies between the ends of one of its
    sides, on the left of it or on it. *)
Inductive covered (le : point -> point -> Prop) : list point -> point -> Prop :=
| covered_single (a : point) : covered le [a] a
| covered_side (q p : point) (rest : list point) (x : point) :
    le p x -> le x q -> 0 <= cross p q x -> covered le (q :: p :: rest) x
| covered_below (q : point) (rest : list point) (x : point) :
    covered le rest x -> covered le (q :: rest) x.

(** [x] is on the left of, or on, every side of the chain. *)
Inductive left_of_sides : list point -> point -> Prop :=
| left_of_sides_nil (x : point) : left_of_sides [] x
| left_of_sides_one (a x : point) : left_of_sides [a] x
| left_of_sides_cons (q p : point) (rest : list point) (x : point) :
    0 <= cross p q x -> left_of_sides (p :: rest) x -> left_of_sides (q :: p :: rest) x.

(** What the chain of points fed in the order [le] satisfies: it is strictly
    increasing and turns left at every corner, its corners are among the
    points, every point is on the left of, or on, every side, and it runs
    from the first point to the last. *)
Definition chain_spec (le : point -> point -> Prop) (points : list point) : Prop :=
  increasing le (chain points)
  /\ left_turns (chain points)
  /\ (forall s, In s (chain points) -> In s points)
  /\ (forall x, In x points -> left_of_sides (chain points) x)
  /\ (forall r, points <> [] ->
        hd r (chain points) = last points r /\ last (chain points) r = hd r points)
  /\ (points <> [] -> chain points <> []).

(** ** Sample input: a 3-4-5 triangle of segments *)

Definition triangle_raw : RawSchema :=
  {| raw_Edges := Some [("a"%string, line_segment 0 1);
                        ("b"%string, line_segment 1 2);
                        ("c"%string, line_segment 2 0)];
     raw_Vertices := Some triangle_vertices |}.

Definition triangle : Schema := schema_of_raw triangle_raw.

(** ** Sample input: the triangle with a spur from vertex 0 to a vertex 3
    at (10,10); the only cycle is still 0-1-2. *)

Definition spur_raw : RawSchema :=
  {| raw_Edges := Some [("a"%string, line_segment 0 1);
                        ("b"%string, line_segment 1 2);
                        ("c"%string, line_segment 2 0);
                        ("d"%string, line_segment 0 3)];
     raw_Vertices := Some (triangle_vertices ++ [(3%Z, vertex_at 10 10)]) |}.

Definition spur : Schema := schema_of_raw spur_raw.

Definition spur_graph : Graph :=
  {| g_nodes := [0%Z; 1%Z; 2%Z; 3%Z];
     g_edges := [(0%Z, 1%Z); (1%Z, 2%Z); (2%Z, 0%Z); (0%Z, 3%Z)] |}.

(** ** The hull of a cycle *)

(** [hull] lists vertex ids whose positions are the corners [corners] of the
    Graham-scan hull of the positions of the vertices of [cycle]. *)
Definition initial_hull_of (schema : Schema) (cycle hull : list Z) (corners : list point)
  : Prop :=
  exists coords,
    mapM (vertex_coords schema) cycle = Ok coords
    /\ corners = grahams_hull coords
    /\ mapM (fun h => pointLookup h schema) corners = Ok hull
    /\ mapM (vertex_coords schema) hull = Ok corners.

(** ** The hull builder in the specification's terms *)

(** Whether the schema has a [CircularArc] edge. *)
Definition has_arcs (es : dict string Edge) : bool :=
  existsb (fun kv => is_CircularArc (snd kv)) es.

(** The [CircularArc] edges met along [path], in path order. *)
Definition arcs_on_path (schema : Schema) (path : list Z) : result (list string) :=
  looked_up <- mapM (fun xy => edgeLookup xy schema) (izip_next path) ;;
  filterM (fun arc =>
             es <- schema_Edges schema ;; e <- getitem es arc ;; Ok (is_CircularArc e))
          looked_up.

(** An arc is an outward extrusion when its start vertex comes later in the
    path than its finish vertex. *)
Definition is_outward_extrusion (values_dict : dict string EdgeValues) (path : list Z)
    (arc : string) : result bool :=
  v <- getitem values_dict arc ;;
  s <- start_id v ;;
  i <- list_index path s ;;
  f <- finish_id v ;;
  j <- list_index path f ;;
  Ok (j <? i)%nat.

(** The box points the arcs along the shortest path from [a] to [b]
    contribute. *)
Definition side_boxes (lib : Library) (schema : Schema) (schema_graph : Graph)
    (values_dict : dict string EdgeValues) (ab : Z * Z) : result (list point) :=
  path <- nx_shortest_path lib schema_graph (fst ab) (snd ab) ;;
  arcs <- arcs_on_path schema path ;;
  extrusions <- filterM (is_outward_extrusion values_dict path) arcs ;;
  boxes <- mapM (fun x => v <- getitem values_dict x ;; box_points v) extrusions ;;
  Ok (concat boxes).

(** The final hull of one cycle, from its initial hull. *)
Definition final_hull (lib : Library) (schema : Schema) (schema_graph : Graph)
    (values_dict : dict string EdgeValues) (arcs : bool) (hull : list Z)
  : result (list point) :=
  corners <- mapM (vertex_coords schema) hull ;;
  if arcs then
    first <- index_at hull 0 ;;
    per_side <- mapM (side_boxes lib schema schema_graph values_dict)
                  (izip_next (hull ++ [first])) ;;
    Ok (grahams_hull (corners ++ concat per_side))
  else Ok corners.

Definition hull_builder (lib : Library) (schema : Schema) (schema_graph : Graph)
    (values_dict : dict string EdgeValues) : result (list (list point)) :=
  initial_hull <- computeInnerHull lib schema schema_graph ;;
  es <- schema_Edges schema ;;
  mapM (final_hull lib schema schema_graph values_dict (has_arcs es)) initial_hull.

(** ** The bounding rectangle in the specification's terms *)

Definition list_max (xs : list R) : R :=
  match xs with
  | [] => 0
  | x :: xs' => fold_left Rmax xs' x
  end.

Definition list_min (xs : list R) : R :=
  match xs with
  | [] => 0
  | x :: xs' => fold_left Rmin xs' x
  end.

(** Distance of [p] from the line through the side [e]. *)
Definition perpendicular_distance (e : point * point) (p : point) : R :=
  Rabs (cross (fst e) (snd e) p) / distance (fst e) (snd e).

(** Position of the foot of [p] along the side [e], measured from its first
    end. *)
Definition projection (e : point * point) (p : point) : R :=
  ((fst p - fst (fst e)) * (fst (snd e) - fst (fst e))
   + (snd p - snd (fst e)) * (snd (snd e) - snd (fst e)))
  / distance (fst e) (snd e).

(** The numerator of [projection]. *)
Definition along (e : point * point) (p : point) : R :=
  (fst p - fst (fst e)) * (fst (snd e) - fst (fst e))
  + (snd p - snd (fst e)) * (snd (snd e) - snd (fst e)).

(** The rectangle flush with the side [e] that holds the hull: its height
    is the largest distance of a hull point from the side, its width the
    span of the projections of the hull points on the side. *)
Definition rect_height (e : point * point) (hull : list point) : R :=
  list_max (map (perpendicular_distance e) hull).

Definition rect_width (e : point * point) (hull : list point) : R :=
  list_max (map (projection e) hull) - list_min (map (projection e) hull).

Definition rect_area (e : point * point) (hull : list point) : R :=
  rect_height e hull * rect_width e hull.

(** A polygon every side of which has a corner off its line. *)
Definition proper_polygon (hull : list point) : Prop :=
  hull <> []
  /\ forall e, In e (sides hull) ->
       exists p, In p hull /\ cross (fst e) (snd e) p <> 0.

(** The triples [findMinimumRectangle] loops over: a side, a hull point that
    is not one of its ends, and a pair of hull points. *)
Definition candidate : Type := ((point * point) * point * (point * point))%type.

Definition candidates (hull : list point) (first : point) : list candidate :=
  product (filter (fun x => negb (eqb (snd x) (fst (fst x)))
                            && negb (eqb (snd x) (snd (fst x))))
                  (product (izip_next (hull ++ [first])) hull))
          (product hull hull).

(** The entry a candidate stands for in [caliper_sizes]. *)
Definition caliper_of (s : candidate) : caliper :=
  let e := fst (fst s) in
  let hn := height_numerator e (snd (fst s)) in
  let wn := width_numerator e (snd s) in
  let sl := segment_length_square e in
  (math_fabs (hn * wn) / sl, (hn, wn, sl)).

(** The update of [caliper_sizes] by one candidate. *)
Definition caliper_update (caliper_sizes : dict (point * point) caliper) (s : candidate)
  : dict (point * point) caliper :=
  match dict_find caliper_sizes (fst (fst s)) with
  | Some old =>
      if Rltb (fst old) (fst (caliper_of s))
      then setitem caliper_sizes (fst (fst s)) (caliper_of s)
      else caliper_sizes
  | None => setitem caliper_sizes (fst (fst s)) (caliper_of s)
  end.

(** [v] is the entry of a candidate of side [e] among [cands] whose area is
    largest. *)
Definition largest_of (cands : list candidate) (e : point * point) (v : caliper) : Prop :=
  (exists s, In s cands /\ fst (fst s) = e /\ caliper_of s = v)
  /\ forall s, In s cands -> fst (fst s) = e -> fst (caliper_of s) <= fst v.


(* ================================================================= *)
(** ** Definitions for the further properties of the code *)

Definition position_of (v : Vertex) : point := (X (Position v), Y (Position v)).

Definition joins (x y : Z) (edge : Edge) : Prop :=
  In x (EVertices edge) /\ In y (EVertices edge).

(** The line [main] prints for one file whose processing does not end the
    run: the name and the price; the name and the message, when [ValueError]
    is raised before the [print] statement; the name, then the name and the
    message, when it is raised inside the [print] statement. *)
Definition printed (lib : Library) (sf : string * file) (line : string) : Prop :=
  process lib (fst sf) (snd sf) = Ok line
  \/ (prepare lib (fst sf) (snd sf) = Raise ValueError
      /\ line = not_valid_line (fst sf))
  \/ (exists data graph values,
        prepare lib (fst sf) (snd sf) = Ok (data, graph, values)
        /\ quote lib data graph values = Raise ValueError
        /\ line = (fst sf ++ " " ++ not_valid_line (fst sf))%string).

(** How a run ends at the file [sf] with the exception [e]: raised before
    the [print] statement, with nothing printed for the file, or inside it,
    with the name of the file left on the output. *)
Definition ended (lib : Library) (sf : string * file) (e : exn) (tail : list string)
  : Prop :=
  (prepare lib (fst sf) (snd sf) = Raise e /\ tail = [])
  \/ (exists data graph values,
        prepare lib (fst sf) (snd sf) = Ok (data, graph, values)
        /\ quote lib data graph values = Raise e
        /\ tail = [fst sf]).

(** The scalar product of [q - p] and [r - p]. *)
Definition dot (p q r : point) : R :=
  (fst q - fst p) * (fst r - fst p) + (snd q - snd p) * (snd r - snd p).

(** All the points lie on one line. *)
Definition collinear (points : list point) : Prop :=
  forall a b c, In a points -> In b points -> In c points -> cross a b c = 0.

Definition points_on_the_x_axis : list point := [(0, 0); (1, 0); (2, 0)].

(** A schema whose edge "b" ends at vertex 2, which is not declared. *)
Definition undeclared_vertex_raw : RawSchema :=
  {| raw_Edges := Some [("a"%string, line_segment 0 1);
                        ("b"%string, line_segment 1 2);
                        ("c"%string, line_segment 2 0)];
     raw_Vertices := Some [(0%Z, vertex_at 0 0); (1%Z, vertex_at 4 0)] |}.

(** [u] and [v] are joined by an edge of the undirected graph. *)
Definition adjacent (g : Graph) (u v : Z) : Prop :=
  In (u, v) (g_edges g) \/ In (v, u) (g_edges g).

(** Whether [a] and [c] come both before or both after [j] in the order of
    [sorted]. *)
Definition same_side (j a c : point) : Prop :=
  (strictly lex_le a j /\ strictly lex_le c j)
  \/ (strictly lex_le j a /\ strictly lex_le j c).

(** The properties of a chain, read in the order of the Python list. *)
Definition forward_chain (le : point -> point -> Prop) (points c : list point) : Prop :=
  (forall front a b back, c = front ++ a :: b :: back -> strictly le a b)
  /\ (forall front a b d back, c = front ++ a :: b :: d :: back -> 0 < cross a b d)
  /\ (forall x a b, In x points -> In (a, b) (izip_next c) -> 0 <= cross a b x)
  /\ (forall s, In s c -> In s points).

(** The two chains of [grahams_hull] and what the scan guarantees of them. *)
Definition hull_frame (points : list point) (lo hi : point) (l' u' : list point) : Prop :=
  grahams_hull points
  = (lo :: l') ++ firstn (length (hi :: u') - 2) (skipn 1 (hi :: u'))
  /\ last (lo :: l') lo = hi
  /\ last (hi :: u') hi = lo
  /\ forward_chain lex_le points (lo :: l')
  /\ forward_chain lex_ge points (hi :: u')
  /\ NoDup (lo :: l')
  /\ NoDup (hi :: u')
  /\ (forall x, In x points -> lex_le lo x /\ lex_le x hi).

(** The point [p] moved by [t]. *)
Definition translate (t p : point) : point := (fst p + fst t, snd p + snd t).

Definition translate_side (t : point) (e : point * point) : point * point :=
  (translate t (fst e), translate t (snd e)).

Definition translate_keys (t : point) (d : dict (point * point) caliper)
  : dict (point * point) caliper :=
  map (fun kv => (translate_side t (fst kv), snd kv)) d.

Definition translate_candidate (t : point)
    (s : ((point * point) * point) * (point * point))
  : ((point * point) * point) * (point * point) :=
  ((translate_side t (fst (fst s)), translate t (snd (fst s))), translate_side t (snd s)).

(* ================================================================= *)
(** * Verification *)

(** ** The monad and the containers *)

Lemma bind_Ok {A B : Type} (m : result A) (k : A -> result B) (b : B) :
  bind m k = Ok b -> exists a, m = Ok a /\ k a = Ok b.
Proof. destruct m as [a|e]; simpl; intros E; [eauto | discriminate]. Qed.

Lemma bind_Raise {A B : Type} (m : result A) (k : A -> result B) (e : exn) :
  m = Raise e -> bind m k = Raise e.
Proof. intros ->; reflexivity. Qed.

Lemma eqb_refl {K : Type} `{KeyEq K} (a : K) : eqb a a = true.
Proof. unfold eqb; destruct (key_eq_dec a a); congruence. Qed.

Lemma eqb_true {K : Type} `{KeyEq K} (a b : K) : eqb a b = true <-> a = b.
Proof. unfold eqb; destruct (key_eq_dec a b); split; congruence. Qed.

Lemma eqb_false {K : Type} `{KeyEq K} (a b : K) : eqb a b = false <-> a <> b.
Proof. unfold eqb; destruct (key_eq_dec a b); split; congruence. Qed.

Lemma contains_In {K : Type} `{KeyEq K} (x : K) (xs : list K) :
  contains x xs = true <-> In x xs.
Proof.
  unfold contains; rewrite existsb_exists; split.
  - intros (y & Hy & E); apply eqb_true in E; subst; assumption.
  - intros Hx; exists x; split; [assumption | apply eqb_refl].
Qed.

Lemma contains_not_In {K : Type} `{KeyEq K} (x : K) (xs : list K) :
  contains x xs = false <-> ~ In x xs.
Proof.
  rewrite <- contains_In; destruct (contains x xs); split; congruence.
Qed.

Lemma set_of_NoDup {K : Type} `{KeyEq K} (xs : list K) :
  NoDup xs -> set_of xs = xs.
Proof.
  induction 1 as [|x xs Hx _ IH]; simpl; [reflexivity|].
  apply contains_not_In in Hx; rewrite Hx, IH; reflexivity.
Qed.

Lemma keys_setitem {K V : Type} `{KeyEq K} (d : dict K V) (k : K) (v : V) :
  keys (setitem d k v) = if contains k (keys d) then keys d else keys d ++ [k].
Proof.
  induction d as [|[k' v'] d IH]; simpl; [reflexivity|].
  unfold contains in *; simpl.
  destruct (eqb k k') eqn:E; simpl; [reflexivity|].
  unfold keys in *; rewrite IH.
  destruct (existsb (eqb k) (map fst d)); reflexivity.
Qed.

Lemma NoDup_snoc {A : Type} (xs : list A) (x : A) :
  NoDup xs -> ~ In x xs -> NoDup (xs ++ [x]).
Proof.
  intros Hn Hx; apply NoDup_rev in Hn.
  rewrite <- (rev_involutive (xs ++ [x])); apply NoDup_rev.
  rewrite rev_app_distr; simpl; constructor; [|assumption].
  rewrite <- in_rev; assumption.
Qed.

Lemma setitem_NoDup {K V : Type} `{KeyEq K} (d : dict K V) (k : K) (v : V) :
  NoDup (keys d) -> NoDup (keys (setitem d k v)).
Proof.
  intros Hd; rewrite keys_setitem.
  destruct (contains k (keys d)) eqn:E; [assumption|].
  apply NoDup_snoc; [assumption | apply contains_not_In; assumption].
Qed.

(** What [json.load] returns is a dict: its keys are pairwise distinct. *)
Lemma dict_of_pairs_NoDup {K V : Type} `{KeyEq K} (pairs : list (K * V)) :
  NoDup (keys (dict_of_pairs pairs)).
Proof.
  unfold dict_of_pairs.
  assert (G : forall d, NoDup (keys d) ->
              NoDup (keys (fold_left (fun d kv => setitem d (fst kv) (snd kv)) pairs d))).
  { induction pairs as [|kv pairs IH]; simpl; intros d Hd; [assumption|].
    apply IH, setitem_NoDup, Hd. }
  apply G; constructor.
Qed.

(** The two length comparisons of [validateSchema] on a dict. *)
Lemma duplicate_check_passes {K V : Type} `{KeyEq K} (d : dict K V) :
  NoDup (keys d) ->
  negb (length (keys d) =? length (set_of (keys d)))%nat = false.
Proof. intros Hd; rewrite set_of_NoDup by assumption; rewrite Nat.eqb_refl; reflexivity. Qed.

(** A schema that is a Python object: both member dicts have distinct keys. *)
Definition Schema_wf (schema : Schema) : Prop :=
  (forall es, Edges schema = Some es -> NoDup (keys es))
  /\ (forall vs, Vertices schema = Some vs -> NoDup (keys vs)).

Lemma json_load_wf (raw : RawSchema) (schema : Schema) :
  json_load (JSONText raw) = Ok schema -> Schema_wf schema.
Proof.
  simpl; intros E; injection E as <-; split; simpl.
  - destruct (raw_Edges raw); simpl; intros es E; inversion E; apply dict_of_pairs_NoDup.
  - destruct (raw_Vertices raw); simpl; intros vs E; inversion E; apply dict_of_pairs_NoDup.
Qed.

Lemma validateSchema_wf (lib : Library) (name : string) (schema : Schema) :
  Schema_wf schema ->
  validateSchema lib name schema =
    match Edges schema, Vertices schema with
    | Some _, Some _ =>
        g <- createGraph schema ;; cycles <- findPath lib g ;; Ok (cycles, g)
    | _, _ => Raise ValueError
    end.
Proof.
  intros [He Hv]; unfold validateSchema.
  destruct (Edges schema) as [es|]; [|reflexivity].
  destruct (Vertices schema) as [vs|]; [|reflexivity].
  rewrite (duplicate_check_passes es), (duplicate_check_passes vs) by auto.
  reflexivity.
Qed.

Lemma createGraph_Ok_keys (schema : Schema) (g : Graph) :
  createGraph schema = Ok g ->
  exists es vs, Edges schema = Some es /\ Vertices schema = Some vs.
Proof.
  unfold createGraph, schema_Vertices, schema_Edges.
  destruct (Vertices schema) as [vs|]; simpl; [|discriminate].
  destruct (Edges schema) as [es|]; simpl; [|discriminate].
  eauto.
Qed.

Lemma json_load_JSONText (raw : RawSchema) :
  json_load (JSONText raw) = Ok (schema_of_raw raw).
Proof. reflexivity. Qed.

Lemma schema_of_raw_wf (raw : RawSchema) : Schema_wf (schema_of_raw raw).
Proof. apply (json_load_wf raw); reflexivity. Qed.

(* ================================================================= *)
(** ** Cycle finder (C6) *)

Lemma findPath_cases (lib : Library) (g : Graph) :
  findPath lib g =
    match nx_cycle_basis lib g with
    | [] => Raise NetworkXNoCycle
    | c :: cs => Ok (c :: cs)
    end.
Proof. unfold findPath; destruct (nx_cycle_basis lib g); reflexivity. Qed.

(** C6. A schema whose graph has an empty cycle basis makes [findPath], hence
    [validateSchema] and the whole price computation, raise
    [NetworkXNoCycle] (the program's no-closed-curve error): no price is
    returned.  With a non-empty basis [findPath] returns the list of
    cycles and [validateSchema] returns it with the graph. *)
Theorem findPath_no_closed_curve
    (lib : Library) (name : string) (schema : Schema) (g : Graph) :
  Schema_wf schema ->
  createGraph schema = Ok g ->
  (nx_cycle_basis lib g = [] ->
     findPath lib g = Raise NetworkXNoCycle
     /\ validateSchema lib name schema = Raise NetworkXNoCycle
     /\ price lib name schema = Raise NetworkXNoCycle)
  /\ (nx_cycle_basis lib g <> [] ->
        findPath lib g = Ok (nx_cycle_basis lib g)
        /\ validateSchema lib name schema = Ok (nx_cycle_basis lib g, g)).
Proof.
  intros Hwf Hg.
  pose proof (validateSchema_wf lib name schema Hwf) as Hv.
  destruct (createGraph_Ok_keys schema g Hg) as (es & vs & He & Hvs).
  rewrite He, Hvs, Hg in Hv; simpl in Hv.
  rewrite findPath_cases in *.
  split; intros Hc.
  - rewrite Hc in *; simpl in Hv.
    repeat split; try assumption.
    unfold price; rewrite Hv; reflexivity.
  - destruct (nx_cycle_basis lib g) as [|c cs]; [congruence|].
    split; [reflexivity | exact Hv].
Qed.

Lemma open_path_createGraph : createGraph open_path = Ok open_path_graph.
Proof. reflexivity. Qed.

Lemma findPath_no_closed_curve_witness :
  price acyclic_library "open.json" open_path = Raise NetworkXNoCycle.
Proof.
  apply (findPath_no_closed_curve acyclic_library "open.json" open_path open_path_graph
           (schema_of_raw_wf open_path_raw) open_path_createGraph).
  reflexivity.
Defined.

(* ================================================================= *)
(** ** Schema validation (C8) *)

(** On what [json.load] returns, the comparison of [len(keys)] with
    [len(set(keys))] never fires: a schema with both members goes on to the
    graph and the cycle finder whatever ids its text repeats. *)
Lemma validateSchema_after_json_load (lib : Library) (name : string) (raw : RawSchema) :
  validateSchema lib name (schema_of_raw raw) =
    match raw_Edges raw, raw_Vertices raw with
    | Some _, Some _ =>
        g <- createGraph (schema_of_raw raw) ;;
        cycles <- findPath lib g ;; Ok (cycles, g)
    | _, _ => Raise ValueError
    end.
Proof.
  rewrite validateSchema_wf by apply schema_of_raw_wf.
  simpl; destruct (raw_Edges raw), (raw_Vertices raw); reflexivity.
Qed.

(** C8, at the failing input.  The JSON text gives the edge id "c" twice;
    [json.load] keeps the last of the two edges, and [validateSchema]
    accepts the schema instead of raising [ValueError]. *)
Theorem validateSchema_repeated_edge_id_accepted :
  json_load (JSONText repeated_edge_id_raw) = Ok (schema_of_raw repeated_edge_id_raw)
  /\ keys (raw_edges_or_nil repeated_edge_id_raw) = ["a"; "b"; "c"; "c"]%string
  /\ validateSchema triangle_library "repeated.json" (schema_of_raw repeated_edge_id_raw)
     = Ok ([[0; 1; 2]]%Z, triangle_graph).
Proof. repeat split. Qed.

(* ================================================================= *)
(** ** The batch loop of [main] (C10) *)

Lemma process_phases (lib : Library) (s : string) (f : file) :
  process lib s f
  = (p <- prepare lib s f ;;
     x <- quote lib (fst (fst p)) (snd (fst p)) (snd p) ;;
     Ok (s ++ " " ++ costFormat lib x)%string).
Proof.
  unfold process, prepare, price, quote.
  destruct (json_load f) as [data|e]; cbn [bind]; [|reflexivity].
  destruct (validateSchema lib s data) as [pg|e]; cbn [bind]; [|reflexivity].
  destruct (computeValues data) as [values|e]; cbn [bind fst snd]; [|reflexivity].
  destruct (arcLength data values) as [cut|e]; cbn [bind]; [|reflexivity].
  destruct (rotateCalipers lib data (snd pg) values); reflexivity.
Qed.

(** An exception raised before the [print] statement is the exception of the
    [try] block, and the name of the file is not written. *)
Lemma prepare_raises (lib : Library) (s : string) (f : file) (e : exn) :
  prepare lib s f = Raise e ->
  process lib s f = Raise e
  /\ reported lib s f = not_valid_line s
  /\ left_on_output lib s f = [].
Proof.
  intros E; rewrite process_phases; unfold reported, left_on_output, name_written.
  rewrite E; repeat split.
Qed.

Lemma main_cons (lib : Library) (s : string) (f : file) (rest : list (string * file)) :
  main lib ((s, f) :: rest) =
    match process lib s f with
    | Ok line => (line :: fst (main lib rest), snd (main lib rest))
    | Raise ValueError => (reported lib s f :: fst (main lib rest), snd (main lib rest))
    | Raise e => (left_on_output lib s f, Some e)
    end.
Proof.
  rewrite process_phases; unfold reported, left_on_output, name_written; cbn [main].
  destruct (prepare lib s f) as [[[data graph] values]|e]; cbn [bind fst snd is_ok].
  - destruct (quote lib data graph values) as [x|e]; cbn [bind].
    + destruct (main lib rest); reflexivity.
    + destruct e; try reflexivity; destruct (main lib rest); reflexivity.
  - destruct e; try reflexivity; destruct (main lib rest); reflexivity.
Qed.

(** A run that no exception ended goes on with the rest of the batch. *)
Lemma main_app (lib : Library) (before rest : list (string * file)) :
  snd (main lib before) = None ->
  main lib (before ++ rest)
  = (fst (main lib before) ++ fst (main lib rest), snd (main lib rest)).
Proof.
  induction before as [|[s f] before IH]; intros Hnone.
  - simpl; destruct (main lib rest); reflexivity.
  - rewrite <- app_comm_cons, !main_cons; rewrite main_cons in Hnone.
    destruct (process lib s f) as [line|e].
    + simpl in *; rewrite IH by assumption; reflexivity.
    + destruct e; simpl in *; try discriminate.
      rewrite IH by assumption; reflexivity.
Qed.

Lemma prepare_NotJSON (lib : Library) (s : string) :
  prepare lib s NotJSON = Raise ValueError.
Proof. reflexivity. Qed.

Lemma prepare_missing_key (lib : Library) (s : string) (raw : RawSchema) :
  raw_Edges raw = None \/ raw_Vertices raw = None ->
  prepare lib s (JSONText raw) = Raise ValueError.
Proof.
  intros H; unfold prepare; rewrite json_load_JSONText; cbn [bind].
  rewrite validateSchema_after_json_load.
  destruct H as [-> | ->]; [reflexivity|].
  destruct (raw_Edges raw); reflexivity.
Qed.

Lemma process_NotJSON (lib : Library) (s : string) :
  process lib s NotJSON = Raise ValueError.
Proof. reflexivity. Qed.

Lemma process_missing_key (lib : Library) (s : string) (raw : RawSchema) :
  raw_Edges raw = None \/ raw_Vertices raw = None ->
  process lib s (JSONText raw) = Raise ValueError.
Proof. intros H; apply prepare_raises, prepare_missing_key, H. Qed.

(** C10, as the code has it.  In a batch whose earlier files did not end the
    run: a file whose processing raises [ValueError] gets a line that ends in
    "... is not in valid JSON format." and no price, and the rest of the
    batch is processed; an exception of any other class
    ([NetworkXNoCycle], [ZeroDivisionError], ...) ends [main] there, and the
    files after it are not processed.  When the exception is raised before
    the [print] statement, by [json.load], [validateSchema] or
    [computeValues] (text that is not JSON, a schema without ["Edges"] or
    ["Vertices"], no cycle, a division by zero in an arc), the line of a
    [ValueError] is the name and the message, and nothing is printed for an
    exception of another class.  When it is raised inside the [print]
    statement, by [arcLength] or [rotateCalipers], the name of the file is
    on the output already: the message follows it on the same line, or the
    name is all that is printed. *)
Theorem main_batch_error_policy
    (lib : Library) (before : list (string * file)) (s : string) (f : file)
    (rest : list (string * file)) :
  snd (main lib before) = None ->
  (process lib s f = Raise ValueError ->
     main lib (before ++ (s, f) :: rest)
     = (fst (main lib before) ++ reported lib s f :: fst (main lib rest),
        snd (main lib rest)))
  /\ (forall e, e <> ValueError -> process lib s f = Raise e ->
        main lib (before ++ (s, f) :: rest)
        = (fst (main lib before) ++ left_on_output lib s f, Some e))
  /\ (forall e, prepare lib s f = Raise e ->
        process lib s f = Raise e
        /\ reported lib s f = not_valid_line s
        /\ left_on_output lib s f = [])
  /\ (forall data graph values e,
        prepare lib s f = Ok (data, graph, values) ->
        quote lib data graph values = Raise e ->
        process lib s f = Raise e
        /\ reported lib s f = (s ++ " " ++ not_valid_line s)%string
        /\ left_on_output lib s f = [s])
  /\ (process lib s NotJSON = Raise ValueError
      /\ prepare lib s NotJSON = Raise ValueError)
  /\ (forall raw, raw_Edges raw = None \/ raw_Vertices raw = None ->
        process lib s (JSONText raw) = Raise ValueError
        /\ prepare lib s (JSONText raw) = Raise ValueError).
Proof.
  intros Hnone; split; [|split; [|split; [|split; [|split]]]].
  - intros E; rewrite main_app, main_cons, E by assumption; reflexivity.
  - intros e Hne E; rewrite main_app, main_cons, E by assumption.
    destruct e; try congruence; reflexivity.
  - intros e E; apply prepare_raises, E.
  - intros data graph values e Hp Hq; rewrite process_phases.
    unfold reported, left_on_output, name_written; rewrite Hp; cbn [bind fst snd is_ok].
    rewrite Hq; repeat split.
  - split; reflexivity.
  - intros raw H; split; [apply process_missing_key | apply prepare_missing_key]; exact H.
Qed.

Lemma main_batch_error_policy_witness :
  main acyclic_library
    ([] ++ ("broken.json"%string, NotJSON)
        :: [("empty.json"%string, JSONText {| raw_Edges := None; raw_Vertices := None |})])
  = ([not_valid_line "broken.json"; not_valid_line "empty.json"], None).
Proof.
  exact (proj1 (main_batch_error_policy acyclic_library [] "broken.json" NotJSON
                  [("empty.json"%string,
                    JSONText {| raw_Edges := None; raw_Vertices := None |})]
                  eq_refl)
               eq_refl).
Defined.

(** C10 fails as stated: the open path raises [NetworkXNoCycle], which
    [main] does not catch, and the file after it is never processed. *)
Lemma main_stops_at_no_closed_curve :
  main acyclic_library
    [("open.json"%string, JSONText open_path_raw); ("broken.json"%string, NotJSON)]
  = ([], Some NetworkXNoCycle)
  /\ main acyclic_library [("broken.json"%string, NotJSON)]
     = ([not_valid_line "broken.json"], None).
Proof. split; reflexivity. Qed.

(* ================================================================= *)
(** ** Arithmetic of the interpreter *)

Lemma pdiv_Ok (a b : R) : b <> 0 -> pdiv a b = Ok (a / b).
Proof. intros Hb; unfold pdiv; destruct (Req_dec_T b 0); [contradiction | reflexivity]. Qed.

Lemma pdiv_zero (a b : R) : b = 0 -> pdiv a b = Raise ZeroDivisionError.
Proof. intros Hb; unfold pdiv; destruct (Req_dec_T b 0); [reflexivity | contradiction]. Qed.

Lemma math_sqrt_Ok (x : R) : 0 <= x -> math_sqrt x = Ok (sqrt x).
Proof. intros Hx; unfold math_sqrt; destruct (Rlt_dec x 0); [lra | reflexivity]. Qed.

Lemma math_sqrt_negative (x : R) : x < 0 -> math_sqrt x = Raise ValueError.
Proof. intros Hx; unfold math_sqrt; destruct (Rlt_dec x 0); [reflexivity | lra]. Qed.

Lemma math_asin_Ok (x : R) : -1 <= x <= 1 -> math_asin x = Ok (asin x).
Proof.
  intros Hx; unfold math_asin.
  destruct (Rlt_dec x (-1)); [lra|]; destruct (Rlt_dec 1 x); [lra | reflexivity].
Qed.

Lemma math_asin_above (x : R) : 1 < x -> math_asin x = Raise ValueError.
Proof.
  intros Hx; unfold math_asin.
  destruct (Rlt_dec x (-1)); [reflexivity|]; destruct (Rlt_dec 1 x); [reflexivity | lra].
Qed.

Lemma sum_squares_nonneg (a b : R) : 0 <= a ^ 2 + b ^ 2.
Proof. nra. Qed.

Lemma distance_nonneg (p q : point) : 0 <= distance p q.
Proof. apply sqrt_pos. Qed.


(* ================================================================= *)
(** ** Edge geometry (C7, C9) *)

(** The arc branch of [computeValues], once its lookups succeed, is the
    arithmetic [arc_geometry]. *)
Lemma arcValues_geometry (schema : Schema) (edge : Edge) (s f : Z) (ps pf c : point) :
  arc_ends schema edge s f ps pf c ->
  arcValues schema edge = arc_geometry s f ps pf c.
Proof.
  intros (Hs & Hf & Hps & Hpf & Hc).
  unfold arcValues, arc_geometry.
  rewrite Hs; cbn [bind]; rewrite Hf; cbn [bind]; rewrite Hps; cbn [bind].
  rewrite Hpf; cbn [bind].
  destruct (Center edge) as [c0|]; cbn [option_map] in Hc; [|discriminate].
  injection Hc as <-; unfold arc_entry, bulge_box, distance; cbn [bind fst snd].
  rewrite math_sqrt_Ok by apply sum_squares_nonneg; cbn [bind].
  rewrite math_sqrt_Ok by apply sum_squares_nonneg; cbn [bind].
  set (r := sqrt ((X c0 - fst ps) ^ 2 + (Y c0 - snd ps) ^ 2)).
  set (ch := sqrt ((fst pf - fst ps) ^ 2 + (snd pf - snd ps) ^ 2)).
  assert (Hr : 0 <= r) by apply sqrt_pos.
  assert (Hch : 0 <= ch) by apply sqrt_pos.
  rewrite !(pdiv_Ok _ 2) by lra; cbn [bind].
  destruct (Req_dec_T r 0) as [Hr0|Hr0].
  { rewrite pdiv_zero by lra; reflexivity. }
  rewrite pdiv_Ok by lra; cbn [bind].
  assert (Hrat : 0 <= ch / (2 * r)).
  { apply Rmult_le_pos; [assumption|]. left; apply Rinv_0_lt_compat; lra. }
  destruct (Rlt_dec (2 * r) ch) as [Hlong|Hlong].
  { rewrite math_asin_above; [reflexivity|].
    apply Rmult_lt_reg_r with (2 * r); [lra|].
    unfold Rdiv; rewrite Rmult_assoc, Rinv_l by lra; lra. }
  rewrite math_asin_Ok; cbn [bind].
  2:{ split; [lra|].
      apply Rmult_le_reg_r with (2 * r); [lra|].
      unfold Rdiv; rewrite Rmult_assoc, Rinv_l by lra; lra. }
  rewrite (pdiv_Ok _ 4) by lra; cbn [bind].
  rewrite math_sqrt_Ok by nra; cbn [bind].
  destruct (Req_dec_T ch 0) as [Hch0|Hch0].
  { rewrite pdiv_zero by assumption; reflexivity. }
  rewrite !pdiv_Ok by assumption; cbn [bind].
  reflexivity.
Qed.


Lemma arc_geometry_accepts (s f : Z) (ps pf c : point) :
  0 < distance ps pf <= 2 * distance ps c ->
  arc_geometry s f ps pf c = Ok (arc_entry s f ps pf c).
Proof.
  intros [Hpos Hle]; unfold arc_geometry.
  destruct (Req_dec_T (distance ps c) 0); [lra|].
  destruct (Rlt_dec (2 * distance ps c) (distance ps pf)); [lra|].
  destruct (Req_dec_T (distance ps pf) 0); [lra | reflexivity].
Qed.


Lemma edgeValues_arc (schema : Schema) (edge : Edge) (s f : Z) (ps pf c : point) :
  is_LineSegment edge = false ->
  arc_ends schema edge s f ps pf c ->
  edgeValues schema edge = arc_geometry s f ps pf c.
Proof.
  intros Hl He; unfold edgeValues; rewrite Hl; apply arcValues_geometry; assumption.
Qed.

(** The loop of [computeValues] stops at the first edge whose geometry
    raises. *)
Lemma computeValues_loop_first_raise
    (schema : Schema) (before after : list (string * Edge)) (kv : string * Edge) (e : exn) :
  Forall (fun kv => is_ok (edgeValues schema (snd kv)) = true) before ->
  edgeValues schema (snd kv) = Raise e ->
  forall d,
    foldM (fun values_dict kv =>
             v <- edgeValues schema (snd kv) ;; Ok (setitem values_dict (fst kv) v))
          (before ++ kv :: after) d = Raise e.
Proof.
  intros Hb He; induction Hb as [|kv' before Hok _ IH]; intros d; cbn [app foldM].
  - rewrite He; reflexivity.
  - destruct (edgeValues schema (snd kv')); [|discriminate]; cbn [bind]; apply IH.
Qed.




Lemma arc_profile_ends (p0 p1 : point) :
  arc_ends (arc_profile p0 p1) (circular_arc 0 1 0 0 0) 0 1 p0 p1 (0, 0).
Proof. destruct p0, p1; repeat split. Qed.








Lemma distance_5_0_to_2_4 : distance (5, 0) (2, 4) = 5.
Proof.
  unfold distance; cbn [fst snd].
  replace ((2 - 5) ^ 2 + (4 - 0) ^ 2) with (5 * 5) by lra.
  apply sqrt_square; lra.
Qed.

Lemma distance_5_0_to_origin : distance (5, 0) (0, 0) = 5.
Proof.
  unfold distance; cbn [fst snd].
  replace ((0 - 5) ^ 2 + (0 - 0) ^ 2) with (5 * 5) by lra.
  apply sqrt_square; lra.
Qed.

(** The finish vertex (2,4) is not at distance 5 from the centre. *)
Lemma distance_2_4_to_origin : distance (2, 4) (0, 0) <> 5.
Proof.
  unfold distance; cbn [fst snd]; intros H.
  assert (H2 : sqrt ((0 - 2) ^ 2 + (0 - 4) ^ 2) * sqrt ((0 - 2) ^ 2 + (0 - 4) ^ 2) = 25)
    by (rewrite H; lra).
  rewrite sqrt_sqrt in H2 by lra; lra.
Qed.





(* ================================================================= *)
(** ** Dictionaries *)

Lemma dict_find_setitem_same {K V : Type} `{KeyEq K} (d : dict K V) (k : K) (v : V) :
  dict_find (setitem d k v) k = Some v.
Proof.
  induction d as [|[k' v'] d IH]; simpl.
  - rewrite eqb_refl; reflexivity.
  - destruct (eqb k k') eqn:E; simpl; rewrite E; [reflexivity | exact IH].
Qed.

Lemma dict_find_setitem_other {K V : Type} `{KeyEq K} (d : dict K V) (k k' : K) (v : V) :
  k <> k' -> dict_find (setitem d k v) k' = dict_find d k'.
Proof.
  intros Hne; induction d as [|[k0 v0] d IH]; simpl.
  - apply not_eq_sym in Hne; apply eqb_false in Hne; rewrite Hne; reflexivity.
  - destruct (eqb k k0) eqn:E; simpl.
    + apply eqb_true in E; subst k0.
      apply not_eq_sym in Hne; apply eqb_false in Hne; rewrite Hne; reflexivity.
    + rewrite IH; reflexivity.
Qed.

Lemma dict_find_In {K V : Type} `{KeyEq K} (d : dict K V) (k : K) (v : V) :
  dict_find d k = Some v -> In k (keys d).
Proof.
  induction d as [|[k' v'] d IH]; simpl; [discriminate|].
  destruct (eqb k k') eqn:E; [apply eqb_true in E; auto | auto].
Qed.

Lemma getitem_Ok {K V : Type} `{KeyEq K} (d : dict K V) (k : K) (v : V) :
  getitem d k = Ok v <-> dict_find d k = Some v.
Proof.
  unfold getitem; destruct (dict_find d k); split; intros E;
    try discriminate; congruence.
Qed.

(* ================================================================= *)
(** ** Cut cost (C2) *)

Lemma edgeValues_segment (schema : Schema) (edge : Edge) (s f : Z) (ps pf : point) :
  is_LineSegment edge = true ->
  segment_ends schema edge s f ps pf ->
  edgeValues schema edge = Ok (LineValues s f (distance ps pf)).
Proof.
  intros Hl (Hs & Hf & Hps & Hpf); unfold edgeValues, lineValues; rewrite Hl.
  rewrite Hs; cbn [bind]; rewrite Hf; cbn [bind]; rewrite Hps; cbn [bind].
  rewrite Hpf; cbn [bind]; rewrite math_sqrt_Ok by apply sum_squares_nonneg.
  reflexivity.
Qed.

Lemma arc_geometry_Ok (s f : Z) (ps pf c : point) (v : EdgeValues) :
  arc_geometry s f ps pf c = Ok v ->
  0 < distance ps pf <= 2 * distance ps c /\ v = arc_entry s f ps pf c.
Proof.
  unfold arc_geometry; pose proof (distance_nonneg ps pf).
  destruct (Req_dec_T (distance ps c) 0); [discriminate|].
  destruct (Rlt_dec (2 * distance ps c) (distance ps pf)); [discriminate|].
  destruct (Req_dec_T (distance ps pf) 0); [discriminate|].
  intros E; injection E as <-; split; [lra | reflexivity].
Qed.

(** The entries [computeValues] stores are those of [edge_entry]. *)
Lemma edgeValues_entry (schema : Schema) (edge : Edge) (v : EdgeValues) :
  edgeValues schema edge = Ok v <-> edge_entry schema edge v.
Proof.
  unfold edge_entry; destruct (is_LineSegment edge) eqn:Hl; split.
  - unfold edgeValues, lineValues; rewrite Hl; intros E.
    apply bind_Ok in E as (s & Hs & E); apply bind_Ok in E as (f & Hf & E).
    apply bind_Ok in E as (ps & Hps & E); apply bind_Ok in E as (pf & Hpf & E).
    rewrite math_sqrt_Ok in E by apply sum_squares_nonneg; cbn [bind] in E.
    injection E as <-; exists s, f, ps, pf; repeat split; assumption.
  - intros (s & f & ps & pf & He & ->); apply edgeValues_segment; assumption.
  - intros E; pose proof E as E'; unfold edgeValues, arcValues in E; rewrite Hl in E.
    apply bind_Ok in E as (s & Hs & E); apply bind_Ok in E as (f & Hf & E).
    apply bind_Ok in E as (ps & Hps & E); apply bind_Ok in E as (pf & Hpf & E).
    apply bind_Ok in E as (c & Hc & _).
    assert (He : arc_ends schema edge s f ps pf c).
    { unfold arc_ends.
      destruct (ClockwiseFrom edge); [|discriminate]; injection Hs as ->.
      destruct (Center edge); [|discriminate]; injection Hc as <-.
      repeat split; auto. }
    rewrite (edgeValues_arc schema edge s f ps pf c) in E' by assumption.
    apply arc_geometry_Ok in E' as [Hd ->].
    exists s, f, ps, pf, c; repeat split; try apply He; apply Hd.
  - intros (s & f & ps & pf & c & He & Hd & ->).
    rewrite (edgeValues_arc schema edge s f ps pf c) by assumption.
    apply arc_geometry_accepts; assumption.
Qed.

(** [computeValues] stores, under the id of every edge, the entry of that
    edge. *)
Lemma computeValues_loop_entries (schema : Schema) (es : list (string * Edge)) :
  NoDup (keys es) ->
  forall (d values : dict string EdgeValues),
    (forall k, In k (keys es) -> ~ In k (keys d)) ->
    foldM (fun values_dict kv =>
             v <- edgeValues schema (snd kv) ;; Ok (setitem values_dict (fst kv) v))
          es d = Ok values ->
    (forall k v, dict_find d k = Some v -> dict_find values k = Some v)
    /\ exists vs,
         Forall2 (fun kv v => edgeValues schema (snd kv) = Ok v
                              /\ getitem values (fst kv) = Ok v) es vs.
Proof.
  induction es as [|[k edge] es IH]; intros Hnd d values Hfresh E; cbn [foldM] in E.
  - injection E as <-; split; [auto | exists []; constructor].
  - apply bind_Ok in E as (d' & Hd' & E).
    apply bind_Ok in Hd' as (v & Hv & Hd'); injection Hd' as <-.
    cbn [fst snd] in *; inversion Hnd as [|? ? Hk Hnd']; subst.
    apply IH in E as (Hkeep & vs & Hvs); [|assumption|].
    + assert (Hold : forall k' v', dict_find d k' = Some v' -> dict_find values k' = Some v').
      { intros k' v' Hf; apply Hkeep.
        rewrite dict_find_setitem_other; [assumption|].
        intros ->; apply dict_find_In in Hf.
        apply (Hfresh k'); [left; reflexivity | assumption]. }
      split; [exact Hold|].
      exists (v :: vs); constructor; [|assumption].
      split; [assumption|]; apply getitem_Ok, Hkeep, dict_find_setitem_same.
    + intros k' Hk' Hin; rewrite keys_setitem in Hin.
      destruct (contains k (keys d)) eqn:Hc.
      * apply (Hfresh k'); [right|]; assumption.
      * apply in_app_or in Hin as [Hin | [<- | []]].
        -- apply (Hfresh k'); [right|]; assumption.
        -- contradiction.
Qed.

Lemma exp_nonzero (x : R) : LASER_SPEED * math_exp x <> 0.
Proof.
  unfold LASER_SPEED, math_exp; pose proof (exp_pos x); nra.
Qed.

Lemma edge_entry_cost_step (schema : Schema) (edge : Edge) (v : EdgeValues) (price : R) :
  edge_entry schema edge v ->
  (if is_LineSegment edge then
     d <- dist v ;; t <- pdiv d LASER_SPEED ;; Ok (price + t * TIME_COST)
   else
     sl <- sector_length v ;; r <- radius v ;; q <- pdiv (-1) r ;;
     t <- pdiv sl (LASER_SPEED * math_exp q) ;; Ok (price + t * TIME_COST))
  = Ok (price + cut_cost v).
Proof.
  unfold edge_entry; destruct (is_LineSegment edge).
  - intros (s & f & ps & pf & _ & ->); cbn [dist bind].
    rewrite pdiv_Ok by (unfold LASER_SPEED; lra); reflexivity.
  - intros (s & f & ps & pf & c & _ & Hd & ->).
    unfold arc_entry; cbn [sector_length radius bind].
    rewrite pdiv_Ok by lra; cbn [bind].
    rewrite pdiv_Ok by apply exp_nonzero; reflexivity.
Qed.

Lemma arcLength_loop (schema : Schema) (values : dict string EdgeValues)
    (es : list (string * Edge)) (vs : list EdgeValues) :
  Forall2 (fun kv v => edgeValues schema (snd kv) = Ok v
                       /\ getitem values (fst kv) = Ok v) es vs ->
  forall price,
    foldM (fun price kv =>
             let edge_id := fst kv in
             let edge := snd kv in
             v <- getitem values edge_id ;;
             if is_LineSegment edge then
               d <- dist v ;; t <- pdiv d LASER_SPEED ;; Ok (price + t * TIME_COST)
             else
               sl <- sector_length v ;; r <- radius v ;; q <- pdiv (-1) r ;;
               t <- pdiv sl (LASER_SPEED * math_exp q) ;; Ok (price + t * TIME_COST))
          es price
    = Ok (price + total (map cut_cost vs)).
Proof.
  induction 1 as [|kv v es vs [Hv Hg] _ IH]; intros price; cbn [foldM map total fold_right].
  - f_equal; lra.
  - rewrite Hg; cbn [bind].
    rewrite (edge_entry_cost_step schema) by (apply edgeValues_entry; assumption).
    cbn [bind]; rewrite IH; f_equal; unfold total; lra.
Qed.

(** Once [computeValues] has returned, [arcLength] returns the sum of the
    cut costs of the entries. *)
Lemma arcLength_after_computeValues
    (schema : Schema) (es : list (string * Edge)) (values : dict string EdgeValues) :
  Edges schema = Some es ->
  NoDup (keys es) ->
  computeValues schema = Ok values ->
  exists vs,
    Forall2 (fun kv v => edge_entry schema (snd kv) v) es vs
    /\ arcLength schema values = Ok (total (map cut_cost vs)).
Proof.
  intros Hes Hnd Hv.
  unfold computeValues, schema_Edges in Hv; rewrite Hes in Hv; cbn [bind] in Hv.
  apply computeValues_loop_entries in Hv as (_ & vs & Hvs); [|assumption|auto].
  exists vs; split.
  - eapply Forall2_impl; [|exact Hvs].
    intros kv v [H _]; apply edgeValues_entry; assumption.
  - unfold arcLength, schema_Edges; rewrite Hes; cbn [bind].
    rewrite (arcLength_loop schema values es vs Hvs); f_equal; lra.
Qed.

(** C2. Once [computeValues] has returned, [arcLength] returns the sum over
    the edges of (cut length / effective speed) x time unit cost: for a
    segment the Euclidean distance of its endpoints over the nominal speed,
    for an arc the sector length over the nominal speed times
    exp(-1/radius), the radius being the distance from the centre to the
    start (["ClockwiseFrom"]) vertex. *)
Theorem arcLength_total_cut_cost
    (schema : Schema) (es : list (string * Edge)) (values : dict string EdgeValues) :
  Edges schema = Some es ->
  NoDup (keys es) ->
  computeValues schema = Ok values ->
  exists vs,
    Forall2 (fun kv v => edge_entry schema (snd kv) v) es vs
    /\ arcLength schema values = Ok (total (map cut_cost vs))
    /\ Forall (fun v => cut_cost v = cut_length v / effective_speed v * TIME_COST) vs.
Proof.
  intros Hes Hnd Hv.
  destruct (arcLength_after_computeValues schema es values Hes Hnd Hv) as (vs & Hvs & Ha).
  exists vs; repeat split; try assumption.
  apply Forall_forall; intros v _; reflexivity.
Qed.

Lemma arc_profile_Edges (p0 p1 : point) :
  Edges (arc_profile p0 p1)
  = Some [("arc"%string, circular_arc 0 1 0 0 0);
          ("s1"%string, line_segment 1 2);
          ("s2"%string, line_segment 2 0)].
Proof. reflexivity. Qed.

Lemma computeValues_arc_profile_Ok (p0 p1 : point) :
  0 < distance p0 p1 <= 2 * distance p0 (0, 0) ->
  computeValues (arc_profile p0 p1)
  = Ok [("arc"%string, arc_entry 0 1 p0 p1 (0, 0));
        ("s1"%string, LineValues 1 2 (distance p1 (0, 2)));
        ("s2"%string, LineValues 2 0 (distance (0, 2) p0))].
Proof.
  intros Hd; unfold computeValues, schema_Edges.
  rewrite arc_profile_Edges; cbn [bind foldM fst snd].
  rewrite (edgeValues_arc _ _ 0 1 p0 p1 (0, 0)) by (reflexivity || apply arc_profile_ends).
  rewrite arc_geometry_accepts by assumption; cbn [bind].
  rewrite (edgeValues_segment _ _ 1 2 p1 (0, 2)); cbn [bind].
  2: reflexivity.
  2: destruct p0, p1; repeat split.
  rewrite (edgeValues_segment _ _ 2 0 (0, 2) p0); cbn [bind].
  2: reflexivity.
  2: destruct p0, p1; repeat split.
  reflexivity.
Qed.

Lemma arc_5_0_to_2_4_accepted :
  0 < distance (5, 0) (2, 4) <= 2 * distance (5, 0) (0, 0).
Proof. rewrite distance_5_0_to_2_4, distance_5_0_to_origin; lra. Qed.

Lemma arcLength_total_cut_cost_witness :
  exists vs,
    Forall2 (fun kv v => edge_entry (arc_profile (5, 0) (2, 4)) (snd kv) v)
      [("arc"%string, circular_arc 0 1 0 0 0);
       ("s1"%string, line_segment 1 2);
       ("s2"%string, line_segment 2 0)] vs
    /\ arcLength (arc_profile (5, 0) (2, 4))
         [("arc"%string, arc_entry 0 1 (5, 0) (2, 4) (0, 0));
          ("s1"%string, LineValues 1 2 (distance (2, 4) (0, 2)));
          ("s2"%string, LineValues 2 0 (distance (0, 2) (5, 0)))]
       = Ok (total (map cut_cost vs))
    /\ Forall (fun v => cut_cost v = cut_length v / effective_speed v * TIME_COST) vs.
Proof.
  apply (arcLength_total_cut_cost (arc_profile (5, 0) (2, 4)) _ _
           (arc_profile_Edges (5, 0) (2, 4))).
  - apply (proj1 (schema_of_raw_wf (arc_profile_raw (5, 0) (2, 4))) _
             (arc_profile_Edges (5, 0) (2, 4))).
  - apply computeValues_arc_profile_Ok, arc_5_0_to_2_4_accepted.
Defined.

(* ================================================================= *)
(** ** Orientation and the lexicographic order *)

Lemma turn_left (p q r : point) : (turn p q r =? 1)%Z = true <-> 0 < cross p q r.
Proof.
  unfold turn, cmp, cross.
  set (c := (fst q - fst p) * (snd r - snd p) - (fst r - fst p) * (snd q - snd p)).
  destruct (Rlt_dec c 0); [|destruct (Rlt_dec 0 c)]; simpl; split; intros H;
    try discriminate; try reflexivity; try assumption; lra.
Qed.

Lemma turn_not_left (p q r : point) : (turn p q r =? 1)%Z = false <-> cross p q r <= 0.
Proof.
  pose proof (turn_left p q r) as H.
  destruct (turn p q r =? 1)%Z; split; intros H'; try reflexivity; try discriminate.
  - destruct H as [H _]; specialize (H eq_refl); lra.
  - destruct (Rlt_dec 0 (cross p q r)) as [Hl|Hl]; [|lra].
    apply H in Hl; discriminate.
Qed.

Lemma cross_neg (p q r : point) : cross (neg p) (neg q) (neg r) = cross p q r.
Proof. unfold cross, neg; simpl; ring. Qed.

Lemma cross_same_end (p q : point) : cross p q q = 0.
Proof. unfold cross; ring. Qed.

Lemma cross_same_start (p q : point) : cross p q p = 0.
Proof. unfold cross; ring. Qed.

Lemma lex_le_neg (p q : point) : lex_le (neg p) (neg q) <-> lex_le q p.
Proof. unfold lex_le, neg; simpl; split; intros [H|[H1 H2]]; (left; lra) || (right; lra). Qed.

Lemma neg_injective (p q : point) : neg p = neg q -> p = q.
Proof.
  destruct p as [a b], q as [c d]; unfold neg; simpl; intros E.
  inversion E; f_equal; lra.
Qed.

Lemma lex_le_refl (p : point) : lex_le p p.
Proof. right; split; [reflexivity | lra]. Qed.

Lemma lex_le_trans (p q r : point) : lex_le p q -> lex_le q r -> lex_le p r.
Proof. unfold lex_le; intros [H|[H1 H2]] [H'|[H1' H2']]; (left; lra) || (right; lra). Qed.

Lemma lex_le_antisym (p q : point) : lex_le p q -> lex_le q p -> p = q.
Proof.
  destruct p as [a b], q as [c d]; unfold lex_le; simpl.
  intros [H|[H1 H2]] [H'|[H1' H2']]; try lra; f_equal; lra.
Qed.

Lemma lex_le_total (p q : point) : lex_le p q \/ lex_le q p.
Proof.
  unfold lex_le; destruct (Rtotal_order (fst p) (fst q)) as [H|[H|H]];
    try (left; left; lra); try (right; left; lra).
  destruct (Rle_or_lt (snd p) (snd q)); [left | right]; right; lra.
Qed.

Lemma point_leb_lex_le (p q : point) : point_leb p q = true <-> lex_le p q.
Proof.
  unfold point_leb, lex_le.
  destruct (Rlt_dec (fst p) (fst q)); [split; auto|].
  destruct (Rlt_dec (fst q) (fst p)); [split; [discriminate | lra]|].
  destruct (Rle_dec (snd p) (snd q)); split; intros H; try discriminate;
    try reflexivity; [right; lra | lra].
Qed.

Lemma strictly_lex (p q : point) :
  strictly lex_le p q <-> fst p < fst q \/ (fst p = fst q /\ snd p < snd q).
Proof.
  unfold strictly, lex_le; destruct p as [a b], q as [c d]; simpl; split.
  - intros [[H|[H1 H2]] Hne]; [left; assumption|]. right; split; [assumption|].
    destruct H2 as [H2|H2]; [assumption|]. exfalso; apply Hne; congruence.
  - intros [H|[H1 H2]]; split; try (left; assumption); try (right; split; lra);
      intros E; inversion E; lra.
Qed.

(** Four facts about points in lexicographic order; they carry the proof
    that the chain keeps every point it has seen on its left. *)
Lemma lex_shortcut_before (p q x r : point) :
  strictly lex_le p q -> lex_le p x -> lex_le x q -> lex_le q r ->
  0 <= cross p q x -> cross p q r <= 0 -> 0 <= cross p r x.
Proof.
  rewrite strictly_lex; unfold lex_le, cross.
  destruct p as [px py], q as [qx qy], x as [xx xy], r as [rx ry]; simpl.
  intros [H1|[H1 H1']] [H2|[H2 H2']] [H3|[H3 H3']] [H4|[H4 H4']] H5 H6;
    try subst; nra.
Qed.

Lemma lex_shortcut_after (p q x r : point) :
  strictly lex_le p q -> lex_le q x -> lex_le x r ->
  0 <= cross q r x -> cross p q r <= 0 -> 0 <= cross p r x.
Proof.
  rewrite strictly_lex; unfold lex_le, cross.
  destruct p as [px py], q as [qx qy], x as [xx xy], r as [rx ry]; simpl.
  intros [H1|[H1 H1']] [H2|[H2 H2']] [H3|[H3 H3']] H5 H6; try subst; nra.
Qed.

Lemma lex_next_side (o p q x : point) :
  strictly lex_le o p -> strictly lex_le p q -> 0 < cross o p q -> lex_le x p ->
  0 <= cross o p x -> 0 <= cross p q x.
Proof.
  rewrite !strictly_lex; unfold lex_le, cross.
  destruct o as [ox oy], p as [px py], q as [qx qy], x as [xx xy]; simpl.
  intros [H1|[H1 H1']] [H2|[H2 H2']] H3 [H4|[H4 H4']] H5; try subst; nra.
Qed.

Lemma lex_previous_side (o p q x : point) :
  strictly lex_le o p -> strictly lex_le p q -> 0 < cross o p q -> lex_le p x ->
  0 <= cross p q x -> 0 <= cross o p x.
Proof.
  rewrite !strictly_lex; unfold lex_le, cross.
  destruct o as [ox oy], p as [px py], q as [qx qy], x as [xx xy]; simpl.
  intros [H1|[H1 H1']] [H2|[H2 H2']] H3 [H4|[H4 H4']] H5; try subst; nra.
Qed.

Lemma strictly_lex_ge (p q : point) :
  strictly lex_ge p q <-> strictly lex_le (neg p) (neg q).
Proof.
  unfold strictly, lex_ge; rewrite lex_le_neg; split; intros [H Hne]; split; auto.
  - intros E; apply Hne, neg_injective, E.
  - intros ->; apply Hne; reflexivity.
Qed.

(* ================================================================= *)
(** ** The chain invariant *)

Lemma last_indep_default {A : Type} (l : list A) (d d' : A) :
  l <> [] -> last l d = last l d'.
Proof.
  induction l as [|a l IH]; intros H; [contradiction|].
  destruct l as [|b l]; [reflexivity|].
  change (last (b :: l) d = last (b :: l) d'); apply IH; discriminate.
Qed.

Section ChainInvariant.

Variable le : point -> point -> Prop.

Hypothesis le_refl : forall p, le p p.
Hypothesis le_trans : forall p q r, le p q -> le q r -> le p r.
Hypothesis le_antisym : forall p q, le p q -> le q p -> p = q.

Hypothesis shortcut_before : forall p q x r,
  strictly le p q -> le p x -> le x q -> le q r ->
  0 <= cross p q x -> cross p q r <= 0 -> 0 <= cross p r x.
Hypothesis shortcut_after : forall p q x r,
  strictly le p q -> le q x -> le x r ->
  0 <= cross q r x -> cross p q r <= 0 -> 0 <= cross p r x.
Hypothesis next_side : forall o p q x,
  strictly le o p -> strictly le p q -> 0 < cross o p q -> le x p ->
  0 <= cross o p x -> 0 <= cross p q x.
Hypothesis previous_side : forall o p q x,
  strictly le o p -> strictly le p q -> 0 < cross o p q -> le p x ->
  0 <= cross p q x -> 0 <= cross o p x.

Lemma keep_left_pop_step (q p : point) (rest : list point) (r : point) :
  keep_left_pop (q :: p :: rest) r
  = if negb (turn p q r =? 1)%Z then keep_left_pop (p :: rest) r else q :: p :: rest.
Proof. reflexivity. Qed.

Lemma increasing_tail (q : point) (rest : list point) :
  increasing le (q :: rest) -> increasing le rest.
Proof. inversion 1; subst; [constructor | assumption]. Qed.

Lemma left_turns_tail (q : point) (rest : list point) :
  left_turns (q :: rest) -> left_turns rest.
Proof. inversion 1; subst; try constructor; assumption. Qed.

(** Every point of an increasing chain is at most its last point. *)
Lemma increasing_le_top (top : point) (rest : list point) (s : point) :
  increasing le (top :: rest) -> In s (top :: rest) -> le s top.
Proof.
  revert top; induction rest as [|p rest IH]; intros top Hinc [<- | Hin];
    try apply le_refl; [contradiction|].
  inversion Hinc as [| |? ? ? [Hpq _] Hinc']; subst.
  apply le_trans with p; [apply IH|]; assumption.
Qed.

Lemma covered_In_range (stack : list point) (x : point) :
  increasing le stack -> covered le stack x ->
  exists top rest, stack = top :: rest /\ le x top.
Proof.
  intros Hinc Hc; induction Hc as [a | q p rest x _ Hxq _ | q rest x Hc IH].
  - exists a, []; split; [reflexivity | apply le_refl].
  - exists q, (p :: rest); split; [reflexivity | assumption].
    - destruct (IH (increasing_tail _ _ Hinc)) as (top & rest' & -> & Hle).
    exists q, (top :: rest'); split; [reflexivity|].
    inversion Hinc as [| |? ? ? [Hpq _] _]; subst.
    apply le_trans with top; assumption.
Qed.

(** Dropping the point below the new one, when the three do not turn
    left, keeps every covered point covered. *)
Lemma covered_pop (r q p : point) (rest : list point) (x : point) :
  strictly le p q -> le q r -> cross p q r <= 0 ->
  covered le (r :: q :: p :: rest) x -> covered le (r :: p :: rest) x.
Proof.
  intros Hpq Hqr Hturn Hc.
  inversion Hc as [| ? ? ? ? Hqx Hxr Hx | ? ? ? Hc']; subst.
  - apply covered_side; [apply le_trans with q; [apply Hpq | assumption] | assumption |].
    apply shortcut_after with q; assumption.
  - inversion Hc' as [| ? ? ? ? Hpx Hxq Hx | ? ? ? Hc'']; subst.
    + apply covered_side; [assumption | apply le_trans with q; assumption |].
      apply shortcut_before with q; assumption.
    + apply covered_below; assumption.
Qed.

(** The [while] loop of [keep_left]. *)
Lemma keep_left_pop_covered (stack : list point) (r : point) :
  increasing le stack ->
  (forall s, In s stack -> le s r) ->
  (forall x, covered le (r :: stack) x -> covered le (r :: keep_left_pop stack r) x).
Proof.
  induction stack as [|q stack IH]; intros Hinc Hle x Hc; [exact Hc|].
  destruct stack as [|p rest]; [exact Hc|].
  rewrite keep_left_pop_step.
  destruct (turn p q r =? 1)%Z eqn:Ht; cbn [negb]; [exact Hc|].
  apply turn_not_left in Ht.
  inversion Hinc as [| |? ? ? Hpq Hinc']; subst.
  apply IH; [assumption | intros s Hs; apply Hle; right; assumption |].
  apply covered_pop with q; try assumption.
  apply Hle; left; reflexivity.
Qed.

Lemma keep_left_pop_suffix (stack : list point) (r : point) :
  exists dropped, stack = dropped ++ keep_left_pop stack r.
Proof.
  induction stack as [|q stack IH]; [exists []; reflexivity|].
  destruct stack as [|p rest]; [exists []; reflexivity|].
  rewrite keep_left_pop_step; destruct (turn p q r =? 1)%Z; cbn [negb].
  - exists []; reflexivity.
  - destruct IH as [dropped E]; exists (q :: dropped).
    rewrite <- app_comm_cons; f_equal; exact E.
Qed.

Lemma keep_left_pop_increasing (stack : list point) (r : point) :
  increasing le stack -> increasing le (keep_left_pop stack r).
Proof.
  induction stack as [|q stack IH]; intros Hinc; [exact Hinc|].
  destruct stack as [|p rest]; [exact Hinc|].
  rewrite keep_left_pop_step; destruct (turn p q r =? 1)%Z; cbn [negb]; [exact Hinc|].
  apply IH, (increasing_tail q), Hinc.
Qed.

Lemma keep_left_pop_left_turns (stack : list point) (r : point) :
  left_turns stack -> left_turns (keep_left_pop stack r).
Proof.
  induction stack as [|q stack IH]; intros Hl; [exact Hl|].
  destruct stack as [|p rest]; [exact Hl|].
  rewrite keep_left_pop_step; destruct (turn p q r =? 1)%Z; cbn [negb]; [exact Hl|].
  apply IH, (left_turns_tail q), Hl.
Qed.

(** When the loop stops on a chain of two points or more, the new point
    turns left. *)
Lemma keep_left_pop_exit (stack : list point) (r q p : point) (rest : list point) :
  keep_left_pop stack r = q :: p :: rest -> 0 < cross p q r.
Proof.
  induction stack as [|q' stack IH]; intros E; [discriminate|].
  destruct stack as [|p' rest']; [discriminate|].
  rewrite keep_left_pop_step in E; destruct (turn p' q' r =? 1)%Z eqn:Ht; cbn [negb] in E.
  - injection E as -> -> ->; apply turn_left; assumption.
  - apply IH; assumption.
Qed.

Lemma keep_left_pop_bottom (stack : list point) (r : point) :
  last (keep_left_pop stack r) r = last stack r.
Proof.
  induction stack as [|q stack IH]; [reflexivity|].
  destruct stack as [|p rest]; [reflexivity|].
  rewrite keep_left_pop_step; destruct (turn p q r =? 1)%Z; cbn [negb]; [reflexivity|].
  rewrite IH; reflexivity.
Qed.

Lemma keep_left_pop_nonempty (stack : list point) (r : point) :
  stack <> [] -> keep_left_pop stack r <> [].
Proof.
  induction stack as [|q stack IH]; intros H; [contradiction|].
  destruct stack as [|p rest]; [exact H|].
  rewrite keep_left_pop_step; destruct (turn p q r =? 1)%Z; cbn [negb]; [exact H|].
  apply IH; discriminate.
Qed.

(** What the chain satisfies once the points [seen] have been fed to it. *)
Definition chain_invariant (seen stack : list point) : Prop :=
  increasing le stack
  /\ left_turns stack
  /\ (forall s, In s stack -> In s seen)
  /\ (forall x, In x seen -> covered le stack x)
  /\ (forall r, seen <> [] -> hd r stack = last seen r /\ last stack r = hd r seen).

Lemma chain_invariant_step (seen stack : list point) (r : point) :
  chain_invariant seen stack ->
  (forall x, In x seen -> le x r) ->
  chain_invariant (seen ++ [r]) (keep_left_stack stack r).
Proof.
  intros (Hinc & Hturns & Hsub & Hcov & Hends) Hle.
  assert (Hstack_le : forall s, In s stack -> le s r) by (intros s Hs; apply Hle, Hsub, Hs).
  pose proof (keep_left_pop_increasing stack r Hinc) as Hinc'.
  pose proof (keep_left_pop_left_turns stack r Hturns) as Hturns'.
  destruct (keep_left_pop_suffix stack r) as [dropped Hsuffix].
  assert (Hsub' : forall s, In s (keep_left_pop stack r) -> In s stack).
  { intros s Hs; rewrite Hsuffix; apply in_or_app; right; assumption. }
  assert (Hcov' : forall x, In x (seen ++ [r]) -> covered le (r :: keep_left_pop stack r) x).
  { intros x Hx; apply keep_left_pop_covered; try assumption.
    apply in_app_or in Hx as [Hx | [<- | []]].
    - apply covered_below, Hcov, Hx.
    - destruct stack as [|top rest]; [apply covered_single|].
      apply covered_side; [apply Hstack_le; left; reflexivity | apply le_refl |].
      rewrite cross_same_end; lra. }
  assert (Hbottom : forall d, stack <> [] -> last (keep_left_pop stack r) d = last stack d).
  { intros d Hne; pose proof (keep_left_pop_bottom stack r) as Hb.
    pose proof (keep_left_pop_nonempty stack r Hne) as Hne'.
    destruct stack as [|a stack0]; [contradiction|].
    destruct (keep_left_pop (a :: stack0) r) as [|b popped]; [contradiction|].
    rewrite (last_indep_default (a :: stack0) r d), (last_indep_default (b :: popped) r d)
      in Hb by discriminate.
    exact Hb. }
  assert (Hfirst : forall d, last (r :: keep_left_pop stack r) d = hd d (seen ++ [r])).
  { intros d; destruct seen as [|a seen0].
    - destruct stack as [|s stack0]; [reflexivity|].
      exfalso; apply (Hsub s); left; reflexivity.
    - destruct (Hends d) as [_ Hlast]; [discriminate|].
      assert (Hne : stack <> []).
      { destruct (Hcov a) as [| |]; [left; reflexivity | discriminate ..]. }
      specialize (Hbottom d Hne).
      pose proof (keep_left_pop_nonempty stack r Hne) as Hne'.
      destruct (keep_left_pop stack r) as [|b popped]; [contradiction|].
      cbn [last hd app] in *; rewrite Hbottom, Hlast; reflexivity. }
  unfold keep_left_stack.
  destruct (keep_left_pop stack r) as [|top rest] eqn:Hpop.
  - (* the chain was empty *)
    repeat split.
    + constructor.
    + constructor.
    + intros s [<- | []]; apply in_or_app; right; left; reflexivity.
    + intros x Hx; apply Hcov'; assumption.
    + rewrite last_last; reflexivity.
    + apply Hfirst.
  - destruct (eqb top r) eqn:Heq; cbn [negb].
    + (* the new point is already the last of the chain *)
      apply eqb_true in Heq; subst top.
      repeat split; try assumption.
      * intros s Hs; apply in_or_app; left; apply Hsub, Hsub', Hs.
      * intros x Hx; specialize (Hcov' x Hx).
        inversion Hcov' as [| ? ? ? ? Hrx Hxr _ | ? ? ? Hc]; subst; [|assumption].
        assert (x = r) by (apply le_antisym; assumption); subst x.
        destruct rest as [|p rest']; [apply covered_single|].
        inversion Hinc' as [| |? ? ? [Hpr _] _]; subst.
        apply covered_side; [assumption | apply le_refl |].
        rewrite cross_same_end; lra.
      * rewrite last_last; reflexivity.
      * specialize (Hfirst r0); cbn [last] in Hfirst.
        destruct rest; exact Hfirst.
    + (* the new point is pushed *)
      apply eqb_false in Heq.
      assert (Htop : le top r) by (apply Hstack_le, Hsub'; left; reflexivity).
      repeat split.
      * constructor; [split; [assumption | congruence] | assumption].
      * destruct rest as [|p rest']; constructor; [|assumption].
        apply (keep_left_pop_exit stack r top p rest'); assumption.
      * intros s [<- | Hs]; apply in_or_app; [right; left; reflexivity|].
        left; apply Hsub, Hsub', Hs.
      * intros x Hx; apply Hcov'; assumption.
      * rewrite last_last; reflexivity.
      * apply Hfirst.
Qed.

Lemma StronglySorted_before (seen : list point) (r : point) (todo : list point) :
  StronglySorted le (seen ++ r :: todo) -> forall x, In x seen -> le x r.
Proof.
  induction seen as [|a seen IH]; intros Hs x Hx; [contradiction|].
  cbn [app] in Hs; apply StronglySorted_inv in Hs as [Hs Ha].
  destruct Hx as [<- | Hx]; [|apply IH; assumption].
  rewrite Forall_forall in Ha; apply Ha, in_elt.
Qed.

Lemma chain_invariant_fold (todo seen stack : list point) :
  chain_invariant seen stack ->
  StronglySorted le (seen ++ todo) ->
  chain_invariant (seen ++ todo) (fold_left keep_left_stack todo stack).
Proof.
  revert seen stack; induction todo as [|r todo IH]; intros seen stack Hinv Hs.
  - rewrite app_nil_r; exact Hinv.
  - cbn [fold_left].
    replace (seen ++ r :: todo) with ((seen ++ [r]) ++ todo) in *
      by (rewrite <- app_assoc; reflexivity).
    apply IH; [|assumption].
    apply chain_invariant_step; [assumption|].
    rewrite <- app_assoc in Hs; apply (StronglySorted_before seen r todo Hs).
Qed.

Lemma chain_invariant_sorted (points : list point) :
  StronglySorted le points -> chain_invariant points (chain points).
Proof.
  intros Hs; apply (chain_invariant_fold points [] []); [|exact Hs].
  repeat split; try constructor; contradiction.
Qed.

(** From the side that covers a point down to the first side of the chain. *)
Lemma left_of_sides_below (rest : list point) (q p x : point) :
  increasing le (q :: p :: rest) -> left_turns (q :: p :: rest) ->
  le p x -> 0 <= cross p q x -> left_of_sides (p :: rest) x.
Proof.
  revert q p; induction rest as [|o rest IH]; intros q p Hinc Hturns Hpx Hx;
    [constructor|].
  inversion Hinc as [| |? ? ? Hpq Hinc']; subst.
  inversion Hinc' as [| |? ? ? Hop _]; subst.
  inversion Hturns as [| | |? ? ? ? Hturn Hturns']; subst.
  assert (Ho : 0 <= cross o p x) by (apply previous_side with q; assumption).
  constructor; [assumption|].
  apply IH with p; try assumption.
  apply le_trans with p; [apply Hop | assumption].
Qed.

(** A covered point is on the left of every side: the chain is convex. *)
Lemma covered_left_of_sides (stack : list point) (x : point) :
  increasing le stack -> left_turns stack -> covered le stack x ->
  left_of_sides stack x.
Proof.
  intros Hinc Hturns Hc; induction Hc as [a | q p rest x Hpx Hxq Hx | q rest x Hc IH].
  - constructor.
  - constructor; [assumption|].
    apply left_of_sides_below with q; assumption.
  - specialize (IH (increasing_tail _ _ Hinc) (left_turns_tail _ _ Hturns)).
    destruct rest as [|p rest]; [inversion Hc|].
    constructor; [|assumption].
    destruct (covered_In_range (p :: rest) x (increasing_tail _ _ Hinc) Hc)
      as (top & rest' & E & Hxp); injection E as <- <-.
    destruct rest as [|o rest].
    + inversion Hc as [| |? ? ? Hc']; subst; [|inversion Hc'].
      rewrite cross_same_start; lra.
    + inversion Hinc as [| |? ? ? Hpq Hinc']; subst.
      inversion Hinc' as [| |? ? ? Hop _]; subst.
      inversion Hturns as [| | |? ? ? ? Hturn _]; subst.
      inversion IH as [| |? ? ? ? Ho _]; subst.
      apply next_side with o; assumption.
Qed.

(** The chain of points given in order. *)
Lemma chain_sorted_spec (points : list point) :
  StronglySorted le points -> chain_spec le points.
Proof.
  intros Hs.
  destruct (chain_invariant_sorted points Hs) as (Hinc & Hturns & Hsub & Hcov & Hends).
  repeat split; try assumption; try (apply Hends; assumption).
  - intros x Hx; apply covered_left_of_sides; auto.
  - intros Hne E; destruct points as [|a points]; [congruence|].
    specialize (Hcov a (or_introl eq_refl)); rewrite E in Hcov; inversion Hcov.
Qed.

End ChainInvariant.

(* ================================================================= *)
(** ** The two chains of [grahams_hull] *)

Lemma lower_chain_spec (points : list point) :
  StronglySorted lex_le points -> chain_spec lex_le points.
Proof.
  apply chain_sorted_spec.
  - apply lex_le_refl.
  - apply lex_le_trans.
  - apply lex_le_antisym.
  - apply lex_shortcut_before.
  - apply lex_shortcut_after.
  - apply lex_next_side.
  - apply lex_previous_side.
Qed.

Lemma upper_chain_spec (points : list point) :
  StronglySorted lex_ge points -> chain_spec lex_ge points.
Proof.
  apply chain_sorted_spec; unfold lex_ge.
  - apply lex_le_refl.
  - intros p q r H1 H2; apply lex_le_trans with q; assumption.
  - intros p q H1 H2; apply lex_le_antisym; assumption.
  - intros p q x r Hpq H1 H2 H3 H4 H5.
    rewrite <- cross_neg in *; apply strictly_lex_ge in Hpq.
    apply lex_shortcut_before with (neg q); try assumption; apply lex_le_neg; assumption.
  - intros p q x r Hpq H1 H2 H3 H4.
    rewrite <- cross_neg in *; apply strictly_lex_ge in Hpq.
    apply lex_shortcut_after with (neg q); try assumption; apply lex_le_neg; assumption.
  - intros o p q x Hop Hpq H1 H2 H3.
    rewrite <- cross_neg in *; apply strictly_lex_ge in Hop, Hpq.
    apply lex_next_side with (neg o); try assumption; apply lex_le_neg; assumption.
  - intros o p q x Hop Hpq H1 H2 H3.
    rewrite <- cross_neg in *; apply strictly_lex_ge in Hop, Hpq.
    apply lex_previous_side with (neg q); try assumption; apply lex_le_neg; assumption.
Qed.

(** [sorted] *)

Lemma insert_sorted_Permutation (x : point) (l : list point) :
  Permutation (x :: l) (insert_sorted x l).
Proof.
  induction l as [|y l IH]; cbn [insert_sorted]; [reflexivity|].
  destruct (point_leb x y); [reflexivity|].
  rewrite perm_swap; constructor; exact IH.
Qed.

Lemma sorted_Permutation (points : list point) : Permutation points (sorted points).
Proof.
  induction points as [|x points IH]; [constructor|].
  unfold sorted in *; cbn [fold_right].
  rewrite <- insert_sorted_Permutation; constructor; exact IH.
Qed.

Lemma insert_sorted_StronglySorted (x : point) (l : list point) :
  StronglySorted lex_le l -> StronglySorted lex_le (insert_sorted x l).
Proof.
  induction l as [|y l IH]; intros Hs; cbn [insert_sorted].
  - repeat constructor.
  - apply StronglySorted_inv in Hs as [Hs Hy].
    destruct (point_leb x y) eqn:E.
    + apply point_leb_lex_le in E.
      constructor; [constructor; assumption|].
      constructor; [assumption|].
      eapply Forall_impl; [|exact Hy].
      intros z Hz; apply lex_le_trans with y; assumption.
    + assert (Hyx : lex_le y x).
      { destruct (lex_le_total x y) as [H|H]; [|assumption].
        apply point_leb_lex_le in H; congruence. }
      constructor; [apply IH; assumption|].
      apply (Permutation_Forall (insert_sorted_Permutation x l)).
      constructor; assumption.
Qed.

Lemma sorted_StronglySorted (points : list point) : StronglySorted lex_le (sorted points).
Proof.
  induction points as [|x points IH]; [constructor|].
  apply insert_sorted_StronglySorted; exact IH.
Qed.

Lemma StronglySorted_rev_ge (l : list point) :
  StronglySorted lex_le l -> StronglySorted lex_ge (rev l).
Proof.
  induction 1 as [|a l Hs IH Ha]; [constructor|].
  cbn [rev].
  assert (G : forall m, StronglySorted lex_ge m -> Forall (fun z => lex_ge z a) m ->
                        StronglySorted lex_ge (m ++ [a])).
  { induction m as [|b m IHm]; intros Hm Hall; [repeat constructor|].
    apply StronglySorted_inv in Hm as [Hm Hb]; inversion Hall; subst.
    cbn [app]; constructor; [apply IHm; assumption|].
    apply Forall_app; split; [assumption|].
    constructor; [assumption | constructor]. }
  apply G; [exact IH|].
  apply Forall_rev; exact Ha.
Qed.

(** [keep_left] on Python's list is [keep_left_stack] on the reversed list. *)
Lemma keep_left_stack_rev (hull : list point) (r : point) :
  keep_left hull r = rev (keep_left_stack (rev hull) r).
Proof.
  unfold keep_left, keep_left_stack.
  destruct (keep_left_pop (rev hull) r) as [|top rest]; [reflexivity|].
  destruct (negb (eqb top r)); reflexivity.
Qed.

Lemma fold_keep_left_chain (points hull : list point) :
  fold_left keep_left points hull
  = rev (fold_left keep_left_stack points (rev hull)).
Proof.
  revert hull; induction points as [|r points IH]; intros hull; cbn [fold_left].
  - rewrite rev_involutive; reflexivity.
  - rewrite IH, keep_left_stack_rev, rev_involutive; reflexivity.
Qed.

Lemma grahams_hull_chains (points : list point) :
  grahams_hull points
  = rev (chain (sorted points))
    ++ firstn (length (chain (rev (sorted points))) - 2)
         (skipn 1 (rev (chain (rev (sorted points))))).
Proof.
  unfold grahams_hull; rewrite !fold_keep_left_chain; cbn [rev].
  rewrite length_rev; reflexivity.
Qed.

(* ================================================================= *)
(** ** Every point is inside or on the hull *)

Lemma izip_next_cons2 {A : Type} (a b : A) (l : list A) :
  izip_next (a :: b :: l) = (a, b) :: izip_next (b :: l).
Proof. reflexivity. Qed.

Lemma izip_next_app {A : Type} (xs ys : list A) (d : A) (e : A * A) :
  xs <> [] ->
  In e (izip_next (xs ++ ys)) ->
  In e (izip_next xs) \/ In e (izip_next (last xs d :: ys)).
Proof.
  induction xs as [|x xs IH]; intros Hne He; [contradiction|].
  destruct xs as [|x' xs]; [right; exact He|].
  rewrite <- !app_comm_cons, izip_next_cons2 in He.
  rewrite izip_next_cons2.
  destruct He as [<- | He]; [left; left; reflexivity|].
  destruct (IH ltac:(discriminate) He) as [H|H]; [left; right; exact H | right; exact H].
Qed.

Lemma In_last {A : Type} (l : list A) (d : A) : l <> [] -> In (last l d) l.
Proof.
  induction l as [|a l IH]; intros H; [contradiction|].
  destruct l as [|b l]; [left; reflexivity|].
  right; apply IH; discriminate.
Qed.

Lemma last_rev_cons {A : Type} (a : A) (l : list A) (d : A) : last (rev (a :: l)) d = a.
Proof. cbn [rev]; apply last_last. Qed.

Lemma left_of_sides_rev (stack : list point) (x : point) (a b : point) :
  left_of_sides stack x -> In (a, b) (izip_next (rev stack)) -> 0 <= cross a b x.
Proof.
  induction 1 as [x | c x | q p rest x Hx _ IH]; intros Hin; try contradiction.
  change (rev (q :: p :: rest)) with (rev (p :: rest) ++ [q]) in Hin.
  apply (izip_next_app _ _ p) in Hin as [Hin | Hin].
  - apply IH, Hin.
  - rewrite last_rev_cons in Hin; destruct Hin as [E | []]; injection E as <- <-; exact Hx.
  - cbn [rev]; intros E; apply app_eq_nil in E as [_ E]; discriminate.
Qed.

Lemma StronglySorted_le_last (l : list point) (d x : point) :
  StronglySorted lex_le l -> In x l -> lex_le x (last l d).
Proof.
  intros Hs; revert x; induction Hs as [|a l Hs IH Ha]; intros x Hx; [contradiction|].
  destruct l as [|b l]; [destruct Hx as [<- | []]; apply lex_le_refl|].
  change (last (a :: b :: l) d) with (last (b :: l) d).
  destruct Hx as [<- | Hx]; [|apply IH, Hx].
  apply lex_le_trans with b; [inversion Ha; assumption | apply IH; left; reflexivity].
Qed.

Lemma StronglySorted_hd_le (l : list point) (d x : point) :
  StronglySorted lex_le l -> In x l -> lex_le (hd d l) x.
Proof.
  intros Hs Hx; destruct Hs as [|a l Hs Ha]; [contradiction|].
  destruct Hx as [<- | Hx]; [apply lex_le_refl|].
  rewrite Forall_forall in Ha; apply Ha, Hx.
Qed.

Lemma hd_rev {A : Type} (l : list A) (d : A) : hd d (rev l) = last l d.
Proof.
  induction l as [|a l IH]; [reflexivity|].
  cbn [rev]; destruct l as [|b l]; [reflexivity|].
  change (last (a :: b :: l) d) with (last (b :: l) d); rewrite <- IH.
  destruct (rev (b :: l)) eqn:E; [|reflexivity].
  apply (f_equal (@length A)) in E; rewrite length_rev in E; discriminate.
Qed.

Lemma last_rev {A : Type} (l : list A) (d : A) : last (rev l) d = hd d l.
Proof. destruct l as [|a l]; [reflexivity | apply last_rev_cons]. Qed.

Lemma firstn_middle {A : Type} (u1 : A) (mid : list A) (um : A) :
  firstn (length (u1 :: mid ++ [um]) - 2) (skipn 1 (u1 :: mid ++ [um])) = mid.
Proof.
  cbn [skipn length]; rewrite length_app; cbn [length].
  replace (S (length mid + 1) - 2)%nat with (length mid + 0)%nat by lia.
  rewrite firstn_app_2; cbn [firstn]; apply app_nil_r.
Qed.

(** The convex hull property of [grahams_hull]: every point given to it is
    inside or on the polygon it returns. *)
Lemma grahams_hull_contains (points : list point) (x : point) :
  In x points -> inside_or_on (grahams_hull points) x.
Proof.
  intros Hx; rewrite grahams_hull_chains.
  set (s := sorted points).
  assert (Hs : StronglySorted lex_le s) by apply sorted_StronglySorted.
  assert (Hxs : In x s) by (apply (Permutation_in x (sorted_Permutation points)), Hx).
  assert (Hne : s <> []) by (intros E; rewrite E in Hxs; contradiction).
  assert (Hne' : rev s <> []).
  { intros E; apply (f_equal (@length point)) in E; rewrite length_rev in E.
    destruct s; [congruence | discriminate]. }
  destruct (lower_chain_spec s Hs) as (_ & _ & HsubL & HleftL & HendsL & HneL).
  destruct (upper_chain_spec (rev s) (StronglySorted_rev_ge s Hs))
    as (_ & _ & HsubU & HleftU & HendsU & HneU).
  destruct (HendsL x Hne) as [HtopL HbotL].
  destruct (HendsU x Hne') as [HtopU HbotU].
  rewrite last_rev in HtopU; rewrite hd_rev in HbotU.
  specialize (HleftL x Hxs); specialize (HleftU x (proj1 (in_rev s x) Hxs)).
  specialize (HneL Hne); specialize (HneU Hne').
  rewrite <- (length_rev (chain (rev s))).
  assert (Hl1 : hd x (rev (chain s)) = hd x s) by (rewrite hd_rev; exact HbotL).
  assert (Hlk : last (rev (chain s)) x = last s x) by (rewrite last_rev; exact HtopL).
  assert (Hu1 : hd x (rev (chain (rev s))) = last s x) by (rewrite hd_rev; exact HbotU).
  assert (Hum : last (rev (chain (rev s))) x = hd x s) by (rewrite last_rev; exact HtopU).
  assert (HsideL : forall a b, In (a, b) (izip_next (rev (chain s))) -> 0 <= cross a b x).
  { intros a b; apply left_of_sides_rev; exact HleftL. }
  assert (HsideU : forall a b,
             In (a, b) (izip_next (rev (chain (rev s)))) -> 0 <= cross a b x).
  { intros a b; apply left_of_sides_rev; exact HleftU. }
  assert (Hlne : rev (chain s) <> []).
  { intros E; apply HneL; rewrite <- (rev_involutive (chain s)), E; reflexivity. }
  assert (Hune : rev (chain (rev s)) <> []).
  { intros E; apply HneU; rewrite <- (rev_involutive (chain (rev s))), E; reflexivity. }
  destruct (rev (chain s)) as [|l1 l']; [congruence|].
  destruct (rev (chain (rev s))) as [|u1 u']; [congruence|].
  cbn [hd] in Hl1, Hu1; subst l1 u1.
  split.
  - (* the sides *)
    apply Forall_forall; intros [a b] Hside; cbn [fst snd].
    unfold sides in Hside; rewrite <- app_comm_cons in Hside.
    rewrite app_comm_cons, <- app_assoc in Hside.
    apply (izip_next_app _ _ x) in Hside as [Hside | Hside];
      [|rewrite Hlk in Hside|discriminate].
    + apply HsideL, Hside.
    + destruct u' as [|u2 u''].
      * (* the upper chain is one point: first and last point coincide *)
        cbn [last] in Hum; cbn [skipn firstn length app] in Hside.
        destruct Hside as [E | []]; injection E as <- <-.
        rewrite Hum; unfold cross; nra.
      * destruct (exists_last (l := u2 :: u'') ltac:(discriminate)) as (mid & um & Emid).
        rewrite Emid in *.
        assert (Eum : um = hd x s).
        { rewrite <- Hum; rewrite app_comm_cons, last_last; reflexivity. }
        rewrite firstn_middle in Hside; subst um.
        apply HsideU; exact Hside.
  - (* the range *)
    exists (hd x s), (last s x); repeat split.
    + left; reflexivity.
    + apply in_or_app; left; rewrite <- Hlk; apply In_last; discriminate.
    + apply StronglySorted_hd_le; assumption.
    + apply StronglySorted_le_last; assumption.
Qed.

Lemma In_firstn {A : Type} (n : nat) (l : list A) (x : A) : In x (firstn n l) -> In x l.
Proof. intros H; rewrite <- (firstn_skipn n l); apply in_or_app; left; exact H. Qed.

Lemma grahams_hull_incl (points : list point) (h : point) :
  In h (grahams_hull points) -> In h points.
Proof.
  rewrite grahams_hull_chains; intros Hin.
  pose proof (sorted_StronglySorted points) as Hs.
  destruct (lower_chain_spec _ Hs) as (_ & _ & HsubL & _).
  destruct (upper_chain_spec _ (StronglySorted_rev_ge _ Hs)) as (_ & _ & HsubU & _).
  apply (Permutation_in h (Permutation_sym (sorted_Permutation points))).
  apply in_app_or in Hin as [Hin | Hin].
  - apply HsubL, in_rev, Hin.
  - apply in_rev, HsubU, in_rev.
    apply In_firstn in Hin.
    destruct (rev (chain (rev (sorted points)))) as [|a u]; [contradiction|].
    right; exact Hin.
Qed.

(* ================================================================= *)
(** ** Evaluating the hull on given points *)

Lemma point_leb_false (p q : point) : strictly lex_le q p -> point_leb p q = false.
Proof.
  intros [Hqp Hne]; destruct (point_leb p q) eqn:E; [|reflexivity].
  apply point_leb_lex_le in E; exfalso; apply Hne, lex_le_antisym; assumption.
Qed.

Ltac lex_solve :=
  unfold lex_le; cbn [fst snd]; first [left; lra | right; split; lra].

Ltac strictly_lex_solve :=
  apply strictly_lex; cbn [fst snd]; first [left; lra | right; split; lra].

Ltac points_differ := let E := fresh in intros E; inversion E; lra.

(** Settles one comparison of the scan on numerals. *)
Ltac decide_comparison :=
  match goal with
  | |- context [point_leb ?p ?q] =>
      first [ rewrite (proj2 (point_leb_lex_le p q)) by lex_solve
            | rewrite (point_leb_false p q) by strictly_lex_solve ]
  | |- context [(turn ?p ?q ?r =? 1)%Z] =>
      first [ rewrite (proj2 (turn_left p q r)) by (unfold cross; cbn [fst snd]; lra)
            | rewrite (proj2 (turn_not_left p q r)) by (unfold cross; cbn [fst snd]; lra) ]
  | |- context [@eqb point _ ?p ?q] =>
      first [ rewrite (proj2 (eqb_true p q)) by reflexivity
            | rewrite (proj2 (eqb_false p q)) by points_differ ]
  | |- context [@eqb R _ ?a ?b] =>
      first [ rewrite (proj2 (eqb_true a b)) by lra
            | rewrite (proj2 (eqb_false a b)) by lra ]
  end.

Ltac hull_eval :=
  repeat first
    [ progress cbn [sorted fold_left fold_right insert_sorted keep_left keep_left_pop
                    rev app negb andb length skipn firstn Nat.sub]
    | decide_comparison
    | progress unfold keep_left ].

Lemma grahams_hull_3_4_5 :
  grahams_hull [(0, 0); (4, 0); (0, 3)] = [(0, 0); (4, 0); (0, 3)].
Proof. unfold grahams_hull; hull_eval; reflexivity. Qed.

(* ================================================================= *)
(** ** Loops that collect results *)

Lemma mapM_Ok {A B : Type} (f : A -> result B) (l : list A) (l' : list B) :
  mapM f l = Ok l' <-> Forall2 (fun a b => f a = Ok b) l l'.
Proof.
  revert l'; induction l as [|a l IH]; intros l'; cbn [mapM].
  - split; [intros E; injection E as <-; constructor | inversion 1; reflexivity].
  - split.
    + intros E; apply bind_Ok in E as (b & Hb & E); apply bind_Ok in E as (bs & Hbs & E).
      injection E as <-; constructor; [assumption | apply IH; assumption].
    + inversion 1 as [|? b ? bs Hb Hbs]; subst.
      rewrite Hb; cbn [bind]; apply IH in Hbs; rewrite Hbs; reflexivity.
Qed.

Lemma mapM_total {A B : Type} (f : A -> result B) (l : list A) :
  (forall a, In a l -> exists b, f a = Ok b) -> exists l', mapM f l = Ok l'.
Proof.
  induction l as [|a l IH]; intros H; [exists []; reflexivity|].
  destruct (H a (or_introl eq_refl)) as [b Hb].
  destruct IH as [bs Hbs]; [intros a' Ha'; apply H; right; exact Ha'|].
  exists (b :: bs); cbn [mapM]; rewrite Hb; cbn [bind]; rewrite Hbs; reflexivity.
Qed.

Lemma mapM_length {A B : Type} (f : A -> result B) (l : list A) (l' : list B) :
  mapM f l = Ok l' -> length l' = length l.
Proof. intros H; apply mapM_Ok in H; symmetry; eapply Forall2_length; exact H. Qed.

Lemma Forall2_In_l {A B : Type} (R : A -> B -> Prop) (l : list A) (l' : list B) (a : A) :
  Forall2 R l l' -> In a l -> exists b, In b l' /\ R a b.
Proof.
  induction 1 as [|x y l l' Hxy _ IH]; intros Hin; [contradiction|].
  destruct Hin as [<- | Hin]; [exists y; split; [left; reflexivity | assumption]|].
  destruct (IH Hin) as (b & Hb & HR); exists b; split; [right|]; assumption.
Qed.

Lemma Forall2_In_r {A B : Type} (R : A -> B -> Prop) (l : list A) (l' : list B) (b : B) :
  Forall2 R l l' -> In b l' -> exists a, In a l /\ R a b.
Proof.
  induction 1 as [|x y l l' Hxy _ IH]; intros Hin; [contradiction|].
  destruct Hin as [<- | Hin]; [exists x; split; [left; reflexivity | assumption]|].
  destruct (IH Hin) as (a & Ha & HR); exists a; split; [right|]; assumption.
Qed.

(* ================================================================= *)
(** ** Looking vertices up by position *)

Lemma dict_find_NoDup {K V : Type} `{KeyEq K} (d : dict K V) (k : K) (v : V) :
  NoDup (keys d) -> In (k, v) d -> dict_find d k = Some v.
Proof.
  induction d as [|[k' v'] d IH]; intros Hnd Hin; [contradiction|].
  cbn [keys map fst] in Hnd; inversion Hnd as [|? ? Hk Hnd']; subst.
  cbn [dict_find]; destruct Hin as [E | Hin].
  - injection E as -> ->; rewrite eqb_refl; reflexivity.
  - destruct (eqb k k') eqn:E; [|apply IH; assumption].
    apply eqb_true in E; subst k'; exfalso; apply Hk.
    change (In (fst (k, v)) (map fst d)); apply in_map; exact Hin.
Qed.

Lemma dict_find_Some_In {K V : Type} `{KeyEq K} (d : dict K V) (k : K) (v : V) :
  dict_find d k = Some v -> In (k, v) d.
Proof.
  induction d as [|[k' v'] d IH]; cbn [dict_find]; [discriminate|].
  destruct (eqb k k') eqn:E.
  - apply eqb_true in E; subst k'; intros E; injection E as ->; left; reflexivity.
  - intros Hf; right; apply IH, Hf.
Qed.

Lemma vertex_coords_Ok (schema : Schema) (id : Z) (p : point) :
  vertex_coords schema id = Ok p ->
  exists vs v, Vertices schema = Some vs /\ In (id, v) vs
               /\ p = (X (Position v), Y (Position v)).
Proof.
  unfold vertex_coords, schema_Vertices; destruct (Vertices schema) as [vs|];
    cbn [bind]; [|discriminate].
  intros E; apply bind_Ok in E as (v & Hv & E); injection E as <-.
  exists vs, v; repeat split.
  apply dict_find_Some_In, getitem_Ok; exact Hv.
Qed.

(** [pointLookup] finds a vertex at the position of any vertex, and the
    vertex it returns is at that position. *)
Lemma pointLookup_position (schema : Schema) (id : Z) (h : point) :
  Schema_wf schema ->
  vertex_coords schema id = Ok h ->
  exists k, pointLookup h schema = Ok k /\ vertex_coords schema k = Ok h.
Proof.
  intros [_ Hwf] Hid.
  destruct (vertex_coords_Ok schema id h Hid) as (vs & v & Hvs & Hin & ->).
  specialize (Hwf vs Hvs).
  unfold pointLookup, vertex_coords, schema_Vertices; rewrite Hvs; cbn [bind fst snd].
  set (found := filter _ vs).
  assert (Hfound : In (id, v) found).
  { apply filter_In; split; [assumption|]; cbn [snd]; rewrite !eqb_refl; reflexivity. }
  destruct found as [|[k v'] found'] eqn:E; [contradiction|].
  exists k; split; [reflexivity|].
  assert (Hk : In (k, v') (filter (fun kv => eqb (X (Position (snd kv))) (X (Position v))
                                            && eqb (Y (Position (snd kv))) (Y (Position v)))
                             vs)).
  { fold found; rewrite E; left; reflexivity. }
  apply filter_In in Hk as [Hk Hpos]; cbn [snd] in Hpos.
  apply andb_true_iff in Hpos as [Hx Hy]; apply eqb_true in Hx, Hy.
  unfold getitem; rewrite (dict_find_NoDup vs k v') by assumption; cbn [bind].
  rewrite Hx, Hy; reflexivity.
Qed.

(** The initial hull of one cycle: the body of the loop of
    [computeInnerHull]. *)
Lemma initial_hull_exists (schema : Schema) (cycle : list Z) (coords : list point) :
  Schema_wf schema ->
  mapM (vertex_coords schema) cycle = Ok coords ->
  exists hull,
    mapM (fun h => pointLookup h schema) (grahams_hull coords) = Ok hull
    /\ mapM (vertex_coords schema) hull = Ok (grahams_hull coords).
Proof.
  intros Hwf Hc; apply mapM_Ok in Hc.
  assert (Hevery : forall h, In h (grahams_hull coords) ->
            exists k, pointLookup h schema = Ok k /\ vertex_coords schema k = Ok h).
  { intros h Hh; apply grahams_hull_incl in Hh.
    destruct (Forall2_In_r _ _ _ h Hc Hh) as (id & _ & Hid).
    apply (pointLookup_position schema id); assumption. }
  induction (grahams_hull coords) as [|h hs IH].
  - exists []; split; reflexivity.
  - destruct (Hevery h (or_introl eq_refl)) as (k & Hk & Hkc).
    destruct IH as (ks & Hks & Hksc); [intros h' Hh'; apply Hevery; right; exact Hh'|].
    exists (k :: ks); cbn [mapM]; rewrite Hk, Hkc; cbn [bind]; rewrite Hks, Hksc.
    split; reflexivity.
Qed.

Lemma computeInnerHull_spec (lib : Library) (schema : Schema) (g : Graph)
    (hulls : list (list Z)) :
  Schema_wf schema ->
  computeInnerHull lib schema g = Ok hulls ->
  nx_cycle_basis lib g <> []
  /\ Forall2 (fun cycle hull => exists corners, initial_hull_of schema cycle hull corners)
       (nx_cycle_basis lib g) hulls.
Proof.
  intros Hwf E; unfold computeInnerHull in E; rewrite findPath_cases in E.
  destruct (nx_cycle_basis lib g) as [|c cs]; [discriminate|]; cbn [bind] in E.
  split; [discriminate|].
  apply mapM_Ok in E; eapply Forall2_impl; [|exact E].
  intros cycle hull H; cbn beta in H.
  apply bind_Ok in H as (coords & Hc & Hh).
  destruct (initial_hull_exists schema cycle coords Hwf Hc) as (hull' & Hl & Hb).
  rewrite Hl in Hh; injection Hh as <-.
  exists (grahams_hull coords), coords; repeat split; assumption.
Qed.

Lemma computeInnerHull_total (lib : Library) (schema : Schema) (g : Graph) :
  Schema_wf schema ->
  nx_cycle_basis lib g <> [] ->
  (forall cycle v, In cycle (nx_cycle_basis lib g) -> In v cycle ->
                   exists p, vertex_coords schema v = Ok p) ->
  exists hulls, computeInnerHull lib schema g = Ok hulls.
Proof.
  intros Hwf Hne Hv; unfold computeInnerHull; rewrite findPath_cases.
  destruct (nx_cycle_basis lib g) as [|c cs] eqn:Ec; [congruence|]; cbn [bind].
  apply mapM_total; intros cycle Hcycle.
  destruct (mapM_total (vertex_coords schema) cycle) as [coords Hc].
  { intros v Hin; apply (Hv cycle v); assumption. }
  rewrite Hc; cbn [bind].
  destruct (initial_hull_exists schema cycle coords Hwf Hc) as (hull & Hl & _).
  exists hull; exact Hl.
Qed.

(* ================================================================= *)
(** ** The initial hull contains its cycle (C5) *)

(** C5, as the code has it.  The hull is built per cycle, from the positions of
    the vertices of that cycle: whenever the vertices of the cycles are
    vertices of the schema, [computeInnerHull] returns one hull per cycle,
    and every vertex of the cycle lies inside or on the polygon of the hull's
    corners. *)
Theorem initial_hull_contains_cycle
    (lib : Library) (schema : Schema) (g : Graph) :
  Schema_wf schema ->
  nx_cycle_basis lib g <> [] ->
  (forall cycle v, In cycle (nx_cycle_basis lib g) -> In v cycle ->
                   exists p, vertex_coords schema v = Ok p) ->
  exists hulls,
    computeInnerHull lib schema g = Ok hulls
    /\ Forall2 (fun cycle hull =>
                  exists corners,
                    initial_hull_of schema cycle hull corners
                    /\ forall v p, In v cycle -> vertex_coords schema v = Ok p ->
                                   inside_or_on corners p)
         (nx_cycle_basis lib g) hulls.
Proof.
  intros Hwf Hne Hv.
  destruct (computeInnerHull_total lib schema g Hwf Hne Hv) as [hulls Hh].
  exists hulls; split; [exact Hh|].
  destruct (computeInnerHull_spec lib schema g hulls Hwf Hh) as [_ Hspec].
  eapply Forall2_impl; [|exact Hspec].
  intros cycle hull (corners & coords & Hc & -> & Hl & Hb).
  exists (grahams_hull coords); split; [exists coords; repeat split; assumption|].
  intros v p Hin Hp; apply grahams_hull_contains.
  apply mapM_Ok in Hc; destruct (Forall2_In_l _ _ _ v Hc Hin) as (p' & Hp' & E).
  rewrite Hp in E; injection E as <-; exact Hp'.
Qed.

Lemma initial_hull_contains_cycle_witness :
  exists hulls,
    computeInnerHull triangle_library triangle triangle_graph = Ok hulls
    /\ Forall2 (fun cycle hull =>
                  exists corners,
                    initial_hull_of triangle cycle hull corners
                    /\ forall v p, In v cycle -> vertex_coords triangle v = Ok p ->
                                   inside_or_on corners p)
         [[0; 1; 2]%Z] hulls.
Proof.
  apply (initial_hull_contains_cycle triangle_library triangle triangle_graph
           (schema_of_raw_wf triangle_raw)).
  - discriminate.
  - intros cycle v [<- | []] Hv.
    destruct Hv as [<- | [<- | [<- | []]]]; eexists; reflexivity.
Defined.

Lemma spur_Vertices :
  Vertices spur
  = Some [(0%Z, vertex_at 0 0); (1%Z, vertex_at 4 0); (2%Z, vertex_at 0 3);
          (3%Z, vertex_at 10 10)].
Proof. reflexivity. Qed.

(** Evaluates [pointLookup] on a schema whose vertices are given. *)
Ltac lookup_eval :=
  repeat first
    [ progress cbn [bind filter map fst snd X Y Position vertex_at andb index_at
                    nth_error mapM]
    | decide_comparison ].

Lemma spur_initial_hull :
  computeInnerHull triangle_library spur spur_graph = Ok [[0; 1; 2]%Z].
Proof.
  unfold computeInnerHull; rewrite findPath_cases.
  cbn [nx_cycle_basis triangle_library bind mapM].
  change (vertex_coords spur 0) with (@Ok point (0, 0)).
  change (vertex_coords spur 1) with (@Ok point (4, 0)).
  change (vertex_coords spur 2) with (@Ok point (0, 3)).
  cbn [bind].
  match goal with
  | |- context [grahams_hull ?l] =>
      replace (grahams_hull l) with [((0, 0) : point); (4, 0); (0, 3)]
        by (symmetry; exact grahams_hull_3_4_5)
  end.
  unfold pointLookup, schema_Vertices; rewrite spur_Vertices.
  lookup_eval; reflexivity.
Qed.

(** C5 fails as stated: vertex 3 of the spur schema, at (10,10), is a vertex
    of the schema but not of the cycle; the hull is the triangle
    (0,0), (4,0), (0,3), and the vertex lies strictly to the right of its
    side from (4,0) to (0,3). *)
Lemma spur_vertex_outside_initial_hull :
  computeInnerHull triangle_library spur spur_graph = Ok [[0; 1; 2]%Z]
  /\ mapM (vertex_coords spur) [0; 1; 2]%Z = Ok [(0, 0); (4, 0); (0, 3)]
  /\ vertex_coords spur 3 = Ok (10, 10)
  /\ In ((4, 0), (0, 3)) (sides [(0, 0); (4, 0); (0, 3)])
  /\ cross (4, 0) (0, 3) (10, 10) < 0.
Proof.
  split; [exact spur_initial_hull|].
  split; [reflexivity|].
  split; [reflexivity|].
  split; [right; left; reflexivity|].
  unfold cross; cbn [fst snd]; lra.
Qed.

(* ================================================================= *)
(** ** The hull builder (C4) *)

Lemma bind_assoc {A B C : Type} (m : result A) (f : A -> result B) (g : B -> result C) :
  bind (bind m f) g = bind m (fun a => bind (f a) g).
Proof. destruct m; reflexivity. Qed.

Lemma bind_ext {A B : Type} (m : result A) (f g : A -> result B) :
  (forall a, f a = g a) -> bind m f = bind m g.
Proof. intros H; destruct m; [apply H | reflexivity]. Qed.

Lemma mapM_ext {A B : Type} (f g : A -> result B) (l : list A) :
  (forall a, f a = g a) -> mapM f l = mapM g l.
Proof.
  intros H; induction l as [|a l IH]; [reflexivity|].
  cbn [mapM]; rewrite H, IH; reflexivity.
Qed.

Lemma filterM_ext {A : Type} (f g : A -> result bool) (l : list A) :
  (forall a, f a = g a) -> filterM f l = filterM g l.
Proof.
  intros H; induction l as [|a l IH]; [reflexivity|].
  cbn [filterM]; rewrite H, IH; reflexivity.
Qed.

(** A loop that extends an accumulator by what its body yields collects the
    concatenation of the yields. *)
Lemma foldM_extend {A B : Type} (body : list B -> A -> result (list B))
    (yield : A -> result (list B)) (xs : list A) :
  (forall acc x, body acc x = (b <- yield x ;; Ok (acc ++ b))) ->
  forall acc,
    foldM body xs acc = (bs <- mapM yield xs ;; Ok (acc ++ concat bs)).
Proof.
  intros Hbody; induction xs as [|x xs IH]; intros acc; cbn [foldM mapM bind concat].
  - rewrite app_nil_r; reflexivity.
  - rewrite Hbody; destruct (yield x) as [b|e]; cbn [bind]; [|reflexivity].
    rewrite IH; destruct (mapM yield xs); cbn [bind concat]; [|reflexivity].
    rewrite app_assoc; reflexivity.
Qed.

Lemma no_arcs_test (es : dict string Edge) :
  (length (filter (fun kv => is_CircularArc (snd kv)) es) =? 0)%nat = negb (has_arcs es).
Proof.
  unfold has_arcs; induction es as [|kv es IH]; [reflexivity|].
  cbn [filter existsb]; destruct (is_CircularArc (snd kv)); [reflexivity | exact IH].
Qed.

Lemma is_outward_extrusion_test (values_dict : dict string EdgeValues) (path : list Z)
    (x : string) :
  (v <- getitem values_dict x ;; s <- start_id v ;; i <- list_index path s ;;
   v' <- getitem values_dict x ;; f <- finish_id v' ;; j <- list_index path f ;;
   Ok (j <? i)%nat)
  = is_outward_extrusion values_dict path x.
Proof.
  unfold is_outward_extrusion; destruct (getitem values_dict x) as [v|e] eqn:E;
    cbn [bind]; [|reflexivity].
  destruct (start_id v); cbn [bind]; [|reflexivity].
  destruct (list_index path a); reflexivity.
Qed.

Lemma extrusions_between_side (lib : Library) (schema : Schema) (g : Graph)
    (values_dict : dict string EdgeValues) (ab : Z * Z) (new_hull : list point) :
  (extrusions <- extrusions_between lib schema g values_dict (fst ab) (snd ab) ;;
   foldM (fun new_hull x =>
            v <- getitem values_dict x ;; bp <- box_points v ;; Ok (new_hull ++ bp))
         extrusions new_hull)
  = (b <- side_boxes lib schema g values_dict ab ;; Ok (new_hull ++ b)).
Proof.
  unfold extrusions_between, side_boxes, arcs_on_path.
  destruct (nx_shortest_path lib g (fst ab) (snd ab)) as [path|e]; cbn [bind]; [|reflexivity].
  destruct (mapM _ (izip_next path)) as [looked|e]; cbn [bind]; [|reflexivity].
  destruct (filterM _ looked) as [arcs|e]; cbn [bind]; [|reflexivity].
  rewrite (filterM_ext _ (is_outward_extrusion values_dict path))
    by (intros x; apply is_outward_extrusion_test).
  destruct (filterM _ arcs) as [extrusions|e]; cbn [bind]; [|reflexivity].
  rewrite (foldM_extend _ (fun x => v <- getitem values_dict x ;; box_points v)).
  - destruct (mapM _ extrusions); reflexivity.
  - intros acc x; rewrite bind_assoc; reflexivity.
Qed.

Lemma computeConvexHull_hull_builder (lib : Library) (schema : Schema) (g : Graph)
    (values_dict : dict string EdgeValues) :
  computeConvexHull lib schema g values_dict = hull_builder lib schema g values_dict.
Proof.
  unfold computeConvexHull, hull_builder.
  apply bind_ext; intros initial; apply bind_ext; intros es.
  rewrite no_arcs_test; unfold final_hull.
  destruct (has_arcs es); cbn [negb].
  - apply mapM_ext; intros hull.
    apply bind_ext; intros corners; apply bind_ext; intros first.
    rewrite (foldM_extend _ (side_boxes lib schema g values_dict)).
    + destruct (mapM _ (izip_next (hull ++ [first]))); reflexivity.
    + intros acc ab; apply extrusions_between_side.
  - apply mapM_ext; intros hull.
    destruct (mapM (vertex_coords schema) hull); reflexivity.
Qed.



(* ================================================================= *)
(** ** The loop of [findMinimumRectangle] *)

Lemma Rltb_true (a b : R) : Rltb a b = true <-> a < b.
Proof. unfold Rltb; destruct (Rlt_dec a b); split; intros; congruence || assumption. Qed.

Lemma Rltb_false (a b : R) : Rltb a b = false <-> b <= a.
Proof. unfold Rltb; destruct (Rlt_dec a b); split; intros; try congruence; lra. Qed.

Lemma contains_keys_find {K V : Type} `{KeyEq K} (d : dict K V) (k : K) :
  contains k (keys d) = match dict_find d k with Some _ => true | None => false end.
Proof.
  induction d as [|[k' v'] d IH]; [reflexivity|].
  unfold contains in *; cbn [keys map fst existsb dict_find].
  destruct (eqb k k'); [reflexivity | exact IH].
Qed.

Lemma caliper_step_update (d : dict (point * point) caliper) (s : candidate) :
  segment_length_square (fst (fst s)) <> 0 ->
  caliper_step d s = Ok (caliper_update d s).
Proof.
  intros Hsl; unfold caliper_step, caliper_update.
  rewrite pdiv_Ok by assumption; cbn [bind].
  rewrite contains_keys_find; unfold getitem.
  destruct (dict_find d (fst (fst s))) as [old|]; cbn [bind]; [|reflexivity].
  unfold caliper_of; cbn [fst]; destruct (Rltb (fst old) _); reflexivity.
Qed.

Lemma caliper_loop_update (cands : list candidate) :
  Forall (fun s => segment_length_square (fst (fst s)) <> 0) cands ->
  forall d, foldM caliper_step cands d = Ok (fold_left caliper_update cands d).
Proof.
  induction 1 as [|s cands Hs _ IH]; intros d; [reflexivity|].
  cbn [foldM fold_left]; rewrite caliper_step_update by assumption; cbn [bind].
  apply IH.
Qed.

(** After the loop every side that had a candidate has an entry, and the
    entry of a side is that of its first candidate of largest area. *)
Lemma caliper_update_invariant (cands seen : list candidate)
    (d : dict (point * point) caliper) :
  NoDup (keys d) ->
  (forall e v, dict_find d e = Some v -> largest_of seen e v) ->
  (forall s, In s seen -> dict_find d (fst (fst s)) <> None) ->
  let d' := fold_left caliper_update cands d in
  NoDup (keys d')
  /\ (forall e v, dict_find d' e = Some v -> largest_of (seen ++ cands) e v)
  /\ (forall s, In s (seen ++ cands) -> dict_find d' (fst (fst s)) <> None).
Proof.
  revert seen d; induction cands as [|s cands IH]; intros seen d Hnd Hbest Hkeys.
  - cbn [fold_left]; rewrite app_nil_r; auto.
  - cbn [fold_left].
    replace (seen ++ s :: cands) with ((seen ++ [s]) ++ cands)
      by (rewrite <- app_assoc; reflexivity).
    apply IH.
    + unfold caliper_update; destruct (dict_find d (fst (fst s))) as [old|];
        [destruct (Rltb (fst old) (fst (caliper_of s)))|];
        try apply setitem_NoDup; assumption.
    + intros e v Hf.
      assert (Hnew : forall old_bound,
                 (forall s', In s' seen -> fst (fst s') = fst (fst s) ->
                             fst (caliper_of s') <= old_bound) ->
                 old_bound <= fst (caliper_of s) ->
                 largest_of (seen ++ [s]) (fst (fst s)) (caliper_of s)).
      { intros b Hb Hle; split.
        - exists s; repeat split; apply in_or_app; right; left; reflexivity.
        - intros s' Hs' Hk; apply in_app_or in Hs' as [Hs' | [<- | []]]; [|lra].
          specialize (Hb s' Hs' Hk); lra. }
      assert (Hkeep : forall e' v', largest_of seen e' v' ->
                 (e' = fst (fst s) -> fst (caliper_of s) <= fst v') ->
                 largest_of (seen ++ [s]) e' v').
      { intros e' v' [(s0 & Hs0 & Hk0 & Hv0) Hmax] Hle; split.
        - exists s0; repeat split; try assumption; apply in_or_app; left; assumption.
        - intros s' Hs' Hk; apply in_app_or in Hs' as [Hs' | [<- | []]];
            [apply Hmax; assumption | apply Hle; symmetry; assumption]. }
      unfold caliper_update in Hf.
      destruct (dict_find d (fst (fst s))) as [old|] eqn:Hold.
      * destruct (Rltb (fst old) (fst (caliper_of s))) eqn:Hlt.
        -- apply Rltb_true in Hlt.
           destruct (key_eq_dec (fst (fst s)) e) as [<- | Hne].
           ++ rewrite dict_find_setitem_same in Hf; injection Hf as <-.
              apply (Hnew (fst old)); [|lra].
              intros s' Hs' Hk; apply (Hbest _ _ Hold); assumption.
           ++ rewrite dict_find_setitem_other in Hf by assumption.
              apply Hkeep; [apply Hbest; assumption | congruence].
        -- apply Rltb_false in Hlt; apply Hkeep; [apply Hbest; assumption|].
           intros ->; rewrite Hold in Hf; injection Hf as <-; assumption.
      * destruct (key_eq_dec (fst (fst s)) e) as [<- | Hne].
        -- rewrite dict_find_setitem_same in Hf; injection Hf as <-.
           apply (Hnew (fst (caliper_of s))); [|lra].
           intros s' Hs' Hk; exfalso; apply (Hkeys s' Hs'); rewrite Hk; exact Hold.
        -- rewrite dict_find_setitem_other in Hf by assumption.
           apply Hkeep; [apply Hbest; assumption | congruence].
    + intros s' Hs'.
      assert (Hsame : dict_find (caliper_update d s) (fst (fst s)) <> None).
      { unfold caliper_update; destruct (dict_find d (fst (fst s))) as [old|] eqn:Hold.
        - destruct (Rltb (fst old) (fst (caliper_of s)));
            [rewrite dict_find_setitem_same | rewrite Hold]; discriminate.
        - rewrite dict_find_setitem_same; discriminate. }
      apply in_app_or in Hs' as [Hs' | [<- | []]]; [|exact Hsame].
      destruct (key_eq_dec (fst (fst s)) (fst (fst s'))) as [E | Hne];
        [rewrite <- E; exact Hsame|].
      specialize (Hkeys s' Hs').
      unfold caliper_update; destruct (dict_find d (fst (fst s))) as [old|];
        [destruct (Rltb (fst old) (fst (caliper_of s)))|];
        try rewrite dict_find_setitem_other by assumption; assumption.
Qed.

Lemma caliper_ltb_area (a b : caliper) :
  (caliper_ltb a b = true -> fst a <= fst b)
  /\ (caliper_ltb a b = false -> fst b <= fst a).
Proof.
  destruct a as [a0 [[a1 a2] a3]], b as [b0 [[b1 b2] b3]]; unfold caliper_ltb; cbn [fst].
  destruct (Rltb a0 b0) eqn:E1; [apply Rltb_true in E1; split; [lra | discriminate]|].
  apply Rltb_false in E1.
  destruct (Rltb b0 a0) eqn:E2; [apply Rltb_true in E2; split; [discriminate | lra]|].
  apply Rltb_false in E2; split; lra.
Qed.

(** [min(caliper_sizes, key=caliper_sizes.get)] returns a key whose entry has
    the least area. *)
Lemma min_by_value_least {K : Type} (d : dict K caliper) :
  d <> [] ->
  exists k v, min_by_value d = Ok k /\ In (k, v) d
              /\ forall k' v', In (k', v') d -> fst v <= fst v'.
Proof.
  destruct d as [|kv d]; [congruence|]; intros _.
  assert (G : forall (rest : list (K * caliper)) (best : K * caliper)
                     (seen : list (K * caliper)),
             In best seen ->
             (forall x, In x seen -> fst (snd best) <= fst (snd x)) ->
             let r := fold_left (fun best kv' =>
                                   if caliper_ltb (snd kv') (snd best) then kv' else best)
                                rest best in
             In r (seen ++ rest)
             /\ forall x, In x (seen ++ rest) -> fst (snd r) <= fst (snd x)).
  { induction rest as [|kv' rest IH]; intros best seen Hin Hleast.
    - cbn [fold_left]; rewrite app_nil_r; split; assumption.
    - cbn [fold_left].
      replace (seen ++ kv' :: rest) with ((seen ++ [kv']) ++ rest)
        by (rewrite <- app_assoc; reflexivity).
      pose proof (caliper_ltb_area (snd kv') (snd best)) as [Hlt_true Hlt_false].
      destruct (caliper_ltb (snd kv') (snd best)) eqn:Hlt; apply IH.
      + apply in_or_app; right; left; reflexivity.
      + intros x Hx; specialize (Hlt_true eq_refl).
        apply in_app_or in Hx as [Hx | [<- | []]]; [|lra].
        specialize (Hleast x Hx); lra.
      + apply in_or_app; left; assumption.
      + intros x Hx; specialize (Hlt_false eq_refl).
        apply in_app_or in Hx as [Hx | [<- | []]]; [apply Hleast; assumption | lra]. }
  specialize (G d kv [kv] (or_introl eq_refl)).
  destruct G as [Hin Hleast].
  { intros x [<- | []]; lra. }
  cbn [min_by_value].
  set (r := fold_left _ d kv) in *.
  exists (fst r), (snd r); repeat split.
  - rewrite <- surjective_pairing; exact Hin.
  - intros k' v' Hx; apply (Hleast (k', v')); exact Hx.
Qed.

(* ================================================================= *)
(** ** Largest and least element of a list *)

Lemma fold_left_Rmax_spec (xs : list R) (x : R) :
  In (fold_left Rmax xs x) (x :: xs)
  /\ forall y, In y (x :: xs) -> y <= fold_left Rmax xs x.
Proof.
  revert x; induction xs as [|a xs IH]; intros x; cbn [fold_left].
  - split; [left; reflexivity | intros y [<- | []]; lra].
  - destruct (IH (Rmax x a)) as [Hin Hub]; split.
    + destruct Hin as [E | Hin]; [|right; right; exact Hin].
      rewrite <- E; unfold Rmax; destruct (Rle_dec x a); [right; left | left]; reflexivity.
    + intros y [E | [E | Hy]]; subst.
      * apply Rle_trans with (Rmax y a); [apply Rmax_l | apply Hub; left; reflexivity].
      * apply Rle_trans with (Rmax x y); [apply Rmax_r | apply Hub; left; reflexivity].
      * apply Hub; right; exact Hy.
Qed.

Lemma fold_left_Rmin_spec (xs : list R) (x : R) :
  In (fold_left Rmin xs x) (x :: xs)
  /\ forall y, In y (x :: xs) -> fold_left Rmin xs x <= y.
Proof.
  revert x; induction xs as [|a xs IH]; intros x; cbn [fold_left].
  - split; [left; reflexivity | intros y [<- | []]; lra].
  - destruct (IH (Rmin x a)) as [Hin Hlb]; split.
    + destruct Hin as [E | Hin]; [|right; right; exact Hin].
      rewrite <- E; unfold Rmin; destruct (Rle_dec x a); [left | right; left]; reflexivity.
    + intros y [E | [E | Hy]]; subst.
      * apply Rle_trans with (Rmin y a); [apply Hlb; left; reflexivity | apply Rmin_l].
      * apply Rle_trans with (Rmin x y); [apply Hlb; left; reflexivity | apply Rmin_r].
      * apply Hlb; right; exact Hy.
Qed.

Lemma list_max_unique (xs : list R) (m : R) :
  In m xs -> (forall y, In y xs -> y <= m) -> list_max xs = m.
Proof.
  destruct xs as [|x xs]; [contradiction|]; intros Hin Hub; cbn [list_max].
  destruct (fold_left_Rmax_spec xs x) as [Hin' Hub'].
  apply Rle_antisym; [apply Hub, Hin' | apply Hub', Hin].
Qed.

Lemma list_min_unique (xs : list R) (m : R) :
  In m xs -> (forall y, In y xs -> m <= y) -> list_min xs = m.
Proof.
  destruct xs as [|x xs]; [contradiction|]; intros Hin Hlb; cbn [list_min].
  destruct (fold_left_Rmin_spec xs x) as [Hin' Hlb'].
  apply Rle_antisym; [apply Hlb', Hin | apply Hlb, Hin'].
Qed.

(* ================================================================= *)
(** ** The rectangle of one side *)

Lemma height_numerator_cross (e : point * point) (p : point) :
  height_numerator e p = - cross (fst e) (snd e) p.
Proof.
  destruct e as [[x1 y1] [x2 y2]], p as [x3 y3]; unfold height_numerator, cross;
    cbn [fst snd]; ring.
Qed.

Lemma width_numerator_along (e : point * point) (p4 p5 : point) :
  width_numerator e (p4, p5) = along e p5 - along e p4.
Proof.
  destruct e as [[x1 y1] [x2 y2]], p4 as [x4 y4], p5 as [x5 y5];
    unfold width_numerator, along; cbn [fst snd]; ring.
Qed.

Lemma segment_length_square_distance (e : point * point) :
  sqrt (segment_length_square e) = distance (fst e) (snd e).
Proof. destruct e as [[x1 y1] [x2 y2]]; reflexivity. Qed.

Lemma segment_length_square_ends (e : point * point) :
  segment_length_square e = along e (snd e) - along e (fst e).
Proof.
  destruct e as [[x1 y1] [x2 y2]]; unfold segment_length_square, along; cbn [fst snd]; ring.
Qed.

Lemma segment_length_square_nonneg (e : point * point) : 0 <= segment_length_square e.
Proof. destruct e as [[x1 y1] [x2 y2]]; apply sum_squares_nonneg. Qed.

Lemma square_pos (d : R) : d <> 0 -> 0 < d ^ 2.
Proof. intros H; destruct (Rtotal_order d 0) as [Hd | [Hd | Hd]]; [nra | contradiction | nra]. Qed.

Lemma cross_off_line (e : point * point) (p : point) :
  cross (fst e) (snd e) p <> 0 ->
  p <> fst e /\ p <> snd e /\ 0 < segment_length_square e.
Proof.
  destruct e as [[x1 y1] [x2 y2]], p as [x3 y3];
    unfold cross, segment_length_square; cbn [fst snd]; intros H; repeat split.
  - intros E; injection E as -> ->; apply H; ring.
  - intros E; injection E as -> ->; apply H; ring.
  - pose proof (pow2_ge_0 (x2 - x1)); pose proof (pow2_ge_0 (y2 - y1)).
    destruct (Req_dec_T x2 x1) as [-> | Hx];
      [|assert (0 < (x2 - x1) ^ 2) by (apply square_pos; lra); lra].
    destruct (Req_dec_T y2 y1) as [-> | Hy];
      [|assert (0 < (y2 - y1) ^ 2) by (apply square_pos; lra); lra].
    exfalso; apply H; ring.
Qed.

Lemma izip_next_In {A : Type} (l : list A) (a b : A) :
  In (a, b) (izip_next l) -> In a l /\ In b l.
Proof.
  induction l as [|x l IH]; [contradiction|].
  destruct l as [|y l]; [contradiction|].
  rewrite izip_next_cons2; intros [E | Hin].
  - injection E as -> ->; split; [left | right; left]; reflexivity.
  - destruct (IH Hin) as [Ha Hb]; split; right; assumption.
Qed.

Lemma side_ends_In (hull : list point) (first : point) (e : point * point) :
  In first hull -> In e (izip_next (hull ++ [first])) ->
  In (fst e) hull /\ In (snd e) hull.
Proof.
  intros Hf He; destruct e as [a b]; apply izip_next_In in He as [Ha Hb].
  split; [apply in_app_or in Ha as [Ha | [<- | []]] | apply in_app_or in Hb as [Hb | [<- | []]]];
    assumption.
Qed.

Lemma In_candidates (hull : list point) (first : point) (s : candidate) :
  In s (candidates hull first) <->
  In (fst (fst s)) (izip_next (hull ++ [first]))
  /\ In (snd (fst s)) hull
  /\ snd (fst s) <> fst (fst (fst s)) /\ snd (fst s) <> snd (fst (fst s))
  /\ In (fst (snd s)) hull /\ In (snd (snd s)) hull.
Proof.
  destruct s as [[e p3] [p4 p5]]; unfold candidates, product, candidate, point;
    cbn [fst snd].
  rewrite in_prod_iff, filter_In, !in_prod_iff; cbn [fst snd].
  rewrite andb_true_iff, !negb_true_iff, !eqb_false; tauto.
Qed.

Lemma div_le_reg (a b l : R) : 0 < l -> a / l <= b / l -> a <= b.
Proof.
  intros Hl H; apply Rmult_le_reg_r with (/ l); [apply Rinv_0_lt_compat; exact Hl | exact H].
Qed.

Lemma div_le_compat (a b l : R) : 0 < l -> a <= b -> a / l <= b / l.
Proof.
  intros Hl H; apply Rmult_le_compat_r; [left; apply Rinv_0_lt_compat; exact Hl | exact H].
Qed.

(** What the entry of a side holds when the loop is over: the squared length
    of the side, and numerators that give the height and the width of the
    rectangle flush with the side. *)
Lemma side_rectangle (hull : list point) (first : point) (e : point * point)
    (a hn wn sl : R) :
  In first hull ->
  In e (izip_next (hull ++ [first])) ->
  (exists p, In p hull /\ cross (fst e) (snd e) p <> 0) ->
  largest_of (candidates hull first) e (a, (hn, wn, sl)) ->
  sl = segment_length_square e
  /\ 0 < sl
  /\ Rabs hn / sqrt sl = rect_height e hull
  /\ Rabs wn / sqrt sl = rect_width e hull
  /\ a = rect_area e hull.
Proof.
  intros Hfirst He (p0 & Hp0 & Hoff) [(s & Hs & Hk & Hv) Hmax].
  destruct s as [[e' p3] [p4 p5]]; cbn [fst snd] in Hk; subst e'.
  unfold caliper_of, math_fabs in Hv; cbn [fst snd] in Hv; injection Hv as Ha Hhn Hwn Hsl.
  apply In_candidates in Hs; cbn [fst snd] in Hs.
  destruct Hs as (_ & Hp3 & Hp3a & Hp3b & Hp4 & Hp5).
  destruct (cross_off_line e p0 Hoff) as (Hp0a & Hp0b & Hpos).
  destruct (side_ends_In hull first e Hfirst He) as [Hp1 Hp2].
  subst sl; remember (segment_length_square e) as l eqn:El.
  assert (Hcand : forall p q4 q5, In p hull -> p <> fst e -> p <> snd e ->
             In q4 hull -> In q5 hull ->
             Rabs (cross (fst e) (snd e) p) * Rabs (along e q5 - along e q4)
             <= Rabs hn * Rabs wn).
  { intros p q4 q5 Hp Hpa Hpb Hq4 Hq5.
    rewrite <- !Rabs_mult; apply (div_le_reg _ _ l Hpos).
    assert (Hin : In ((e, p), (q4, q5)) (candidates hull first))
      by (apply In_candidates; cbn [fst snd]; repeat split; assumption).
    specialize (Hmax ((e, p), (q4, q5)) Hin eq_refl).
    unfold caliper_of, math_fabs in Hmax; cbn [fst snd] in Hmax.
    rewrite <- El, <- Ha, Hhn, Hwn in Hmax.
    rewrite height_numerator_cross, width_numerator_along in Hmax.
    rewrite Rabs_mult, Rabs_Ropp, <- Rabs_mult in Hmax; exact Hmax. }
  assert (HH : 0 <= Rabs hn) by apply Rabs_pos.
  assert (HW : 0 <= Rabs wn) by apply Rabs_pos.
  assert (Hprod : 0 < Rabs hn * Rabs wn).
  { specialize (Hcand p0 (fst e) (snd e) Hp0 Hp0a Hp0b Hp1 Hp2).
    rewrite <- segment_length_square_ends, <- El in Hcand.
    rewrite (Rabs_pos_eq l) in Hcand by lra.
    assert (0 < Rabs (cross (fst e) (snd e) p0)) by (apply Rabs_pos_lt; exact Hoff).
    nra. }
  assert (HHpos : 0 < Rabs hn) by nra.
  assert (HWpos : 0 < Rabs wn) by nra.
  assert (Hheight : forall p, In p hull -> Rabs (cross (fst e) (snd e) p) <= Rabs hn).
  { intros p Hp.
    destruct (key_eq_dec p (fst e)) as [-> | Hpa];
      [rewrite cross_same_start, Rabs_R0; exact HH|].
    destruct (key_eq_dec p (snd e)) as [-> | Hpb];
      [rewrite cross_same_end, Rabs_R0; exact HH|].
    specialize (Hcand p p4 p5 Hp Hpa Hpb Hp4 Hp5).
    rewrite <- width_numerator_along, Hwn in Hcand; nra. }
  assert (Hwidth : forall q4 q5, In q4 hull -> In q5 hull ->
             Rabs (along e q5 - along e q4) <= Rabs wn).
  { intros q4 q5 Hq4 Hq5.
    specialize (Hcand p3 q4 q5 Hp3 Hp3a Hp3b Hq4 Hq5).
    rewrite <- (Rabs_Ropp (cross _ _ _)), <- height_numerator_cross, Hhn in Hcand; nra. }
  assert (HD : 0 < sqrt l) by (apply sqrt_lt_R0; exact Hpos).
  assert (HDD : sqrt l * sqrt l = l) by (apply sqrt_sqrt; lra).
  assert (Hdist : distance (fst e) (snd e) = sqrt l)
    by (rewrite El; symmetry; apply segment_length_square_distance).
  assert (Hproj : forall p, projection e p = along e p / sqrt l).
  { intros p; unfold projection, along; rewrite Hdist; reflexivity. }
  assert (Hrh : rect_height e hull = Rabs hn / sqrt l).
  { apply list_max_unique.
    - apply in_map_iff; exists p3; split; [|exact Hp3].
      unfold perpendicular_distance; rewrite Hdist.
      rewrite <- Hhn, height_numerator_cross, Rabs_Ropp; reflexivity.
    - intros y Hy; apply in_map_iff in Hy as (p & <- & Hp).
      unfold perpendicular_distance; rewrite Hdist.
      apply div_le_compat; [exact HD | apply Hheight, Hp]. }
  assert (Hrw : rect_width e hull = Rabs wn / sqrt l).
  { unfold rect_width; rewrite <- Hwn, width_numerator_along in *.
    destruct (Rle_or_lt (along e p4) (along e p5)) as [Hord | Hord].
    - rewrite (list_max_unique _ (along e p5 / sqrt l)),
              (list_min_unique _ (along e p4 / sqrt l)).
      + rewrite Rabs_pos_eq by lra; unfold Rdiv; ring.
      + apply in_map_iff; exists p4; split; [apply Hproj | exact Hp4].
      + intros y Hy; apply in_map_iff in Hy as (p & <- & Hp); rewrite Hproj.
        apply div_le_compat; [exact HD|].
        specialize (Hwidth p p5 Hp Hp5).
        rewrite (Rabs_pos_eq (along e p5 - along e p4)) in Hwidth by lra.
        pose proof (Rle_abs (along e p5 - along e p)); lra.
      + apply in_map_iff; exists p5; split; [apply Hproj | exact Hp5].
      + intros y Hy; apply in_map_iff in Hy as (p & <- & Hp); rewrite Hproj.
        apply div_le_compat; [exact HD|].
        specialize (Hwidth p4 p Hp4 Hp).
        rewrite (Rabs_pos_eq (along e p5 - along e p4)) in Hwidth by lra.
        pose proof (Rle_abs (along e p - along e p4)); lra.
    - rewrite (list_max_unique _ (along e p4 / sqrt l)),
              (list_min_unique _ (along e p5 / sqrt l)).
      + rewrite Rabs_left by lra; unfold Rdiv; ring.
      + apply in_map_iff; exists p5; split; [apply Hproj | exact Hp5].
      + intros y Hy; apply in_map_iff in Hy as (p & <- & Hp); rewrite Hproj.
        apply div_le_compat; [exact HD|].
        specialize (Hwidth p4 p Hp4 Hp).
        rewrite (Rabs_left (along e p5 - along e p4)) in Hwidth by lra.
        pose proof (Rle_abs (- (along e p - along e p4))) as Habs.
        rewrite Rabs_Ropp in Habs; lra.
      + apply in_map_iff; exists p4; split; [apply Hproj | exact Hp4].
      + intros y Hy; apply in_map_iff in Hy as (p & <- & Hp); rewrite Hproj.
        apply div_le_compat; [exact HD|].
        specialize (Hwidth p p5 Hp Hp5).
        rewrite (Rabs_left (along e p5 - along e p4)) in Hwidth by lra.
        pose proof (Rle_abs (- (along e p5 - along e p))) as Habs.
        rewrite Rabs_Ropp in Habs; lra. }
  repeat split; try (symmetry; assumption); try assumption.
  unfold rect_area; rewrite Hrh, Hrw, <- Ha, Hhn, Hwn, Rabs_mult.
  rewrite <- HDD at 1; field; lra.
Qed.

(* ================================================================= *)
(** ** Minimum bounding rectangle (C3) *)

(** For one hull, the loop and the minimum of [findMinimumRectangle]. *)
Lemma findMinimumRectangle_rectangle (hull : list point) :
  proper_polygon hull ->
  exists e,
    In e (sides hull)
    /\ (forall e', In e' (sides hull) -> rect_area e hull <= rect_area e' hull)
    /\ findMinimumRectangle hull
       = Ok ((rect_height e hull + PADDING) * (rect_width e hull + PADDING)).
Proof.
  intros [Hne Hoff]; destruct hull as [|first rest] eqn:Ehull; [congruence|].
  rewrite <- Ehull in *.
  assert (Hfirst : In first hull) by (rewrite Ehull; left; reflexivity).
  assert (Hsides : sides hull = izip_next (hull ++ [first])) by (rewrite Ehull; reflexivity).
  rewrite Hsides in *.
  set (cands := candidates hull first).
  assert (Hsl : Forall (fun s => segment_length_square (fst (fst s)) <> 0) cands).
  { apply Forall_forall; intros s Hs; apply In_candidates in Hs as (He & _).
    destruct (Hoff _ He) as (p & _ & Hp).
    destruct (cross_off_line _ p Hp) as (_ & _ & Hpos); lra. }
  destruct (caliper_update_invariant cands [] [] (NoDup_nil _)) as (Hnd & Hbest & Hkeys).
  { intros e v Hf; discriminate. }
  { intros s []. }
  cbn [app] in Hbest, Hkeys.
  set (sizes := fold_left caliper_update cands []) in *.
  assert (Hentry : forall e, In e (izip_next (hull ++ [first])) ->
             exists v, dict_find sizes e = Some v).
  { intros e He; destruct (Hoff e He) as (p & Hp & Hcross).
    destruct (cross_off_line e p Hcross) as (Hpa & Hpb & _).
    destruct (side_ends_In hull first e Hfirst He) as [Hp1 Hp2].
    assert (Hin : In ((e, p), (fst e, snd e)) cands)
      by (apply In_candidates; cbn [fst snd]; repeat split; assumption).
    specialize (Hkeys _ Hin); cbn [fst] in Hkeys.
    destruct (dict_find sizes e) as [v|]; [exists v; reflexivity | congruence]. }
  assert (Hsome : sizes <> []).
  { assert (He : In (first, hd first (rest ++ [first])) (izip_next (hull ++ [first]))).
    { rewrite Ehull; destruct rest; left; reflexivity. }
    destruct (Hentry _ He) as [v Hv]; intros E; rewrite E in Hv; discriminate. }
  destruct (min_by_value_least sizes Hsome) as (k & v & Hmin & Hin & Hleast).
  assert (Hfind : dict_find sizes k = Some v) by (apply dict_find_NoDup; assumption).
  destruct v as [a [[hn wn] sl]].
  pose proof (Hbest k _ Hfind) as Hlargest.
  assert (Hk : In k (izip_next (hull ++ [first]))).
  { destruct Hlargest as [(s & Hs & Hks & _) _]; apply In_candidates in Hs as (He & _).
    rewrite <- Hks; exact He. }
  destruct (side_rectangle hull first k a hn wn sl Hfirst Hk (Hoff k Hk) Hlargest)
    as (Hsl' & Hpos & Hh & Hw & Ha).
  exists k; split; [exact Hk|]; split.
  - intros e' He'; destruct (Hentry e' He') as [[a' [[hn' wn'] sl']] Hv'].
    destruct (side_rectangle hull first e' a' hn' wn' sl' Hfirst He' (Hoff e' He')
                (Hbest e' _ Hv')) as (_ & _ & _ & _ & Ha').
    rewrite <- Ha, <- Ha'.
    apply (Hleast e' (a', (hn', wn', sl'))), dict_find_Some_In, Hv'.
  - unfold findMinimumRectangle.
    replace (index_at hull 0) with (Ok first) by (rewrite Ehull; reflexivity).
    cbn [bind]; fold (candidates hull first); fold cands.
    rewrite (caliper_loop_update cands Hsl); cbn [bind]; fold sizes.
    rewrite Hmin; cbn [bind].
    unfold getitem; rewrite Hfind; cbn [bind].
    assert (Hroot : 0 < sqrt sl) by (apply sqrt_lt_R0; exact Hpos).
    rewrite math_sqrt_Ok by lra; cbn [bind].
    rewrite !pdiv_Ok by lra; cbn [bind].
    unfold math_fabs; rewrite Hh, Hw; reflexivity.
Qed.

(** C3. For a hull whose sides each have a corner off their line,
    [findMinimumRectangle] returns (height + padding) x (width + padding) for
    a side whose flush rectangle has the least area among the sides, where
    the height is the largest distance of a hull point from the side and the
    width is the span of the projections of the hull points on the side; the
    padding is added to each dimension of the rectangle that was selected by
    its area without padding. *)
Theorem findMinimumRectangle_minimum_padded (hull : list point) :
  proper_polygon hull ->
  exists e,
    In e (sides hull)
    /\ (forall e', In e' (sides hull) -> rect_area e hull <= rect_area e' hull)
    /\ findMinimumRectangle hull
       = Ok ((rect_height e hull + PADDING) * (rect_width e hull + PADDING))
    /\ rect_height e hull = list_max (map (perpendicular_distance e) hull)
    /\ rect_width e hull
       = list_max (map (projection e) hull) - list_min (map (projection e) hull).
Proof.
  intros Hp; destruct (findMinimumRectangle_rectangle hull Hp) as (e & He & Hleast & Hres).
  exists e; repeat split; assumption.
Qed.

Lemma proper_polygon_3_4_5 : proper_polygon [(0, 0); (4, 0); (0, 3)].
Proof.
  split; [discriminate|].
  intros e [<- | [<- | [<- | []]]]; cbn [fst snd].
  - exists (0, 3); split; [right; right; left; reflexivity|].
    unfold cross; cbn [fst snd]; lra.
  - exists (0, 0); split; [left; reflexivity|].
    unfold cross; cbn [fst snd]; lra.
  - exists (4, 0); split; [right; left; reflexivity|].
    unfold cross; cbn [fst snd]; lra.
Qed.

Lemma findMinimumRectangle_minimum_padded_witness :
  exists e,
    In e (sides [(0, 0); (4, 0); (0, 3)])
    /\ (forall e', In e' (sides [(0, 0); (4, 0); (0, 3)]) ->
          rect_area e [(0, 0); (4, 0); (0, 3)] <= rect_area e' [(0, 0); (4, 0); (0, 3)])
    /\ findMinimumRectangle [(0, 0); (4, 0); (0, 3)]
       = Ok ((rect_height e [(0, 0); (4, 0); (0, 3)] + PADDING)
             * (rect_width e [(0, 0); (4, 0); (0, 3)] + PADDING))
    /\ rect_height e [(0, 0); (4, 0); (0, 3)]
       = list_max (map (perpendicular_distance e) [(0, 0); (4, 0); (0, 3)])
    /\ rect_width e [(0, 0); (4, 0); (0, 3)]
       = list_max (map (projection e) [(0, 0); (4, 0); (0, 3)])
         - list_min (map (projection e) [(0, 0); (4, 0); (0, 3)]).
Proof.
  exact (findMinimumRectangle_minimum_padded [(0, 0); (4, 0); (0, 3)] proper_polygon_3_4_5).
Defined.

(* ================================================================= *)
(** ** Cost aggregation (C1) *)

Lemma material_sum (areas : list R) (price0 : R) :
  fold_left (fun price region => price + MATERIAL_COST * region) areas price0
  = price0 + total (map (Rmult MATERIAL_COST) areas).
Proof.
  revert price0; induction areas as [|a areas IH]; intros price0; cbn [fold_left map total fold_right].
  - lra.
  - rewrite IH; unfold total; lra.
Qed.

Lemma validateSchema_Ok (lib : Library) (name : string) (schema : Schema)
    (cycles : list (list Z)) (g : Graph) :
  validateSchema lib name schema = Ok (cycles, g) -> cycles = nx_cycle_basis lib g.
Proof.
  unfold validateSchema.
  destruct (Edges schema); [|discriminate]; destruct (Vertices schema); [|discriminate].
  destruct (_ || _); [discriminate|].
  intros E; apply bind_Ok in E as (g' & _ & E); apply bind_Ok in E as (cycles' & Hc & E).
  injection E as <- <-.
  rewrite findPath_cases in Hc; destruct (nx_cycle_basis lib g'); [discriminate|].
  injection Hc as <-; reflexivity.
Qed.

(** One hull per cycle of the basis. *)
Lemma computeConvexHull_length (lib : Library) (schema : Schema) (g : Graph)
    (values_dict : dict string EdgeValues) (hulls : list (list point)) :
  computeConvexHull lib schema g values_dict = Ok hulls ->
  length hulls = length (nx_cycle_basis lib g).
Proof.
  rewrite computeConvexHull_hull_builder; unfold hull_builder; intros E.
  apply bind_Ok in E as (initial & Hinit & E); apply bind_Ok in E as (es & _ & E).
  apply mapM_length in E; rewrite E.
  unfold computeInnerHull in Hinit; apply bind_Ok in Hinit as (cycles & Hc & Hinit).
  apply mapM_length in Hinit; rewrite Hinit.
  rewrite findPath_cases in Hc; destruct (nx_cycle_basis lib g); [discriminate|].
  injection Hc as <-; reflexivity.
Qed.

(** C1. The price of a schema is the cut cost of [arcLength] plus, for every
    hull, and there is one hull per cycle of the cycle basis, the material
    unit cost times the padded area [findMinimumRectangle] returns for it;
    with two cycles both areas are in the sum.  The number is rounded nowhere
    before [costFormat] formats it for the printed line. *)
Theorem price_is_cut_cost_plus_material
    (lib : Library) (name : string) (schema : Schema) (p : R) :
  (price lib name schema = Ok p <->
   exists g values cut hulls areas,
     validateSchema lib name schema = Ok (nx_cycle_basis lib g, g)
     /\ computeValues schema = Ok values
     /\ arcLength schema values = Ok cut
     /\ computeConvexHull lib schema g values = Ok hulls
     /\ length hulls = length (nx_cycle_basis lib g)
     /\ Forall2 (fun hull area => findMinimumRectangle hull = Ok area) hulls areas
     /\ p = cut + total (map (Rmult MATERIAL_COST) areas))
  /\ (forall g c1 c2,
        price lib name schema = Ok p ->
        validateSchema lib name schema = Ok ([c1; c2], g) ->
        exists cut h1 h2 a1 a2 values,
          arcLength schema values = Ok cut
          /\ computeConvexHull lib schema g values = Ok [h1; h2]
          /\ findMinimumRectangle h1 = Ok a1 /\ findMinimumRectangle h2 = Ok a2
          /\ p = cut + (MATERIAL_COST * a1 + MATERIAL_COST * a2))
  /\ (forall raw line,
        process lib name (JSONText raw) = Ok line <->
        exists x, price lib name (schema_of_raw raw) = Ok x
                  /\ line = (name ++ " " ++ "$" ++ format_2f lib x)%string).
Proof.
  assert (Hprice : forall q,
             price lib name schema = Ok q <->
             exists g values cut hulls areas,
               validateSchema lib name schema = Ok (nx_cycle_basis lib g, g)
               /\ computeValues schema = Ok values
               /\ arcLength schema values = Ok cut
               /\ computeConvexHull lib schema g values = Ok hulls
               /\ length hulls = length (nx_cycle_basis lib g)
               /\ Forall2 (fun hull area => findMinimumRectangle hull = Ok area) hulls areas
               /\ q = cut + total (map (Rmult MATERIAL_COST) areas)).
  { intros q; unfold price, rotateCalipers; split.
    - intros E; apply bind_Ok in E as ([cycles g] & Hv & E).
      apply bind_Ok in E as (values & Hvalues & E); apply bind_Ok in E as (cut & Hcut & E).
      apply bind_Ok in E as (material & Hm & E); injection E as <-.
      cbn [snd] in Hm; apply bind_Ok in Hm as (hulls & Hh & Hm).
      apply bind_Ok in Hm as (areas & Ha & Hm); injection Hm as <-.
      pose proof (validateSchema_Ok lib name schema cycles g Hv) as ->.
      exists g, values, cut, hulls, areas; repeat split; try assumption.
      + apply (computeConvexHull_length lib schema g values); assumption.
      + apply mapM_Ok; assumption.
      + rewrite material_sum; lra.
    - intros (g & values & cut & hulls & areas & Hv & Hvalues & Hcut & Hh & _ & Ha & ->).
      rewrite Hv; cbn [bind snd]; rewrite Hvalues; cbn [bind]; rewrite Hcut; cbn [bind].
      rewrite Hh; cbn [bind]; apply mapM_Ok in Ha; rewrite Ha; cbn [bind].
      rewrite material_sum; f_equal; lra. }
  split; [apply Hprice|]; split.
  - intros g c1 c2 Hp Hv.
    apply Hprice in Hp as (g' & values & cut & hulls & areas & Hv' & _ & Hcut & Hh & Hlen & Ha & ->).
    rewrite Hv in Hv'; injection Hv' as Hc <-.
    rewrite <- Hc in Hlen.
    destruct hulls as [|h1 [|h2 [|h3 hulls]]]; try discriminate.
    inversion Ha as [|? a1 ? areas1 Ha1 Ha']; subst.
    inversion Ha' as [|? a2 ? areas2 Ha2 Ha'']; subst.
    inversion Ha''; subst.
    exists cut, h1, h2, a1, a2, values; repeat split; try assumption.
    cbn [map total fold_right]; lra.
  - intros raw line; unfold process; rewrite json_load_JSONText; cbn [bind]; split.
    + intros E; apply bind_Ok in E as (x & Hx & E); injection E as <-.
      exists x; split; [assumption | reflexivity].
    + intros (x & Hx & ->); rewrite Hx; reflexivity.
Qed.

(* ================================================================= *)
(** ** The pipeline on the 3-4-5 triangle *)

Lemma triangle_Edges :
  Edges triangle
  = Some [("a"%string, line_segment 0 1); ("b"%string, line_segment 1 2);
          ("c"%string, line_segment 2 0)].
Proof. reflexivity. Qed.

Lemma triangle_Vertices :
  Vertices triangle
  = Some [(0%Z, vertex_at 0 0); (1%Z, vertex_at 4 0); (2%Z, vertex_at 0 3)].
Proof. reflexivity. Qed.

Lemma triangle_validate (name : string) :
  validateSchema triangle_library name triangle
  = Ok (nx_cycle_basis triangle_library arc_profile_graph, arc_profile_graph).
Proof. reflexivity. Qed.

Lemma triangle_values :
  computeValues triangle
  = Ok [("a"%string, LineValues 0 1 (distance (0, 0) (4, 0)));
        ("b"%string, LineValues 1 2 (distance (4, 0) (0, 3)));
        ("c"%string, LineValues 2 0 (distance (0, 3) (0, 0)))].
Proof.
  unfold computeValues, schema_Edges; rewrite triangle_Edges; cbn [bind foldM fst snd].
  rewrite (edgeValues_segment _ _ 0 1 (0, 0) (4, 0)) by repeat split; cbn [bind].
  rewrite (edgeValues_segment _ _ 1 2 (4, 0) (0, 3)) by repeat split; cbn [bind].
  rewrite (edgeValues_segment _ _ 2 0 (0, 3) (0, 0)) by repeat split; cbn [bind].
  reflexivity.
Qed.

Lemma triangle_initial_hull :
  computeInnerHull triangle_library triangle arc_profile_graph = Ok [[0; 1; 2]%Z].
Proof.
  unfold computeInnerHull; rewrite findPath_cases.
  cbn [nx_cycle_basis triangle_library bind mapM].
  change (vertex_coords triangle 0) with (@Ok point (0, 0)).
  change (vertex_coords triangle 1) with (@Ok point (4, 0)).
  change (vertex_coords triangle 2) with (@Ok point (0, 3)).
  cbn [bind].
  match goal with
  | |- context [grahams_hull ?l] =>
      replace (grahams_hull l) with [((0, 0) : point); (4, 0); (0, 3)]
        by (symmetry; exact grahams_hull_3_4_5)
  end.
  unfold pointLookup, schema_Vertices; rewrite triangle_Vertices.
  lookup_eval; reflexivity.
Qed.

(** Without arcs the initial hull is final. *)
Lemma triangle_final_hull (values_dict : dict string EdgeValues) :
  computeConvexHull triangle_library triangle arc_profile_graph values_dict
  = Ok [[(0, 0); (4, 0); (0, 3)]].
Proof.
  rewrite computeConvexHull_hull_builder; unfold hull_builder.
  rewrite triangle_initial_hull; cbn [bind]; unfold schema_Edges; rewrite triangle_Edges.
  reflexivity.
Qed.

Lemma price_is_cut_cost_plus_material_witness :
  exists p cut area,
    price triangle_library "triangle.json" triangle = Ok p
    /\ arcLength triangle
         [("a"%string, LineValues 0 1 (distance (0, 0) (4, 0)));
          ("b"%string, LineValues 1 2 (distance (4, 0) (0, 3)));
          ("c"%string, LineValues 2 0 (distance (0, 3) (0, 0)))] = Ok cut
    /\ findMinimumRectangle [(0, 0); (4, 0); (0, 3)] = Ok area
    /\ p = cut + MATERIAL_COST * area.
Proof.
  destruct (arcLength_after_computeValues triangle _ _ triangle_Edges
              (proj1 (schema_of_raw_wf triangle_raw) _ triangle_Edges) triangle_values)
    as (vs & _ & Hcut).
  destruct (findMinimumRectangle_rectangle _ proper_polygon_3_4_5) as (e & _ & _ & Harea).
  eexists _, _, _; split; [|split; [exact Hcut | split; [exact Harea | reflexivity]]].
  apply (proj1 (price_is_cut_cost_plus_material triangle_library "triangle.json" triangle _)).
  eexists arc_profile_graph, _, _, _, [_]; repeat split.
  - apply triangle_values.
  - exact Hcut.
  - apply triangle_final_hull.
  - reflexivity.
  - constructor; [exact Harea | constructor].
  - cbn [map total fold_right]; lra.
Defined.


(* ================================================================= *)
(** ** The hulls of the Graham scan are proper polygons *)

Lemma izip_next_split {A : Type} (c : list A) (p q : A) :
  In (p, q) (izip_next c) -> exists front back, c = front ++ p :: q :: back.
Proof.
  induction c as [|x c IH]; [contradiction|].
  destruct c as [|y c]; [contradiction|].
  rewrite izip_next_cons2; intros [E | Hin].
  - injection E as -> ->; exists [], c; reflexivity.
  - destruct (IH Hin) as (front & back & E); exists (x :: front), back.
    rewrite E; reflexivity.
Qed.

Lemma left_turns_triple (stack front : list point) (q p o : point) (back : list point) :
  left_turns stack -> stack = front ++ q :: p :: o :: back -> 0 < cross o p q.
Proof.
  revert stack; induction front as [|x front IH]; intros stack Hl E; subst stack.
  - inversion Hl; assumption.
  - apply (IH (front ++ q :: p :: o :: back)); [|reflexivity].
    apply (left_turns_tail x); exact Hl.
Qed.

Lemma increasing_pair (le : point -> point -> Prop) (stack front : list point)
    (q p : point) (back : list point) :
  increasing le stack -> stack = front ++ q :: p :: back -> strictly le p q.
Proof.
  revert stack; induction front as [|x front IH]; intros stack Hi E; subst stack.
  - inversion Hi; assumption.
  - apply (IH (front ++ q :: p :: back)); [|reflexivity].
    apply (increasing_tail le x); exact Hi.
Qed.

Lemma cross_rotate (o p q : point) : cross p q o = cross o p q.
Proof. unfold cross; ring. Qed.

(** In a chain of three corners or more every side has a neighbouring
    corner, which is strictly on its left. *)
Lemma chain_side_corner (stack : list point) (p q : point) :
  left_turns stack -> (3 <= length stack)%nat ->
  In (p, q) (izip_next (rev stack)) ->
  exists c, In c stack /\ 0 < cross p q c.
Proof.
  intros Hl Hlen Hin; apply izip_next_split in Hin as (front & back & E).
  assert (Es : stack = rev back ++ q :: p :: rev front).
  { rewrite <- (rev_involutive stack), E, rev_app_distr; cbn [rev].
    rewrite <- !app_assoc; reflexivity. }
  destruct back as [|z back].
  - destruct (exists_last (l := front)) as (front' & o & Ef).
    { intros ->; rewrite Es in Hlen; cbn in Hlen; lia. }
    subst front; rewrite rev_app_distr in Es; cbn [rev app] in Es.
    exists o; split; [rewrite Es; right; right; left; reflexivity|].
    rewrite cross_rotate; apply (left_turns_triple stack [] q p o (rev front')); assumption.
  - exists z; split.
    + rewrite Es; cbn [rev]; apply in_or_app; left; apply in_or_app; right; left; reflexivity.
    + cbn [rev] in Es; rewrite <- app_assoc in Es; cbn [app] in Es.
      apply (left_turns_triple stack (rev back) z q p (rev front)); assumption.
Qed.

(** A corner strictly inside one chain is off the line through the two
    ends, which the other chain joins directly. *)
Lemma lex_between_off_line (a b m y : point) :
  strictly lex_le a b -> lex_le a y -> strictly lex_le y m -> strictly lex_le m b ->
  0 < cross b m y -> 0 <= cross a b y -> cross a b m <> 0.
Proof.
  rewrite !strictly_lex; unfold lex_le, cross.
  destruct a as [ax ay], b as [bx by_], m as [mx my], y as [yx yy]; cbn [fst snd].
  intros [H1|[H1 H1']] [H2|[H2 H2']] [H3|[H3 H3']] [H4|[H4 H4']] H5 H6 H7; try subst; nra.
Qed.

Lemma increasing_ends_differ (le : point -> point -> Prop) (q p : point)
    (rest : list point) (d : point) :
  (forall a, le a a) ->
  (forall a b c, le a b -> le b c -> le a c) ->
  (forall a b, le a b -> le b a -> a = b) ->
  increasing le (q :: p :: rest) -> last (q :: p :: rest) d <> q.
Proof.
  intros Hrefl Htrans Hanti Hinc E.
  inversion Hinc as [| |? ? ? [Hpq Hne] Hinc']; subst.
  assert (Hlast : le (last (q :: p :: rest) d) p).
  { apply (increasing_le_top le Hrefl Htrans p rest); [assumption|].
    change (last (q :: p :: rest) d) with (last (p :: rest) d).
    apply In_last; discriminate. }
  rewrite E in Hlast; apply Hne, Hanti; assumption.
Qed.

(** The two chains of [grahams_hull], in the order of the Python lists: the
    lower chain runs from the least point [lo] to the greatest point [hi],
    the upper chain from [hi] back to [lo]. *)
Lemma grahams_hull_shape (points : list point) :
  points <> [] ->
  exists lo hi l' u',
    rev (chain (sorted points)) = lo :: l'
    /\ rev (chain (rev (sorted points))) = hi :: u'
    /\ last (lo :: l') lo = hi
    /\ last (hi :: u') hi = lo
    /\ grahams_hull points
       = (lo :: l') ++ firstn (length (hi :: u') - 2) (skipn 1 (hi :: u'))
    /\ chain_spec lex_le (sorted points)
    /\ chain_spec lex_ge (rev (sorted points))
    /\ (forall x, In x (sorted points) -> lex_le lo x /\ lex_le x hi).
Proof.
  intros Hpts.
  set (s := sorted points).
  assert (Hs : StronglySorted lex_le s) by apply sorted_StronglySorted.
  assert (Hperm : Permutation points s) by apply sorted_Permutation.
  assert (Hne : s <> []).
  { intros E; rewrite E in Hperm; apply Permutation_sym, Permutation_nil in Hperm.
    contradiction. }
  assert (Hne' : rev s <> []).
  { intros E; apply Hne; rewrite <- (rev_involutive s), E; reflexivity. }
  pose proof (lower_chain_spec s Hs) as HL.
  pose proof (upper_chain_spec (rev s) (StronglySorted_rev_ge s Hs)) as HU.
  destruct s as [|s0 s'] eqn:Es; [congruence|].
  pose proof HL as (HincL & HturnL & HsubL & HleftL & HendsL & HneL).
  pose proof HU as (HincU & HturnU & HsubU & HleftU & HendsU & HneU).
  destruct (HendsL s0 Hne) as [HtopL HbotL].
  destruct (HendsU s0 Hne') as [HtopU HbotU].
  rewrite last_rev in HtopU; rewrite hd_rev in HbotU.
  cbn [hd] in HbotL, HtopU.
  specialize (HneL Hne); specialize (HneU Hne').
  assert (Hl : exists l', rev (chain (s0 :: s')) = s0 :: l').
  { pose proof (hd_rev (chain (s0 :: s')) s0) as Hhd; rewrite HbotL in Hhd.
    destruct (rev (chain (s0 :: s'))) as [|a l'] eqn:El.
    - exfalso; apply HneL; rewrite <- (rev_involutive (chain _)), El; reflexivity.
    - cbn [hd] in Hhd; subst a; exists l'; reflexivity. }
  assert (Hu : exists u', rev (chain (rev (s0 :: s'))) = last (s0 :: s') s0 :: u').
  { pose proof (hd_rev (chain (rev (s0 :: s'))) s0) as Hhd; rewrite HbotU in Hhd.
    destruct (rev (chain (rev (s0 :: s')))) as [|a u'] eqn:Eu.
    - exfalso; apply HneU; rewrite <- (rev_involutive (chain _)), Eu; reflexivity.
    - cbn [hd] in Hhd; subst a; exists u'; reflexivity. }
  destruct Hl as [l' Hl], Hu as [u' Hu].
  exists s0, (last (s0 :: s') s0), l', u'.
  split; [exact Hl|]; split; [exact Hu|]; split; [|split; [|split; [|split; [|split]]]].
  - rewrite <- Hl, last_rev; exact HtopL.
  - rewrite <- Hu, last_rev.
    destruct (HendsU (last (s0 :: s') s0) Hne') as [H _].
    rewrite last_rev in H; exact H.
  - rewrite grahams_hull_chains; fold s; rewrite Es, Hl, <- (length_rev (chain _)), Hu.
    reflexivity.
  - exact HL.
  - exact HU.
  - intros x Hx; split.
    + change s0 with (hd s0 (s0 :: s')); apply StronglySorted_hd_le; assumption.
    + apply StronglySorted_le_last; assumption.
Qed.

(** The sides of the hull are the sides of its two chains. *)
Lemma hull_sides (lo hi : point) (l' u' : list point) (e : point * point) :
  last (lo :: l') lo = hi ->
  last (hi :: u') hi = lo ->
  In e (sides ((lo :: l') ++ firstn (length (hi :: u') - 2) (skipn 1 (hi :: u')))) ->
  In e (izip_next (lo :: l'))
  \/ In e (izip_next (hi :: u'))
  \/ (u' = [] /\ e = (hi, lo)).
Proof.
  intros Hl Hu Hin.
  unfold sides in Hin; rewrite <- app_comm_cons in Hin.
  rewrite app_comm_cons, <- app_assoc in Hin.
  apply (izip_next_app _ _ lo) in Hin as [Hin | Hin]; [left; exact Hin | |discriminate].
  rewrite Hl in Hin; right.
  destruct u' as [|u2 u''].
  - right; split; [reflexivity|].
    destruct Hin as [E | []]; symmetry; exact E.
  - left.
    destruct (exists_last (l := u2 :: u'') ltac:(discriminate)) as (mid & um & Emid).
    rewrite Emid in *.
    assert (Eum : um = lo) by (rewrite <- Hu, app_comm_cons, last_last; reflexivity).
    rewrite firstn_middle in Hin; subst um; exact Hin.
Qed.

Lemma hull_corners (lo hi : point) (l' u' : list point) (x : point) :
  last (lo :: l') lo = hi ->
  last (hi :: u') hi = lo ->
  In x (lo :: l') \/ In x (hi :: u') ->
  In x ((lo :: l') ++ firstn (length (hi :: u') - 2) (skipn 1 (hi :: u'))).
Proof.
  intros Hl Hu [Hx | Hx]; apply in_or_app; [left; exact Hx|].
  destruct Hx as [<- | Hx].
  - left; rewrite <- Hl; apply In_last; discriminate.
  - destruct (exists_last (l := u') ltac:(intros ->; contradiction)) as (mid & um & Emid).
    rewrite Emid in *.
    assert (Eum : um = lo) by (rewrite <- Hu, app_comm_cons, last_last; reflexivity).
    rewrite firstn_middle; subst um.
    apply in_app_or in Hx as [Hx | [<- | []]]; [right; exact Hx | left; left; reflexivity].
Qed.

Lemma rev_eq_cons {A : Type} (stack : list A) (a : A) (l : list A) :
  rev stack = a :: l -> stack = rev l ++ [a].
Proof. intros E; rewrite <- (rev_involutive stack), E; reflexivity. Qed.

Lemma strictly_lex_ge_le (p q : point) : strictly lex_ge p q -> strictly lex_le q p.
Proof. intros [H Hne]; split; [exact H | congruence]. Qed.

(** A hull of three corners or more, as [grahams_hull] returns it, has on
    every side a corner off the line of the side. *)
Lemma grahams_hull_proper (points : list point) :
  (3 <= length (grahams_hull points))%nat -> proper_polygon (grahams_hull points).
Proof.
  intros Hlen.
  assert (Hpts : points <> []) by (intros ->; cbn in Hlen; lia).
  destruct (grahams_hull_shape points Hpts)
    as (lo & hi & l' & u' & Hl & Hu & Hlast_l & Hlast_u & Hhull & HL & HU & Hrange).
  destruct HL as (HincL & HturnL & HsubL & HleftL & _).
  destruct HU as (HincU & HturnU & HsubU & HleftU & _).
  set (L := chain (sorted points)) in *.
  set (U := chain (rev (sorted points))) in *.
  assert (HinU : forall x, In x (hi :: u') -> In x (sorted points)).
  { intros x Hx; rewrite <- Hu in Hx; apply in_rev, HsubU, in_rev; exact Hx. }
  assert (HinL : forall x, In x (lo :: l') -> In x (sorted points)).
  { intros x Hx; rewrite <- Hl in Hx; apply HsubL, in_rev; exact Hx. }
  rewrite Hhull in *; split; [discriminate|].
  intros [p q] He; cbn [fst snd].
  apply hull_sides in He as [He | [He | [Hu' He]]]; try assumption.
  - (* a side of the lower chain *)
    destruct (le_lt_dec 3 (length (lo :: l'))) as [Hlong | Hshort].
    + destruct (chain_side_corner L p q HturnL) as (c & Hc & Hcross).
      * rewrite <- (length_rev L), Hl; exact Hlong.
      * rewrite Hl; exact He.
      * exists c; split; [|lra].
        apply hull_corners; try assumption.
        left; rewrite <- Hl; apply in_rev in Hc; exact Hc.
    + destruct l' as [|x [|x' l'']]; [contradiction | | cbn in Hshort; lia].
      destruct He as [E | []]; injection E as <- <-.
      cbn [last] in Hlast_l; subst x.
      destruct u' as [|m [|y rest]]; [cbn in Hlen; lia | cbn in Hlen; lia |].
      apply rev_eq_cons in Hl; cbn [rev app] in Hl.
      pose proof (rev_eq_cons _ _ _ Hu) as HU'; cbn [rev] in HU'.
      rewrite <- !app_assoc in HU'; cbn [app] in HU'.
      assert (Hturn : 0 < cross hi m y)
        by (apply (left_turns_triple U (rev rest) y m hi []); assumption).
      assert (Hm_hi : strictly lex_le m hi).
      { apply strictly_lex_ge_le.
        apply (increasing_pair lex_ge U (rev rest ++ [y]) m hi []); [assumption|].
        rewrite <- app_assoc; exact HU'. }
      assert (Hy_m : strictly lex_le y m).
      { apply strictly_lex_ge_le.
        apply (increasing_pair lex_ge U (rev rest) y m [hi]); assumption. }
      assert (Hlo_hi : strictly lex_le lo hi).
      { rewrite Hl in HincL; inversion HincL; assumption. }
      assert (Hy : In y (sorted points)) by (apply HinU; right; right; left; reflexivity).
      assert (Hleft : 0 <= cross lo hi y).
      { specialize (HleftL y Hy); rewrite Hl in HleftL; inversion HleftL; assumption. }
      exists m; split.
      * apply hull_corners; [reflexivity | assumption | right; right; left; reflexivity].
      * apply (lex_between_off_line lo hi m y); try assumption.
        apply Hrange, Hy.
  - (* a side of the upper chain *)
    destruct (le_lt_dec 3 (length (hi :: u'))) as [Hlong | Hshort].
    + destruct (chain_side_corner U p q HturnU) as (c & Hc & Hcross).
      * rewrite <- (length_rev U), Hu; exact Hlong.
      * rewrite Hu; exact He.
      * exists c; split; [|lra].
        apply hull_corners; try assumption.
        right; rewrite <- Hu; apply in_rev in Hc; exact Hc.
    + destruct u' as [|x [|x' u'']]; [contradiction | | cbn in Hshort; lia].
      destruct He as [E | []]; injection E as <- <-.
      cbn [last] in Hlast_u; subst x.
      destruct l' as [|m [|y rest]]; [cbn in Hlen; lia | cbn in Hlen; lia |].
      apply rev_eq_cons in Hu; cbn [rev app] in Hu.
      pose proof (rev_eq_cons _ _ _ Hl) as HL'; cbn [rev] in HL'.
      rewrite <- !app_assoc in HL'; cbn [app] in HL'.
      assert (Hturn : 0 < cross lo m y)
        by (apply (left_turns_triple L (rev rest) y m lo []); assumption).
      assert (Hlo_m : strictly lex_le lo m).
      { apply (increasing_pair lex_le L (rev rest ++ [y]) m lo []); [assumption|].
        rewrite <- app_assoc; exact HL'. }
      assert (Hm_y : strictly lex_le m y)
        by (apply (increasing_pair lex_le L (rev rest) y m [lo]); assumption).
      assert (Hhi_lo : strictly lex_ge hi lo).
      { rewrite Hu in HincU; inversion HincU; assumption. }
      assert (Hy : In y (sorted points)) by (apply HinL; right; right; left; reflexivity).
      assert (Hleft : 0 <= cross hi lo y).
      { specialize (HleftU y (proj1 (in_rev _ y) Hy)).
        rewrite Hu in HleftU; inversion HleftU; assumption. }
      exists m; split.
      * apply hull_corners; [assumption | reflexivity | left; right; left; reflexivity].
      * rewrite <- cross_neg.
        apply (lex_between_off_line (neg hi) (neg lo) (neg m) (neg y)).
        -- apply strictly_lex_ge; exact Hhi_lo.
        -- apply lex_le_neg, Hrange, Hy.
        -- apply strictly_lex_ge; split; [apply Hm_y | apply not_eq_sym, Hm_y].
        -- apply strictly_lex_ge; split; [apply Hlo_m | apply not_eq_sym, Hlo_m].
        -- rewrite cross_neg; exact Hturn.
        -- rewrite cross_neg; exact Hleft.
  - (* the upper chain is one point: so is the lower chain *)
    subst u'; cbn [last] in Hlast_u; rewrite Hlast_u in *; clear Hlast_u.
    destruct l' as [|x l'']; [cbn in Hlen; lia|].
    exfalso.
    pose proof (rev_eq_cons _ _ _ Hl) as HL'.
    assert (Htop : hd lo L = lo).
    { rewrite <- (rev_involutive L), Hl, hd_rev; exact Hlast_l. }
    assert (Hbot : last L lo = lo) by (rewrite HL'; apply last_last).
    destruct L as [|t [|t' L']] eqn:EL.
    + cbn in HL'; destruct (rev (x :: l'')); discriminate.
    + apply (f_equal (@length point)) in HL'; rewrite length_app, length_rev in HL'.
      cbn in HL'; lia.
    + cbn [hd] in Htop; subst t.
      apply (increasing_ends_differ lex_le lo t' L' lo lex_le_refl lex_le_trans
               lex_le_antisym HincL Hbot).
Qed.

(* ================================================================= *)
(** ** The rectangle of a Graham-scan hull *)

(** X1. On the hull that [grahams_hull] returns for any points, provided it has
    three corners or more, [findMinimumRectangle] returns the padded
    rectangle of a side of least area. *)
Theorem findMinimumRectangle_of_grahams_hull (points : list point) :
  (3 <= length (grahams_hull points))%nat ->
  exists e,
    In e (sides (grahams_hull points))
    /\ (forall e', In e' (sides (grahams_hull points)) ->
          rect_area e (grahams_hull points) <= rect_area e' (grahams_hull points))
    /\ findMinimumRectangle (grahams_hull points)
       = Ok ((rect_height e (grahams_hull points) + PADDING)
             * (rect_width e (grahams_hull points) + PADDING)).
Proof.
  intros Hlen; apply findMinimumRectangle_rectangle, grahams_hull_proper, Hlen.
Qed.

Lemma length_grahams_hull_3_4_5 :
  Nat.le 3 (length (grahams_hull [(0, 0); (4, 0); (0, 3)])).
Proof.
  match goal with
  | |- context [grahams_hull ?l] =>
      replace (grahams_hull l) with [((0, 0) : point); (4, 0); (0, 3)]
        by (symmetry; exact grahams_hull_3_4_5)
  end.
  cbn [length]; apply Nat.le_refl.
Qed.

Lemma findMinimumRectangle_of_grahams_hull_witness :
  exists e,
    In e (sides (grahams_hull [(0, 0); (4, 0); (0, 3)]))
    /\ (forall e', In e' (sides (grahams_hull [(0, 0); (4, 0); (0, 3)])) ->
          rect_area e (grahams_hull [(0, 0); (4, 0); (0, 3)])
          <= rect_area e' (grahams_hull [(0, 0); (4, 0); (0, 3)]))
    /\ findMinimumRectangle (grahams_hull [(0, 0); (4, 0); (0, 3)])
       = Ok ((rect_height e (grahams_hull [(0, 0); (4, 0); (0, 3)]) + PADDING)
             * (rect_width e (grahams_hull [(0, 0); (4, 0); (0, 3)]) + PADDING)).
Proof.
  exact (findMinimumRectangle_of_grahams_hull [(0, 0); (4, 0); (0, 3)]
           length_grahams_hull_3_4_5).
Defined.

(** X2. With one or two corners no hull point is off a side: [caliper_sizes]
    stays empty and [min] raises [ValueError]; an empty hull has no
    [hull[0]]. *)
Theorem findMinimumRectangle_few_corners (a b : point) :
  findMinimumRectangle [] = Raise IndexError
  /\ findMinimumRectangle [a] = Raise ValueError
  /\ findMinimumRectangle [a; b] = Raise ValueError.
Proof.
  split; [reflexivity|]; split; unfold findMinimumRectangle;
    cbn [index_at nth_error bind app izip_next combine skipn product list_prod map
         filter fst snd];
    rewrite ?eqb_refl; cbn [negb andb filter app];
    rewrite ?eqb_refl; cbn [negb andb filter app]; rewrite ?andb_false_r;
    cbn [list_prod map app foldM bind min_by_value]; reflexivity.
Qed.

(* ================================================================= *)
(** ** The hull builder on a profile with an arc *)

Lemma distance_m3_4_to_origin : distance (-3, 4) (0, 0) = 5.
Proof.
  unfold distance; cbn [fst snd].
  replace ((0 - -3) ^ 2 + (0 - 4) ^ 2) with (5 * 5) by lra.
  apply sqrt_square; lra.
Qed.

Lemma distance_m3_4_to_3_4 : distance (-3, 4) (3, 4) = 6.
Proof.
  unfold distance; cbn [fst snd].
  replace ((3 - -3) ^ 2 + (4 - 4) ^ 2) with (6 * 6) by lra.
  apply sqrt_square; lra.
Qed.

Lemma distance_3_4_to_origin : distance (3, 4) (0, 0) = 5.
Proof.
  unfold distance; cbn [fst snd].
  replace ((0 - 3) ^ 2 + (0 - 4) ^ 2) with (5 * 5) by lra.
  apply sqrt_square; lra.
Qed.

Lemma distance_3_4_to_m3_4 : distance (3, 4) (-3, 4) = 6.
Proof.
  unfold distance; cbn [fst snd].
  replace ((-3 - 3) ^ 2 + (4 - 4) ^ 2) with (6 * 6) by lra.
  apply sqrt_square; lra.
Qed.

Lemma bulge_values : computeValues bulge_profile = Ok bulge_values_dict.
Proof.
  unfold bulge_profile; rewrite computeValues_arc_profile_Ok.
  - unfold arc_entry, bulge_box, bulge_values_dict.
    rewrite distance_m3_4_to_origin, distance_m3_4_to_3_4; cbn [fst snd].
    replace (5 ^ 2 - 6 ^ 2 / 4) with (4 * 4) by lra.
    rewrite sqrt_square by lra.
    do 3 f_equal; f_equal; [f_equal; lra | lra |].
    repeat (f_equal; try lra).
  - rewrite distance_m3_4_to_origin, distance_m3_4_to_3_4; lra.
Qed.

Lemma exchanged_values : computeValues exchanged_profile = Ok exchanged_values_dict.
Proof.
  unfold exchanged_profile; rewrite computeValues_arc_profile_Ok.
  - unfold arc_entry, bulge_box, exchanged_values_dict.
    rewrite distance_3_4_to_origin, distance_3_4_to_m3_4; cbn [fst snd].
    replace (5 ^ 2 - 6 ^ 2 / 4) with (4 * 4) by lra.
    rewrite sqrt_square by lra.
    do 3 f_equal; f_equal; [f_equal; lra | lra |].
    repeat (f_equal; try lra).
  - rewrite distance_3_4_to_origin, distance_3_4_to_m3_4; lra.
Qed.

Lemma grahams_hull_bulge_corners :
  grahams_hull [(-3, 4); (3, 4); (0, 2)] = [(-3, 4); (0, 2); (3, 4)].
Proof. unfold grahams_hull; hull_eval; reflexivity. Qed.

Lemma grahams_hull_exchanged_corners :
  grahams_hull [(3, 4); (-3, 4); (0, 2)] = [(-3, 4); (0, 2); (3, 4)].
Proof. unfold grahams_hull; hull_eval; reflexivity. Qed.

Lemma grahams_hull_hull_corners :
  grahams_hull [(-3, 4); (0, 2); (3, 4)] = [(-3, 4); (0, 2); (3, 4)].
Proof. unfold grahams_hull; hull_eval; reflexivity. Qed.

Lemma grahams_hull_bulge_box :
  grahams_hull [(-3, 4); (0, 2); (3, 4); (-3, 3); (-3, 5); (3, 5); (3, 3)]
  = [(-3, 3); (0, 2); (3, 3); (3, 5); (-3, 5)].
Proof. unfold grahams_hull; hull_eval; reflexivity. Qed.

Lemma bulge_Vertices :
  Vertices bulge_profile
  = Some [(0%Z, vertex_at (-3) 4); (1%Z, vertex_at 3 4); (2%Z, vertex_at 0 2)].
Proof. reflexivity. Qed.

Lemma exchanged_Vertices :
  Vertices exchanged_profile
  = Some [(0%Z, vertex_at 3 4); (1%Z, vertex_at (-3) 4); (2%Z, vertex_at 0 2)].
Proof. reflexivity. Qed.

Lemma bulge_initial_hull :
  computeInnerHull triangle_library bulge_profile arc_profile_graph = Ok [[0; 2; 1]%Z].
Proof.
  unfold computeInnerHull; rewrite findPath_cases.
  cbn [nx_cycle_basis triangle_library bind mapM].
  change (vertex_coords bulge_profile 0) with (@Ok point (-3, 4)).
  change (vertex_coords bulge_profile 1) with (@Ok point (3, 4)).
  change (vertex_coords bulge_profile 2) with (@Ok point (0, 2)).
  cbn [bind].
  match goal with
  | |- context [grahams_hull ?l] =>
      replace (grahams_hull l) with [((-3, 4) : point); (0, 2); (3, 4)]
        by (symmetry; exact grahams_hull_bulge_corners)
  end.
  unfold pointLookup, schema_Vertices; rewrite bulge_Vertices.
  lookup_eval; reflexivity.
Qed.

Lemma exchanged_initial_hull :
  computeInnerHull triangle_library exchanged_profile arc_profile_graph
  = Ok [[1; 2; 0]%Z].
Proof.
  unfold computeInnerHull; rewrite findPath_cases.
  cbn [nx_cycle_basis triangle_library bind mapM].
  change (vertex_coords exchanged_profile 0) with (@Ok point (3, 4)).
  change (vertex_coords exchanged_profile 1) with (@Ok point (-3, 4)).
  change (vertex_coords exchanged_profile 2) with (@Ok point (0, 2)).
  cbn [bind].
  match goal with
  | |- context [grahams_hull ?l] =>
      replace (grahams_hull l) with [((-3, 4) : point); (0, 2); (3, 4)]
        by (symmetry; exact grahams_hull_exchanged_corners)
  end.
  unfold pointLookup, schema_Vertices; rewrite exchanged_Vertices.
  lookup_eval; reflexivity.
Qed.

(** Walking the hull 0, 2, 1 of [bulge_profile]: only the closing side, from
    vertex 1 back to vertex 0, meets the arc, and the arc's start vertex 0
    comes after its finish vertex 1 on the path [1; 0]. *)
Lemma bulge_extrusions :
  extrusions_between triangle_library bulge_profile arc_profile_graph bulge_values_dict 0 2
  = Ok []
  /\ extrusions_between triangle_library bulge_profile arc_profile_graph bulge_values_dict 2 1
     = Ok []
  /\ extrusions_between triangle_library bulge_profile arc_profile_graph bulge_values_dict 1 0
     = Ok ["arc"%string].
Proof. repeat split; reflexivity. Qed.

(** Walking the hull 1, 2, 0 of [exchanged_profile]: the closing side goes
    from vertex 0 to vertex 1, the arc's start vertex comes first on the path
    [0; 1] and the arc is left out. *)
Lemma exchanged_extrusions :
  extrusions_between triangle_library exchanged_profile arc_profile_graph
    exchanged_values_dict 1 2 = Ok []
  /\ extrusions_between triangle_library exchanged_profile arc_profile_graph
       exchanged_values_dict 2 0 = Ok []
  /\ extrusions_between triangle_library exchanged_profile arc_profile_graph
       exchanged_values_dict 0 1 = Ok [].
Proof. repeat split; reflexivity. Qed.

Lemma arc_profile_has_arc (p0 p1 : point) :
  schema_Edges (arc_profile p0 p1)
  = Ok [("arc"%string, circular_arc 0 1 0 0 0);
        ("s1"%string, line_segment 1 2);
        ("s2"%string, line_segment 2 0)].
Proof. reflexivity. Qed.

Lemma bulge_final_hull :
  computeConvexHull triangle_library bulge_profile arc_profile_graph bulge_values_dict
  = Ok [[(-3, 3); (0, 2); (3, 3); (3, 5); (-3, 5)]].
Proof.
  unfold computeConvexHull.
  rewrite bulge_initial_hull; cbn [bind].
  unfold bulge_profile at 1; rewrite arc_profile_has_arc; cbn [bind].
  match goal with
  | |- context [(length ?l =? 0)%nat] => change (length l =? 0)%nat with false
  end.
  cbn [mapM bind].
  change (vertex_coords bulge_profile 0) with (@Ok point (-3, 4)).
  change (vertex_coords bulge_profile 1) with (@Ok point (3, 4)).
  change (vertex_coords bulge_profile 2) with (@Ok point (0, 2)).
  cbn [bind index_at nth_error app izip_next combine skipn foldM fst snd].
  destruct bulge_extrusions as (-> & -> & ->).
  cbn [bind foldM].
  change (getitem bulge_values_dict "arc"%string)
    with (Ok (ArcValues 0 1 (0, 0) 5 6 (0, 4) (2 * 5 * asin (6 / (2 * 5))) 1
                [(-3, 3); (-3, 5); (3, 5); (3, 3)])).
  cbn [bind box_points app].
  match goal with
  | |- context [grahams_hull ?l] =>
      replace (grahams_hull l) with [((-3, 3) : point); (0, 2); (3, 3); (3, 5); (-3, 5)]
        by (symmetry; exact grahams_hull_bulge_box)
  end.
  reflexivity.
Qed.

Lemma exchanged_final_hull :
  computeConvexHull triangle_library exchanged_profile arc_profile_graph
    exchanged_values_dict
  = Ok [[(-3, 4); (0, 2); (3, 4)]].
Proof.
  unfold computeConvexHull.
  rewrite exchanged_initial_hull; cbn [bind].
  unfold exchanged_profile at 1; rewrite arc_profile_has_arc; cbn [bind].
  match goal with
  | |- context [(length ?l =? 0)%nat] => change (length l =? 0)%nat with false
  end.
  cbn [mapM bind].
  change (vertex_coords exchanged_profile 0) with (@Ok point (3, 4)).
  change (vertex_coords exchanged_profile 1) with (@Ok point (-3, 4)).
  change (vertex_coords exchanged_profile 2) with (@Ok point (0, 2)).
  cbn [bind index_at nth_error app izip_next combine skipn foldM fst snd].
  destruct exchanged_extrusions as (-> & -> & ->).
  cbn [bind foldM].
  match goal with
  | |- context [grahams_hull ?l] =>
      replace (grahams_hull l) with [((-3, 4) : point); (0, 2); (3, 4)]
        by (symmetry; exact grahams_hull_hull_corners)
  end.
  reflexivity.
Qed.

(** On the profile whose arc runs from (-3,4) to (3,4) around the origin the
    arc is met on the closing side of the initial hull with its start vertex
    after its finish vertex: its four box points join the corners and the
    final hull reaches up to y = 5.  With the two vertices of the arc
    exchanged the start vertex comes first on that path, the arc is not an
    extrusion and the final hull is the initial one. *)
Theorem computeConvexHull_arc_extrusion :
  (exists values,
     computeValues bulge_profile = Ok values
     /\ computeConvexHull triangle_library bulge_profile arc_profile_graph values
        = Ok [[(-3, 3); (0, 2); (3, 3); (3, 5); (-3, 5)]])
  /\ (exists values,
        computeValues exchanged_profile = Ok values
        /\ computeConvexHull triangle_library exchanged_profile arc_profile_graph values
           = Ok [[(-3, 4); (0, 2); (3, 4)]]).
Proof.
  split.
  - exists bulge_values_dict; split; [apply bulge_values | apply bulge_final_hull].
  - exists exchanged_values_dict; split; [apply exchanged_values | apply exchanged_final_hull].
Qed.

(* ================================================================= *)
(** * Further properties of the code *)

(** ** What [validateSchema] raises *)





(* ================================================================= *)
(** ** Reverse lookups *)

(** [[k for k in d.keys() if test(k)][0]]: the first key that passes, or
    [IndexError]. *)
Lemma first_match {K V : Type} (test : K * V -> bool) (d : dict K V) :
  match index_at (map fst (filter test d)) 0 with
  | Ok k =>
      exists before v after,
        d = before ++ (k, v) :: after
        /\ test (k, v) = true
        /\ Forall (fun kv => test kv = false) before
  | Raise e => e = IndexError /\ Forall (fun kv => test kv = false) d
  end.
Proof.
  induction d as [|[k v] d IH]; cbn [filter].
  - split; [reflexivity | constructor].
  - destruct (test (k, v)) eqn:Et.
    + exists [], v, d; repeat split; [assumption | constructor].
    + destruct (index_at (map fst (filter test d)) 0) as [k'|e].
      * destruct IH as (before & v' & after & -> & Ht & Hb).
        exists ((k, v) :: before), v', after; repeat split; [assumption|].
        constructor; assumption.
      * destruct IH as [-> Hall]; split; [reflexivity | constructor; assumption].
Qed.

Lemma at_position (kv : Z * Vertex) (xy : point) :
  eqb (X (Position (snd kv))) (fst xy) && eqb (Y (Position (snd kv))) (snd xy) = true
  <-> position_of (snd kv) = xy.
Proof.
  unfold position_of; destruct xy as [x y]; cbn [fst snd].
  rewrite andb_true_iff, !eqb_true; split.
  - intros [-> ->]; reflexivity.
  - intros E; injection E as -> ->; split; reflexivity.
Qed.

(** X4. [pointLookup] returns the first vertex id, in the order of
    ["Vertices"], whose position is the given one; it raises [IndexError]
    when no vertex is there and [KeyError] when the schema has no
    ["Vertices"]. *)
Theorem pointLookup_first_vertex_at (schema : Schema) (xy : point) :
  match Vertices schema with
  | None => pointLookup xy schema = Raise KeyError
  | Some vs =>
      match pointLookup xy schema with
      | Ok k =>
          exists before v after,
            vs = before ++ (k, v) :: after
            /\ position_of v = xy
            /\ Forall (fun kv => position_of (snd kv) <> xy) before
      | Raise e =>
          e = IndexError /\ Forall (fun kv => position_of (snd kv) <> xy) vs
      end
  end.
Proof.
  unfold pointLookup, schema_Vertices.
  destruct (Vertices schema) as [vs|]; [|reflexivity]; cbn [bind].
  pose proof (first_match
                (fun kv : Z * Vertex =>
                   eqb (X (Position (snd kv))) (fst xy)
                   && eqb (Y (Position (snd kv))) (snd xy)) vs) as H.
  assert (Hoff : forall l : list (Z * Vertex),
             Forall (fun kv => eqb (X (Position (snd kv))) (fst xy)
                               && eqb (Y (Position (snd kv))) (snd xy) = false) l ->
             Forall (fun kv => position_of (snd kv) <> xy) l).
  { intros l; apply Forall_impl; intros kv Hkv E.
    apply at_position in E; congruence. }
  destruct (index_at _ 0) as [k|e].
  - destruct H as (before & v & after & -> & Ht & Hb).
    exists before, v, after; repeat split; [apply (at_position (k, v)), Ht | auto].
  - destruct H as [-> Hall]; split; [reflexivity | auto].
Qed.

(** X5. Looking a vertex up by its own position gives the vertex back when no
    other vertex shares the position. *)
Theorem pointLookup_vertex_coords (schema : Schema) (id : Z) (p : point) :
  Schema_wf schema ->
  (forall id', vertex_coords schema id' = Ok p -> id' = id) ->
  vertex_coords schema id = Ok p ->
  pointLookup p schema = Ok id.
Proof.
  intros Hwf Hone Hid.
  destruct (pointLookup_position schema id p Hwf Hid) as (k & Hk & Hpos).
  rewrite Hk, (Hone k Hpos); reflexivity.
Qed.

Lemma triangle_only_vertex_at_origin (id' : Z) :
  vertex_coords triangle id' = Ok (0, 0) -> id' = 0%Z.
Proof.
  intros H; apply vertex_coords_Ok in H as (vs & v & Hvs & Hin & Hp).
  rewrite triangle_Vertices in Hvs; injection Hvs as <-.
  destruct Hin as [E | [E | [E | []]]]; injection E as <- <-.
  - reflexivity.
  - exfalso; cbn in Hp; inversion Hp; lra.
  - exfalso; cbn in Hp; inversion Hp; lra.
Qed.

Lemma pointLookup_vertex_coords_witness : pointLookup (0, 0) triangle = Ok 0%Z.
Proof.
  apply (pointLookup_vertex_coords triangle 0 (0, 0)).
  - apply schema_of_raw_wf.
  - exact triangle_only_vertex_at_origin.
  - reflexivity.
Defined.

Lemma joins_test (x y : Z) (kv : string * Edge) :
  contains x (EVertices (snd kv)) && contains y (EVertices (snd kv)) = true
  <-> joins x y (snd kv).
Proof. unfold joins; rewrite andb_true_iff, !contains_In; reflexivity. Qed.

(** X6. [edgeLookup] returns the first edge id, in the order of ["Edges"], whose
    vertex list holds both ids, whichever way round they are given; it
    raises [IndexError] when no edge joins them and [KeyError] when the schema
    has no ["Edges"]. *)
Theorem edgeLookup_first_edge_joining (schema : Schema) (x y : Z) :
  edgeLookup (x, y) schema = edgeLookup (y, x) schema
  /\ match Edges schema with
     | None => edgeLookup (x, y) schema = Raise KeyError
     | Some es =>
         match edgeLookup (x, y) schema with
         | Ok k =>
             exists before edge after,
               es = before ++ (k, edge) :: after
               /\ joins x y edge
               /\ Forall (fun kv => ~ joins x y (snd kv)) before
         | Raise e =>
             e = IndexError /\ Forall (fun kv => ~ joins x y (snd kv)) es
         end
     end.
Proof.
  unfold edgeLookup, schema_Edges; cbn [fst snd]; split.
  - destruct (Edges schema) as [es|]; [|reflexivity]; cbn [bind].
    do 2 f_equal; apply filter_ext; intros kv; apply andb_comm.
  - destruct (Edges schema) as [es|]; [|reflexivity]; cbn [bind].
    pose proof (first_match
                  (fun kv : string * Edge =>
                     contains x (EVertices (snd kv)) && contains y (EVertices (snd kv)))
                  es) as H.
    assert (Hoff : forall l : list (string * Edge),
               Forall (fun kv => contains x (EVertices (snd kv))
                                 && contains y (EVertices (snd kv)) = false) l ->
               Forall (fun kv => ~ joins x y (snd kv)) l).
    { intros l; apply Forall_impl; intros kv Hkv E.
      apply joins_test in E; congruence. }
    destruct (index_at _ 0) as [k|e].
    + destruct H as (before & v & after & -> & Ht & Hb).
      exists before, v, after; repeat split; try (apply (joins_test x y (k, v)), Ht); auto.
    + destruct H as [-> Hall]; split; [reflexivity | auto].
Qed.

(* ================================================================= *)
(** ** The lines [main] prints *)

Lemma process_raises (lib : Library) (s : string) (f : file) (e : exn) :
  process lib s f = Raise e ->
  prepare lib s f = Raise e
  \/ exists data graph values,
       prepare lib s f = Ok (data, graph, values)
       /\ quote lib data graph values = Raise e.
Proof.
  rewrite process_phases.
  destruct (prepare lib s f) as [[[data graph] values]|e']; cbn [bind fst snd].
  - intros E; right; exists data, graph, values; split; [reflexivity|].
    destruct (quote lib data graph values); cbn [bind] in E;
      [discriminate | injection E as ->; reflexivity].
  - intros E; left; injection E as ->; reflexivity.
Qed.

(** X7. [main] prints one line for each file, in order, up to the first file
    whose processing raises something else than [ValueError]; that
    exception ends the run, and a run that is not ended this way prints a
    line for every file.  The name of a file is written as soon as the
    [print] statement is reached: when [arcLength] or [rotateCalipers] then
    raise [ValueError], the message of the [except] branch follows the name
    on the same line; when they raise anything else, the name is the last
    thing printed. *)
Theorem main_prints_a_line_per_file (lib : Library) (schemas : list (string * file)) :
  exists n lines tail,
    fst (main lib schemas) = lines ++ tail
    /\ Forall2 (printed lib) (firstn n schemas) lines
    /\ match snd (main lib schemas) with
       | None => n = length schemas /\ tail = []
       | Some e =>
           e <> ValueError
           /\ exists sf, nth_error schemas n = Some sf /\ ended lib sf e tail
       end.
Proof.
  induction schemas as [|[s f] rest IH].
  - exists O, [], []; split; [reflexivity|]; split; [constructor | split; reflexivity].
  - rewrite main_cons; destruct IH as (n & lines & tail & Hout & Hlines & Hend).
    destruct (process lib s f) as [line|e] eqn:E.
    + exists (S n), (line :: lines), tail; cbn [fst snd firstn]; split; [|split].
      * rewrite Hout; reflexivity.
      * constructor; [left; exact E | exact Hlines].
      * destruct (snd (main lib rest)); [exact Hend|].
        destruct Hend as [-> ->]; split; reflexivity.
    + assert (Hstop : e <> ValueError ->
                exists n lines tail,
                  left_on_output lib s f = lines ++ tail
                  /\ Forall2 (printed lib) (firstn n ((s, f) :: rest)) lines
                  /\ e <> ValueError
                  /\ exists sf, nth_error ((s, f) :: rest) n = Some sf
                                /\ ended lib sf e tail).
      { intros Hne; exists O, [], (left_on_output lib s f).
        split; [reflexivity|]; split; [constructor|]; split; [exact Hne|].
        exists (s, f); split; [reflexivity|].
        unfold ended, left_on_output, name_written; cbn [fst snd].
        destruct (process_raises lib s f e E) as [Hp | (data & graph & values & Hp & Hq)].
        - left; rewrite Hp; split; reflexivity.
        - right; exists data, graph, values; rewrite Hp; repeat split; exact Hq. }
      destruct e; try (apply Hstop; discriminate).
      clear Hstop; exists (S n), (reported lib s f :: lines), tail.
      cbn [fst snd firstn]; split; [|split].
      * rewrite Hout; reflexivity.
      * constructor; [|exact Hlines].
        unfold printed, reported, name_written; cbn [fst snd].
        destruct (process_raises lib s f ValueError E)
          as [Hp | (data & graph & values & Hp & Hq)].
        -- right; left; rewrite Hp; split; reflexivity.
        -- right; right; exists data, graph, values; rewrite Hp; repeat split; exact Hq.
      * destruct (snd (main lib rest)); [exact Hend|].
        destruct Hend as [-> ->]; split; reflexivity.
Qed.

(* ================================================================= *)
(** ** The geometry [computeValues] stores for an arc *)

Lemma asin_at_least (x : R) : 0 <= x <= 1 -> x <= asin x <= PI / 2.
Proof.
  intros Hx; split; [|apply asin_bound].
  assert (Hs : sin (asin x) = x) by (apply sin_asin; lra).
  destruct (asin_bound x) as [Hlo Hhi].
  assert (H0 : 0 <= asin x).
  { pose proof PI_RGT_0; apply sin_incr_0; try lra.
    rewrite sin_0, Hs; lra. }
  destruct (Req_dec (asin x) 0) as [E | Hne].
  - rewrite E in Hs; rewrite sin_0 in Hs; lra.
  - pose proof (sin_lt_x (asin x)); lra.
Qed.

Lemma distance_square (p q : point) :
  distance p q ^ 2 = (fst q - fst p) ^ 2 + (snd q - snd p) ^ 2.
Proof.
  unfold distance; rewrite <- Rsqr_pow2, Rsqr_sqrt; [reflexivity|].
  apply sum_squares_nonneg.
Qed.

(** The sagitta [r - sqrt (r^2 - ch^2/4)] of a chord [ch] no longer than the
    diameter. *)
Lemma sagitta_bounds (r ch : R) :
  0 < ch <= 2 * r ->
  let sh := r - sqrt (r ^ 2 - ch ^ 2 / 4) in
  0 < sh <= r /\ sh * (2 * r - sh) = ch ^ 2 / 4.
Proof.
  intros Hch sh.
  assert (Harg : 0 <= r ^ 2 - ch ^ 2 / 4) by nra.
  pose proof (sqrt_pos (r ^ 2 - ch ^ 2 / 4)) as Hq.
  pose proof (sqrt_sqrt _ Harg) as Hqq.
  subst sh; set (q := sqrt (r ^ 2 - ch ^ 2 / 4)) in *.
  repeat split; nra.
Qed.

(** X8. The entry [computeValues] stores for an accepted arc: the chord is
    positive and no longer than the diameter, the sagitta lies between 0 and
    the radius and satisfies the intersecting-chords relation, and the arc
    length lies between the chord and half the circle: the arc priced is
    always the minor arc. *)
Theorem arc_entry_within_half_circle (schema : Schema) (edge : Edge) (v : EdgeValues) :
  is_LineSegment edge = false ->
  edgeValues schema edge = Ok v ->
  exists s f c r ch mid sl sh bp,
    v = ArcValues s f c r ch mid sl sh bp
    /\ 0 < ch <= 2 * r
    /\ 0 < sh <= r
    /\ sh * (2 * r - sh) = ch ^ 2 / 4
    /\ ch <= sl <= PI * r
    /\ length bp = 4%nat.
Proof.
  intros Hline Hv; apply edgeValues_entry in Hv; unfold edge_entry in Hv.
  rewrite Hline in Hv; destruct Hv as (s & f & ps & pf & c & _ & Hch & ->).
  unfold arc_entry, bulge_box.
  set (r := distance ps c) in *; set (ch := distance ps pf) in *.
  do 9 eexists; split; [reflexivity|].
  destruct (sagitta_bounds r ch Hch) as [Hsh Hrel].
  assert (Hratio : 0 <= ch / (2 * r) <= 1).
  { split.
    - unfold Rdiv; apply Rmult_le_pos; [lra | left; apply Rinv_0_lt_compat; lra].
    - replace 1 with (2 * r / (2 * r)) by (field; lra).
      apply div_le_compat; lra. }
  destruct (asin_at_least _ Hratio) as [Hlow Hhigh].
  split; [exact Hch|]; split; [exact Hsh|]; split; [exact Hrel|].
  split; [split | reflexivity].
  - replace ch with (2 * r * (ch / (2 * r))) at 1 by (field; lra).
    apply Rmult_le_compat_l; lra.
  - replace (PI * r) with (2 * r * (PI / 2)) by field.
    apply Rmult_le_compat_l; lra.
Qed.

Lemma arc_profile_5_0_to_2_4_entry :
  edgeValues (arc_profile (5, 0) (2, 4)) (circular_arc 0 1 0 0 0)
  = Ok (arc_entry 0 1 (5, 0) (2, 4) (0, 0)).
Proof.
  rewrite (edgeValues_arc _ _ 0 1 (5, 0) (2, 4) (0, 0))
    by (reflexivity || apply arc_profile_ends).
  apply arc_geometry_accepts, arc_5_0_to_2_4_accepted.
Qed.

Lemma arc_entry_within_half_circle_witness :
  exists s f c r ch mid sl sh bp,
    arc_entry 0 1 (5, 0) (2, 4) (0, 0) = ArcValues s f c r ch mid sl sh bp
    /\ 0 < ch <= 2 * r
    /\ 0 < sh <= r
    /\ sh * (2 * r - sh) = ch ^ 2 / 4
    /\ ch <= sl <= PI * r
    /\ length bp = 4%nat.
Proof.
  exact (arc_entry_within_half_circle (arc_profile (5, 0) (2, 4)) (circular_arc 0 1 0 0 0)
           _ eq_refl arc_profile_5_0_to_2_4_entry).
Defined.

Lemma offset_length (sh ch dx dy : R) :
  0 <= sh -> 0 < ch -> ch ^ 2 = dx ^ 2 + dy ^ 2 ->
  sqrt ((sh * dy / ch) ^ 2 + (sh * dx / ch) ^ 2) = sh.
Proof.
  intros Hsh Hch Hsq.
  replace ((sh * dy / ch) ^ 2 + (sh * dx / ch) ^ 2) with (sh * sh).
  - apply sqrt_square; assumption.
  - replace ((sh * dy / ch) ^ 2 + (sh * dx / ch) ^ 2)
      with (sh * sh * (dx ^ 2 + dy ^ 2) / ch ^ 2) by (field; lra).
    rewrite <- Hsq; field; lra.
Qed.

(** X9. The four box points of an accepted arc are the corners of a rectangle
    laid along the chord: the first two lie on either side of the start
    vertex and the last two on either side of the finish vertex, each at the
    distance of the sagitta from its vertex, on the perpendicular of the
    chord.  The box reaches as far on the side of the centre as on the side
    of the bulge. *)
Theorem box_points_rectangle_on_chord (schema : Schema) (edge : Edge) (v : EdgeValues) :
  is_LineSegment edge = false ->
  edgeValues schema edge = Ok v ->
  exists s f ps pf c sh b0 b1 b2 b3,
    arc_ends schema edge s f ps pf c
    /\ sector_height v = Ok sh
    /\ box_points v = Ok [b0; b1; b2; b3]
    /\ (distance ps b0 = sh /\ distance ps b1 = sh
        /\ distance pf b2 = sh /\ distance pf b3 = sh)
    /\ (dot ps pf b0 = 0 /\ dot ps pf b1 = 0 /\ dot pf ps b2 = 0 /\ dot pf ps b3 = 0)
    /\ (fst b0 + fst b1 = 2 * fst ps /\ snd b0 + snd b1 = 2 * snd ps
        /\ fst b2 + fst b3 = 2 * fst pf /\ snd b2 + snd b3 = 2 * snd pf)
    /\ (fst b3 - fst b0 = fst pf - fst ps /\ snd b3 - snd b0 = snd pf - snd ps
        /\ fst b2 - fst b1 = fst pf - fst ps /\ snd b2 - snd b1 = snd pf - snd ps).
Proof.
  intros Hline Hv; apply edgeValues_entry in Hv; unfold edge_entry in Hv.
  rewrite Hline in Hv; destruct Hv as (s & f & ps & pf & c & Hends & Hch & ->).
  destruct (sagitta_bounds _ _ Hch) as [Hsh _].
  pose proof (distance_square ps pf) as Hsq.
  unfold arc_entry, bulge_box.
  set (r := distance ps c) in *; set (ch := distance ps pf) in *.
  set (sh := r - sqrt (r ^ 2 - ch ^ 2 / 4)) in *.
  exists s, f, ps, pf, c, sh; do 4 eexists.
  split; [exact Hends|]; split; [reflexivity|]; split; [reflexivity|].
  destruct ps as [sx sy], pf as [fx fy]; cbn [fst snd] in *.
  set (dx := fx - sx) in *; set (dy := fy - sy) in *.
  assert (Hlen : sqrt ((sh * dy / ch) ^ 2 + (sh * dx / ch) ^ 2) = sh)
    by (apply offset_length; lra).
  split; [|split; [|split]].
  - unfold distance; cbn [fst snd];
      repeat split; (etransitivity; [|exact Hlen]); f_equal; unfold dx, dy; field; lra.
  - unfold dot; cbn [fst snd]; repeat split; unfold dx, dy; field; lra.
  - repeat split; unfold dx, dy; field; lra.
  - repeat split; unfold dx, dy; field; lra.
Qed.

Lemma box_points_rectangle_on_chord_witness :
  exists s f ps pf c sh b0 b1 b2 b3,
    arc_ends (arc_profile (5, 0) (2, 4)) (circular_arc 0 1 0 0 0) s f ps pf c
    /\ sector_height (arc_entry 0 1 (5, 0) (2, 4) (0, 0)) = Ok sh
    /\ box_points (arc_entry 0 1 (5, 0) (2, 4) (0, 0)) = Ok [b0; b1; b2; b3]
    /\ (distance ps b0 = sh /\ distance ps b1 = sh
        /\ distance pf b2 = sh /\ distance pf b3 = sh)
    /\ (dot ps pf b0 = 0 /\ dot ps pf b1 = 0 /\ dot pf ps b2 = 0 /\ dot pf ps b3 = 0)
    /\ (fst b0 + fst b1 = 2 * fst ps /\ snd b0 + snd b1 = 2 * snd ps
        /\ fst b2 + fst b3 = 2 * fst pf /\ snd b2 + snd b3 = 2 * snd pf)
    /\ (fst b3 - fst b0 = fst pf - fst ps /\ snd b3 - snd b0 = snd pf - snd ps
        /\ fst b2 - fst b1 = fst pf - fst ps /\ snd b2 - snd b1 = snd pf - snd ps).
Proof.
  exact (box_points_rectangle_on_chord (arc_profile (5, 0) (2, 4)) (circular_arc 0 1 0 0 0)
           _ eq_refl arc_profile_5_0_to_2_4_entry).
Defined.

(* ================================================================= *)
(** ** Bounds on the price *)

(** An arc costs at least what a straight cut of its length costs. *)
Lemma cut_cost_at_least_straight (schema : Schema) (edge : Edge) (v : EdgeValues) :
  edge_entry schema edge v ->
  0 <= cut_length v / LASER_SPEED * TIME_COST <= cut_cost v.
Proof.
  unfold edge_entry, cut_cost, LASER_SPEED, TIME_COST; destruct (is_LineSegment edge).
  - intros (s & f & ps & pf & _ & ->); cbn [cut_length effective_speed].
    pose proof (distance_nonneg ps pf); unfold LASER_SPEED; lra.
  - intros (s & f & ps & pf & c & _ & Hd & ->).
    unfold arc_entry; cbn [cut_length effective_speed].
    set (r := distance ps c) in *; set (ch := distance ps pf) in *.
    set (sl := 2 * r * asin (ch / (2 * r))).
    assert (Hsl : 0 <= sl).
    { assert (Hratio : 0 <= ch / (2 * r) <= 1).
      { split.
        - unfold Rdiv; apply Rmult_le_pos; [lra | left; apply Rinv_0_lt_compat; lra].
        - replace 1 with (2 * r / (2 * r)) by (field; lra).
          apply div_le_compat; lra. }
      destruct (asin_at_least _ Hratio) as [Hlow _].
      unfold sl; apply Rmult_le_pos; lra. }
    assert (He : 0 < exp (-1 / r) < 1).
    { split; [apply exp_pos|].
      rewrite <- exp_0; apply exp_increasing.
      assert (0 < / r) by (apply Rinv_0_lt_compat; lra).
      unfold Rdiv; lra. }
    set (e := exp (-1 / r)) in *; unfold LASER_SPEED.
    replace (sl / (1 / 2) * (7 / 100)) with (sl * (7 / 50)) by field.
    replace (sl / (1 / 2 * e) * (7 / 100)) with (sl * (7 / 50) / e) by (field; lra).
    split; [nra|].
    apply (Rmult_le_reg_r e); [lra|].
    replace (sl * (7 / 50) / e * e) with (sl * (7 / 50)) by (field; lra).
    nra.
Qed.

Lemma total_cut_cost_at_least_straight (schema : Schema) (es : list (string * Edge))
    (vs : list EdgeValues) :
  Forall2 (fun kv v => edge_entry schema (snd kv) v) es vs ->
  0 <= total (map cut_length vs) / LASER_SPEED * TIME_COST <= total (map cut_cost vs).
Proof.
  induction 1 as [|kv v es vs Hv _ IH]; cbn [map total fold_right].
  - unfold LASER_SPEED, TIME_COST; lra.
  - apply cut_cost_at_least_straight in Hv; unfold total in IH.
    unfold LASER_SPEED, TIME_COST in *; lra.
Qed.

(** X10. Whenever [arcLength] returns after [computeValues], the cut cost it
    returns is at least the cost of cutting the total length of the edges at
    the nominal speed, and is not negative: the curvature factor only ever
    slows the laser.  Nothing is said of a run in which [arcLength] raises. *)
Theorem arcLength_at_least_straight_cut (schema : Schema) (es : list (string * Edge))
    (values : dict string EdgeValues) (cut : R) :
  Edges schema = Some es ->
  NoDup (keys es) ->
  computeValues schema = Ok values ->
  arcLength schema values = Ok cut ->
  exists vs,
    Forall2 (fun kv v => edgeValues schema (snd kv) = Ok v) es vs
    /\ 0 <= total (map cut_length vs) / LASER_SPEED * TIME_COST <= cut.
Proof.
  intros Hes Hnd Hvalues Hcut.
  destruct (arcLength_after_computeValues schema es values Hes Hnd Hvalues)
    as (vs & Hvs & Hcut').
  rewrite Hcut in Hcut'; injection Hcut' as ->.
  exists vs; split.
  - eapply Forall2_impl; [|exact Hvs].
    intros kv v Hv; apply edgeValues_entry; exact Hv.
  - apply (total_cut_cost_at_least_straight schema es); exact Hvs.
Qed.

Lemma arcLength_at_least_straight_cut_witness :
  exists cut vs,
    arcLength (arc_profile (5, 0) (2, 4))
      [("arc"%string, arc_entry 0 1 (5, 0) (2, 4) (0, 0));
       ("s1"%string, LineValues 1 2 (distance (2, 4) (0, 2)));
       ("s2"%string, LineValues 2 0 (distance (0, 2) (5, 0)))] = Ok cut
    /\ Forall2 (fun kv v => edgeValues (arc_profile (5, 0) (2, 4)) (snd kv) = Ok v)
         [("arc"%string, circular_arc 0 1 0 0 0);
          ("s1"%string, line_segment 1 2);
          ("s2"%string, line_segment 2 0)] vs
    /\ 0 <= total (map cut_length vs) / LASER_SPEED * TIME_COST <= cut.
Proof.
  pose proof (proj1 (schema_of_raw_wf (arc_profile_raw (5, 0) (2, 4))) _
                (arc_profile_Edges (5, 0) (2, 4))) as Hnd.
  pose proof (computeValues_arc_profile_Ok (5, 0) (2, 4) arc_5_0_to_2_4_accepted)
    as Hvalues.
  destruct (arcLength_after_computeValues _ _ _ (arc_profile_Edges (5, 0) (2, 4))
              Hnd Hvalues) as (vs0 & _ & Hcut).
  exists (total (map cut_cost vs0)).
  destruct (arcLength_at_least_straight_cut _ _ _ _ (arc_profile_Edges (5, 0) (2, 4))
              Hnd Hvalues Hcut) as (vs & H).
  exists vs; split; [exact Hcut | exact H].
Defined.

(** Whatever the hull, an area [findMinimumRectangle] returns is at least
    the square of the padding. *)
Lemma findMinimumRectangle_at_least_padding (hull : list point) (area : R) :
  findMinimumRectangle hull = Ok area -> PADDING ^ 2 <= area.
Proof.
  unfold findMinimumRectangle; intros E.
  apply bind_Ok in E as (first & _ & E); apply bind_Ok in E as (sizes & _ & E).
  apply bind_Ok in E as (best_edge & _ & E); apply bind_Ok in E as ([a [[hn wn] sl]] & _ & E).
  apply bind_Ok in E as (root & Hroot & E); apply bind_Ok in E as (height & Hh & E).
  apply bind_Ok in E as (root' & Hroot' & E); apply bind_Ok in E as (width & Hw & E).
  injection E as <-.
  rewrite Hroot in Hroot'; injection Hroot' as <-.
  unfold math_sqrt in Hroot; destruct (Rlt_dec sl 0); [discriminate|]; injection Hroot as <-.
  unfold pdiv in Hh, Hw; destruct (Req_dec_T (sqrt sl) 0) as [|Hne]; [discriminate|].
  injection Hh as <-; injection Hw as <-.
  assert (Hpos : 0 < sqrt sl) by (pose proof (sqrt_pos sl); lra).
  assert (H1 : 0 <= math_fabs hn / sqrt sl).
  { unfold Rdiv, math_fabs; apply Rmult_le_pos; [apply Rabs_pos|].
    left; apply Rinv_0_lt_compat; exact Hpos. }
  assert (H2 : 0 <= math_fabs wn / sqrt sl).
  { unfold Rdiv, math_fabs; apply Rmult_le_pos; [apply Rabs_pos|].
    left; apply Rinv_0_lt_compat; exact Hpos. }
  unfold PADDING; nra.
Qed.

Lemma total_at_least (xs : list R) (b : R) :
  Forall (fun x => b <= x) xs -> b * INR (length xs) <= total xs.
Proof.
  induction 1 as [|x xs Hx _ IH]; cbn [length total fold_right].
  - cbn; lra.
  - rewrite S_INR; unfold total in IH; lra.
Qed.

(** X11. A price that is returned is at least the material cost of a square of
    the padding for every cycle of the basis, and there is at least one
    cycle: no schema is priced at zero or below. *)
Theorem price_at_least_padding_per_cycle
    (lib : Library) (name : string) (schema : Schema) (p : R) :
  Schema_wf schema ->
  price lib name schema = Ok p ->
  exists g,
    createGraph schema = Ok g
    /\ (1 <= length (nx_cycle_basis lib g))%nat
    /\ MATERIAL_COST * PADDING ^ 2 * INR (length (nx_cycle_basis lib g)) <= p
    /\ 0 < p.
Proof.
  intros Hwf E; unfold price, rotateCalipers in E.
  apply bind_Ok in E as ([cycles g] & Hv & E).
  apply bind_Ok in E as (values & Hvalues & E); apply bind_Ok in E as (cut & Hcut & E).
  apply bind_Ok in E as (material & Hm & E); injection E as <-.
  cbn [snd] in Hm; apply bind_Ok in Hm as (hulls & Hh & Hm).
  apply bind_Ok in Hm as (areas & Ha & Hm); injection Hm as <-.
  pose proof (validateSchema_Ok lib name schema cycles g Hv) as ->.
  rewrite validateSchema_wf in Hv by assumption.
  destruct (Edges schema) as [es|] eqn:Ees; [|discriminate].
  destruct (Vertices schema) as [vs|] eqn:Evs; [|discriminate].
  apply bind_Ok in Hv as (g' & Hg & Hv); apply bind_Ok in Hv as (cycles & Hc & Hv).
  injection Hv as Hcycles <-.
  rewrite findPath_cases in Hc.
  assert (Hone : (1 <= length (nx_cycle_basis lib g'))%nat).
  { destruct (nx_cycle_basis lib g'); [discriminate | cbn [length]; lia]. }
  destruct (arcLength_after_computeValues schema es values Ees (proj1 Hwf es Ees) Hvalues)
    as (evs & Hevs & Hcut').
  rewrite Hcut in Hcut'; injection Hcut' as ->.
  pose proof (total_cut_cost_at_least_straight schema es evs Hevs) as [Hstraight Hcost].
  pose proof (computeConvexHull_length lib schema g' values hulls Hh) as Hlen.
  pose proof (mapM_length _ _ _ Ha) as Hlen'.
  assert (Hareas : Forall (fun x => MATERIAL_COST * PADDING ^ 2 <= x)
                     (map (Rmult MATERIAL_COST) areas)).
  { apply mapM_Ok in Ha; apply Forall_forall; intros x Hx.
    apply in_map_iff in Hx as (a & <- & Hin).
    destruct (Forall2_In_r _ _ _ a Ha Hin) as (hull & _ & Hhull).
    apply findMinimumRectangle_at_least_padding in Hhull.
    unfold MATERIAL_COST in *; lra. }
  apply total_at_least in Hareas; rewrite length_map, Hlen', Hlen in Hareas.
  rewrite material_sum.
  assert (Hn : 1 <= INR (length (nx_cycle_basis lib g'))).
  { replace 1 with (INR 1) by reflexivity; apply le_INR; exact Hone. }
  exists g'; split; [exact Hg|]; split; [exact Hone|].
  unfold MATERIAL_COST, PADDING in *; split; nra.
Qed.

Lemma price_at_least_padding_per_cycle_witness :
  exists p g,
    price triangle_library "triangle.json" triangle = Ok p
    /\ createGraph triangle = Ok g
    /\ (1 <= length (nx_cycle_basis triangle_library g))%nat
    /\ MATERIAL_COST * PADDING ^ 2 * INR (length (nx_cycle_basis triangle_library g)) <= p
    /\ 0 < p.
Proof.
  destruct (arcLength_after_computeValues triangle _ _ triangle_Edges
              (proj1 (schema_of_raw_wf triangle_raw) _ triangle_Edges) triangle_values)
    as (vs & _ & Hcut).
  destruct (findMinimumRectangle_rectangle _ proper_polygon_3_4_5) as (e & _ & _ & Harea).
  assert (Hp : price triangle_library "triangle.json" triangle
               = Ok (total (map cut_cost vs)
                     + (0 + MATERIAL_COST
                            * ((rect_height e [(0, 0); (4, 0); (0, 3)] + PADDING)
                               * (rect_width e [(0, 0); (4, 0); (0, 3)] + PADDING))))).
  { unfold price, rotateCalipers.
    rewrite triangle_validate; cbn [bind snd]; rewrite triangle_values; cbn [bind].
    rewrite Hcut; cbn [bind]; rewrite triangle_final_hull; cbn [bind mapM].
    rewrite Harea; reflexivity. }
  eexists; destruct (price_at_least_padding_per_cycle triangle_library "triangle.json"
                       triangle _ (schema_of_raw_wf triangle_raw) Hp) as (g & H).
  exists g; split; [exact Hp | exact H].
Defined.

(* ================================================================= *)
(** ** The hull depends on the set of points only *)

Lemma StronglySorted_unique (l l' : list point) :
  StronglySorted lex_le l -> StronglySorted lex_le l' -> Permutation l l' -> l = l'.
Proof.
  intros Hl; revert l'; induction Hl as [|a l Hl IH Ha]; intros l' Hl' Hperm.
  - apply Permutation_nil in Hperm; subst; reflexivity.
  - destruct Hl' as [|b l' Hl' Hb].
    + apply Permutation_sym, Permutation_nil in Hperm; discriminate.
    + assert (Hab : a = b).
      { assert (Ha' : In a (b :: l')) by (apply (Permutation_in _ Hperm); left; reflexivity).
        assert (Hb' : In b (a :: l))
          by (apply (Permutation_in _ (Permutation_sym Hperm)); left; reflexivity).
        destruct Ha' as [E | Ha']; [symmetry; exact E|].
        destruct Hb' as [E | Hb']; [exact E|].
        rewrite Forall_forall in Ha, Hb.
        apply lex_le_antisym; auto. }
      subst b; f_equal; apply IH; [assumption|].
      apply Permutation_cons_inv in Hperm; exact Hperm.
Qed.

(** X12. [grahams_hull] sorts its argument first: the hull does not depend on the
    order in which the points are given. *)
Theorem grahams_hull_of_permutation (points points' : list point) :
  Permutation points points' -> grahams_hull points = grahams_hull points'.
Proof.
  intros Hperm; unfold grahams_hull.
  replace (sorted points') with (sorted points); [reflexivity|].
  apply StronglySorted_unique; try apply sorted_StronglySorted.
  apply (Permutation_trans (Permutation_sym (sorted_Permutation points))).
  apply (Permutation_trans Hperm), sorted_Permutation.
Qed.

Lemma grahams_hull_of_permutation_witness :
  grahams_hull [(0, 3); (0, 0); (4, 0)] = grahams_hull [(0, 0); (4, 0); (0, 3)].
Proof.
  apply grahams_hull_of_permutation.
  apply (Permutation_cons_append [(0, 0); (4, 0)] (0, 3)).
Defined.

(* ================================================================= *)
(** ** Points on one line *)

Lemma grahams_hull_nonempty (points : list point) :
  points <> [] -> grahams_hull points <> [].
Proof.
  intros Hpts.
  destruct (grahams_hull_shape points Hpts) as (lo & hi & l' & u' & _ & _ & _ & _ & -> & _).
  discriminate.
Qed.

Lemma findMinimumRectangle_one_or_two (a b : point) :
  findMinimumRectangle [a] = Raise ValueError
  /\ findMinimumRectangle [a; b] = Raise ValueError.
Proof.
  split; unfold findMinimumRectangle;
    cbn [index_at nth_error bind app izip_next combine skipn product list_prod map
         filter fst snd];
    rewrite ?eqb_refl; cbn [negb andb filter app];
    rewrite ?eqb_refl; cbn [negb andb filter app]; rewrite ?andb_false_r;
    cbn [list_prod map app foldM bind min_by_value]; reflexivity.
Qed.

(** X13. The hull of points that lie on one line has at most two corners, and
    [findMinimumRectangle] raises [ValueError] on it ([min] of an empty
    [caliper_sizes]): a cycle whose vertices are on one line cannot be
    priced. *)
Theorem collinear_points_have_no_rectangle (points : list point) :
  points <> [] ->
  collinear points ->
  (1 <= length (grahams_hull points) <= 2)%nat
  /\ findMinimumRectangle (grahams_hull points) = Raise ValueError.
Proof.
  intros Hpts Hline.
  assert (Hlen : (1 <= length (grahams_hull points) <= 2)%nat).
  { split.
    - pose proof (grahams_hull_nonempty points Hpts).
      destruct (grahams_hull points); [congruence | cbn [length]; lia].
    - destruct (le_lt_dec 3 (length (grahams_hull points))) as [Hlong | Hshort]; [|lia].
      exfalso.
      destruct (grahams_hull_proper points Hlong) as [Hne Hoff].
      destruct (grahams_hull points) as [|first rest] eqn:Eh; [congruence|].
      assert (Hfirst : In first (first :: rest)) by (left; reflexivity).
      assert (He : In (first, hd first (rest ++ [first])) (sides (first :: rest))).
      { unfold sides; destruct rest; left; reflexivity. }
      destruct (Hoff _ He) as (p & Hp & Hcross); apply Hcross.
      destruct (side_ends_In (first :: rest) first _ Hfirst He) as [Ha Hb].
      rewrite <- Eh in Ha, Hb, Hp.
      apply Hline; apply grahams_hull_incl; assumption. }
  split; [exact Hlen|].
  destruct (grahams_hull points) as [|a [|b [|c rest]]]; cbn [length] in Hlen; try lia.
  - apply (findMinimumRectangle_one_or_two a a).
  - apply (findMinimumRectangle_one_or_two a b).
Qed.

Lemma collinear_on_the_x_axis : collinear points_on_the_x_axis.
Proof.
  intros a b c Ha Hb Hc; unfold cross.
  destruct Ha as [<- | [<- | [<- | []]]]; destruct Hb as [<- | [<- | [<- | []]]];
    destruct Hc as [<- | [<- | [<- | []]]]; cbn [fst snd]; lra.
Qed.

Lemma collinear_points_have_no_rectangle_witness :
  (1 <= length (grahams_hull points_on_the_x_axis) <= 2)%nat
  /\ findMinimumRectangle (grahams_hull points_on_the_x_axis) = Raise ValueError.
Proof.
  apply collinear_points_have_no_rectangle;
    [discriminate | exact collinear_on_the_x_axis].
Defined.

(* ================================================================= *)
(** ** One step of the scan *)

(** X14. [keep_left(hull, r)] removes points from the end of [hull] only, and
    the list it returns always ends with [r]: [r] is appended unless the last
    point kept is [r] already. *)
Theorem keep_left_ends_with_r (hull : list point) (r : point) :
  exists kept dropped front,
    hull = kept ++ dropped
    /\ keep_left hull r = front ++ [r]
    /\ (front = kept \/ front ++ [r] = kept).
Proof.
  rewrite keep_left_stack_rev; unfold keep_left_stack.
  destruct (keep_left_pop_suffix (rev hull) r) as [dropped Hd].
  assert (Hhull : hull = rev (keep_left_pop (rev hull) r) ++ rev dropped).
  { rewrite <- rev_app_distr, <- Hd, rev_involutive; reflexivity. }
  destruct (keep_left_pop (rev hull) r) as [|top rest].
  - exists [], (rev dropped), []; repeat split; [exact Hhull | left; reflexivity].
  - destruct (eqb top r) eqn:E; cbn [negb].
    + apply eqb_true in E; subst top.
      exists (rev (r :: rest)), (rev dropped), (rev rest); repeat split;
        [exact Hhull | right; reflexivity].
    + exists (rev (top :: rest)), (rev dropped), (rev (top :: rest)); repeat split;
        [exact Hhull | left; reflexivity].
Qed.

(* ================================================================= *)
(** ** The entries of [values_dict] *)

Lemma setitem_new {K V : Type} `{KeyEq K} (d : dict K V) (k : K) (v : V) :
  ~ In k (keys d) -> setitem d k v = d ++ [(k, v)].
Proof.
  induction d as [|[k' v'] d IH]; intros Hk; cbn [setitem app]; [reflexivity|].
  destruct (eqb k k') eqn:E.
  - apply eqb_true in E; subst k'; exfalso; apply Hk; left; reflexivity.
  - rewrite IH; [reflexivity|]; intros Hin; apply Hk; right; exact Hin.
Qed.

Lemma computeValues_loop_appends (schema : Schema) (es : list (string * Edge)) :
  NoDup (keys es) ->
  forall d values : dict string EdgeValues,
    (forall k, In k (keys es) -> ~ In k (keys d)) ->
    foldM (fun values_dict kv =>
             v <- edgeValues schema (snd kv) ;; Ok (setitem values_dict (fst kv) v))
          es d = Ok values ->
    exists entries,
      values = d ++ entries
      /\ Forall2 (fun kv entry => fst entry = fst kv
                                  /\ edgeValues schema (snd kv) = Ok (snd entry))
           es entries.
Proof.
  induction es as [|[k edge] es IH]; intros Hnd d values Hd E; cbn [foldM] in E.
  - injection E as <-; exists []; split; [symmetry; apply app_nil_r | constructor].
  - cbn [keys map fst] in Hnd; inversion Hnd as [|? ? Hk Hnd']; subst.
    apply bind_Ok in E as (d' & Hstep & E); cbn [fst snd] in Hstep.
    apply bind_Ok in Hstep as (v & Hv & Hstep); injection Hstep as <-.
    rewrite setitem_new in E by (apply Hd; left; reflexivity).
    apply IH in E as (entries & -> & Hentries); [|assumption|].
    + exists ((k, v) :: entries); split; [rewrite <- app_assoc; reflexivity|].
      constructor; [split; [reflexivity | exact Hv] | exact Hentries].
    + intros k' Hk' Hin; unfold keys in Hin; rewrite map_app in Hin.
      apply in_app_or in Hin as [Hin | [<- | []]].
      * apply (Hd k'); [right; exact Hk' | exact Hin].
      * apply Hk; exact Hk'.
Qed.

(** X15. When [computeValues] returns, [values_dict] has one entry for every edge
    of the schema, under the id of the edge and in the order of ["Edges"], and
    the entry is what the loop body computes for that edge alone. *)
Theorem computeValues_one_entry_per_edge (schema : Schema) (es : list (string * Edge))
    (values : dict string EdgeValues) :
  Edges schema = Some es ->
  NoDup (keys es) ->
  computeValues schema = Ok values ->
  keys values = keys es
  /\ Forall2 (fun kv entry => fst entry = fst kv
                              /\ edgeValues schema (snd kv) = Ok (snd entry))
       es values.
Proof.
  intros Hes Hnd E; unfold computeValues, schema_Edges in E; rewrite Hes in E.
  cbn [bind] in E.
  apply computeValues_loop_appends in E as (entries & -> & Hentries);
    [|assumption | intros k _ []].
  cbn [app]; split; [|exact Hentries].
  clear Hnd Hes; induction Hentries as [|kv entry es entries [Hk _] _ IH]; [reflexivity|].
  cbn [keys map]; f_equal; [exact Hk | exact IH].
Qed.

Lemma computeValues_one_entry_per_edge_witness :
  keys [("a"%string, LineValues 0 1 (distance (0, 0) (4, 0)));
        ("b"%string, LineValues 1 2 (distance (4, 0) (0, 3)));
        ("c"%string, LineValues 2 0 (distance (0, 3) (0, 0)))]
  = keys [("a"%string, line_segment 0 1); ("b"%string, line_segment 1 2);
          ("c"%string, line_segment 2 0)]
  /\ Forall2 (fun kv entry => fst entry = fst kv
                              /\ edgeValues triangle (snd kv) = Ok (snd entry))
       [("a"%string, line_segment 0 1); ("b"%string, line_segment 1 2);
        ("c"%string, line_segment 2 0)]
       [("a"%string, LineValues 0 1 (distance (0, 0) (4, 0)));
        ("b"%string, LineValues 1 2 (distance (4, 0) (0, 3)));
        ("c"%string, LineValues 2 0 (distance (0, 3) (0, 0)))].
Proof.
  exact (computeValues_one_entry_per_edge triangle _ _ triangle_Edges
           (proj1 (schema_of_raw_wf triangle_raw) _ triangle_Edges) triangle_values).
Defined.

(** An edge that names a vertex id the schema does not declare: the lookup
    of its position raises [KeyError]. *)
Lemma vertex_coords_undeclared (schema : Schema) (vs : dict Z Vertex) (id : Z) :
  Vertices schema = Some vs -> ~ In id (keys vs) ->
  vertex_coords schema id = Raise KeyError.
Proof.
  intros Hvs Hid; unfold vertex_coords, schema_Vertices, getitem; rewrite Hvs; cbn [bind].
  destruct (dict_find vs id) as [v|] eqn:E; [|reflexivity].
  apply dict_find_In in E; contradiction.
Qed.

Lemma vertex_coords_cases (schema : Schema) (vs : dict Z Vertex) (id : Z) :
  Vertices schema = Some vs ->
  (exists p, vertex_coords schema id = Ok p) \/ vertex_coords schema id = Raise KeyError.
Proof.
  intros Hvs; unfold vertex_coords, schema_Vertices, getitem; rewrite Hvs; cbn [bind].
  destruct (dict_find vs id) as [v|]; cbn [bind]; [left; eexists; reflexivity | right; reflexivity].
Qed.

(** X16. A line segment one of whose two vertex ids is not declared under
    ["Vertices"] makes [computeValues] raise [KeyError], once the edges before
    it have been computed; [validateSchema] does not look at it, so the
    schema is not priced and the error is not a [ValueError]. *)
Theorem computeValues_undeclared_vertex
    (lib : Library) (name : string) (schema : Schema) (vs : dict Z Vertex)
    (before after : list (string * Edge)) (edge_id : string) (edge : Edge)
    (u v : Z) (rest : list Z) :
  Edges schema = Some (before ++ (edge_id, edge) :: after) ->
  Vertices schema = Some vs ->
  Forall (fun kv => is_ok (edgeValues schema (snd kv)) = true) before ->
  is_LineSegment edge = true ->
  EVertices edge = u :: v :: rest ->
  ~ In u (keys vs) \/ ~ In v (keys vs) ->
  computeValues schema = Raise KeyError
  /\ (is_ok (validateSchema lib name schema) = true ->
      price lib name schema = Raise KeyError).
Proof.
  intros Hes Hvs Hbefore Hline Hends Hmissing.
  assert (Hedge : edgeValues schema edge = Raise KeyError).
  { unfold edgeValues; rewrite Hline; unfold lineValues; rewrite Hends.
    cbn [index_at nth_error bind].
    destruct (vertex_coords_cases schema vs u Hvs) as [[p Hp] | Hp];
      rewrite Hp; cbn [bind]; [|reflexivity].
    destruct Hmissing as [Hu | Hv].
    - rewrite (vertex_coords_undeclared schema vs u) in Hp by assumption; discriminate.
    - rewrite (vertex_coords_undeclared schema vs v) by assumption; reflexivity. }
  assert (Hvalues : computeValues schema = Raise KeyError).
  { unfold computeValues, schema_Edges; rewrite Hes; cbn [bind].
    apply computeValues_loop_first_raise; assumption. }
  split; [exact Hvalues|].
  intros Hok; unfold price.
  destruct (validateSchema lib name schema); [|discriminate].
  cbn [bind]; rewrite Hvalues; reflexivity.
Qed.

Lemma computeValues_undeclared_vertex_witness :
  computeValues (schema_of_raw undeclared_vertex_raw) = Raise KeyError
  /\ price triangle_library "undeclared.json" (schema_of_raw undeclared_vertex_raw)
     = Raise KeyError.
Proof.
  destruct (computeValues_undeclared_vertex triangle_library "undeclared.json"
              (schema_of_raw undeclared_vertex_raw)
              [(0%Z, vertex_at 0 0); (1%Z, vertex_at 4 0)]
              [("a"%string, line_segment 0 1)] [("c"%string, line_segment 2 0)]
              "b" (line_segment 1 2) 1 2 []) as [Hvalues Hprice];
    try reflexivity.
  - constructor; [|constructor].
    cbn [snd]; rewrite (edgeValues_segment _ _ 0 1 (0, 0) (4, 0)); [reflexivity.. |].
    repeat split.
  - right; intros [E | [E | []]]; discriminate.
  - split; [exact Hvalues | apply Hprice; reflexivity].
Defined.

(* ================================================================= *)
(** ** The graph of a schema *)

Lemma add_node_nodes (g : Graph) (n m : Z) :
  In m (g_nodes (add_node g n)) <-> In m (g_nodes g) \/ m = n.
Proof.
  unfold add_node; destruct (contains n (g_nodes g)) eqn:E.
  - apply contains_In in E; split; [auto | intros [H | ->]; assumption].
  - cbn [g_nodes]; rewrite in_app_iff; cbn [In]; split.
    + intros [H | [<- | []]]; auto.
    + intros [H | ->]; auto.
Qed.

Lemma add_node_edges (g : Graph) (n : Z) : g_edges (add_node g n) = g_edges g.
Proof. unfold add_node; destruct (contains n (g_nodes g)); reflexivity. Qed.

Lemma add_nodes_nodes (ns : list Z) (g : Graph) (m : Z) :
  In m (g_nodes (fold_left add_node ns g)) <-> In m (g_nodes g) \/ In m ns.
Proof.
  revert g; induction ns as [|n ns IH]; intros g; cbn [fold_left In].
  - tauto.
  - rewrite IH, add_node_nodes; intuition.
Qed.

Lemma add_nodes_edges (ns : list Z) (g : Graph) :
  g_edges (fold_left add_node ns g) = g_edges g.
Proof.
  revert g; induction ns as [|n ns IH]; intros g; cbn [fold_left]; [reflexivity|].
  rewrite IH; apply add_node_edges.
Qed.

Lemma add_edge_nodes (g : Graph) (u v m : Z) :
  In m (g_nodes (add_edge g u v)) <-> In m (g_nodes g) \/ m = u \/ m = v.
Proof.
  unfold add_edge.
  destruct (contains (u, v) (g_edges (add_node (add_node g u) v))
            || contains (v, u) (g_edges (add_node (add_node g u) v)));
    cbn [g_nodes]; rewrite !add_node_nodes; tauto.
Qed.

Lemma add_edge_adjacent (g : Graph) (u v a b : Z) :
  adjacent (add_edge g u v) a b
  <-> adjacent g a b \/ (a = u /\ b = v) \/ (a = v /\ b = u).
Proof.
  unfold add_edge, adjacent; rewrite !add_node_edges.
  destruct (contains (u, v) (g_edges g) || contains (v, u) (g_edges g)) eqn:E.
  - rewrite ?add_node_edges; apply orb_true_iff in E; rewrite !contains_In in E.
    split; [auto|].
    intros [H | [[-> ->] | [-> ->]]]; tauto.
  - cbn [g_edges]; rewrite ?add_node_edges, !in_app_iff; cbn [In]; split.
    + intros [[H | [H | []]] | [H | [H | []]]]; try injection H as <- <-; auto.
    + intros [[H | H] | [[-> ->] | [-> ->]]]; auto.
Qed.

Lemma add_edges_from_graph (ebunch : list (list Z)) (g : Graph) :
  match add_edges_from g ebunch with
  | Ok g' =>
      Forall (fun e => length e = 2%nat) ebunch
      /\ (forall n, In n (g_nodes g') <->
                    In n (g_nodes g) \/ exists e, In e ebunch /\ In n e)
      /\ (forall a b, adjacent g' a b <->
                      adjacent g a b
                      \/ exists e, In e ebunch /\ (e = [a; b] \/ e = [b; a]))
  | Raise _ => Exists (fun e => length e <> 2%nat) ebunch
  end.
Proof.
  unfold add_edges_from; revert g; induction ebunch as [|e ebunch IH]; intros g;
    cbn [foldM].
  - split; [constructor|]; split; intros; split; auto.
    + intros [H | (e & [] & _)]; exact H.
    + intros [H | (e & [] & _)]; exact H.
  - destruct e as [|u [|v [|w [|x e]]]]; cbn [bind];
      try (apply Exists_cons_hd; cbn [length]; lia).
    specialize (IH (add_edge g u v)).
    destruct (foldM _ ebunch (add_edge g u v)) as [g'|err].
    + destruct IH as (Hlen & Hnodes & Hadj); split; [|split].
      * constructor; [reflexivity | exact Hlen].
      * intros n; rewrite Hnodes, add_edge_nodes; split.
        -- intros [[H | [-> | ->]] | (e & He & Hn)]; auto.
           ++ right; exists [u; v]; split; [left; reflexivity | left; reflexivity].
           ++ right; exists [u; v]; split; [left; reflexivity | right; left; reflexivity].
           ++ right; exists e; split; [right; exact He | exact Hn].
        -- intros [H | (e & [<- | He] & Hn)]; auto.
           ++ destruct Hn as [<- | [<- | []]]; auto.
           ++ right; exists e; auto.
      * intros a b; rewrite Hadj, add_edge_adjacent; split.
        -- intros [[H | [[-> ->] | [-> ->]]] | (e & He & Hab)]; auto.
           ++ right; exists [u; v]; split; [left; reflexivity | left; reflexivity].
           ++ right; exists [u; v]; split; [left; reflexivity | right; reflexivity].
           ++ right; exists e; split; [right; exact He | exact Hab].
        -- intros [H | (e & [<- | He] & Hab)]; auto.
           ++ destruct Hab as [E | E]; injection E as -> ->; auto.
           ++ right; exists e; auto.
    + apply Exists_cons_tl; exact IH.
Qed.

(** X17. For a schema whose vertex keys all spell integers, as every
    [Schema] of this development does, [createGraph] succeeds exactly when
    every edge of the schema has two vertex ids.  The nodes of the graph are
    then the declared vertex ids together with every id an edge names,
    declared or not, and two nodes are adjacent exactly when some edge of
    the schema joins them.  (On a vertex key that spells no integer
    [int(v)] raises before any edge is added; no [Schema] has such a key.) *)
Theorem createGraph_nodes_and_edges (schema : Schema) (es : dict string Edge)
    (vs : dict Z Vertex) :
  Edges schema = Some es ->
  Vertices schema = Some vs ->
  match createGraph schema with
  | Ok g =>
      Forall (fun kv => length (EVertices (snd kv)) = 2%nat) es
      /\ (forall n, In n (g_nodes g) <->
                    In n (keys vs) \/ exists kv, In kv es /\ In n (EVertices (snd kv)))
      /\ (forall a b, adjacent g a b <->
                      exists kv, In kv es
                                 /\ (EVertices (snd kv) = [a; b]
                                     \/ EVertices (snd kv) = [b; a]))
  | Raise _ => Exists (fun kv => length (EVertices (snd kv)) <> 2%nat) es
  end.
Proof.
  intros Hes Hvs; unfold createGraph, schema_Vertices, schema_Edges.
  rewrite Hes, Hvs; cbn [bind].
  set (g0 := fold_left add_node (keys vs) {| g_nodes := []; g_edges := [] |}).
  pose proof (add_edges_from_graph (map (fun kv => EVertices (snd kv)) es) g0) as H.
  destruct (add_edges_from g0 _) as [g|e].
  - destruct H as (Hlen & Hnodes & Hadj); split; [|split].
    + rewrite Forall_forall in Hlen; apply Forall_forall; intros kv Hkv.
      apply Hlen, in_map_iff; exists kv; auto.
    + intros n; rewrite Hnodes; unfold g0; rewrite add_nodes_nodes; cbn [g_nodes In].
      split.
      * intros [[[] | H] | (e & He & Hn)]; auto.
        apply in_map_iff in He as (kv & <- & Hkv); right; exists kv; auto.
      * intros [H | (kv & Hkv & Hn)]; auto.
        right; exists (EVertices (snd kv)); split; [|exact Hn].
        apply in_map_iff; exists kv; auto.
    + intros a b; rewrite Hadj; unfold adjacent at 1, g0; rewrite add_nodes_edges.
      cbn [g_edges In]; split.
      * intros [[[] | []] | (e & He & Hab)].
        apply in_map_iff in He as (kv & <- & Hkv); exists kv; auto.
      * intros (kv & Hkv & Hab); right; exists (EVertices (snd kv)); split; [|exact Hab].
        apply in_map_iff; exists kv; auto.
  - apply Exists_exists in H as (e' & He & Hlen).
    apply in_map_iff in He as (kv & <- & Hkv).
    apply Exists_exists; exists kv; auto.
Qed.

Lemma createGraph_nodes_and_edges_witness :
  Forall (fun kv => length (EVertices (snd kv)) = 2%nat)
    [("a"%string, line_segment 0 1); ("b"%string, line_segment 1 2);
     ("c"%string, line_segment 2 0)]
  /\ (forall n, In n (g_nodes arc_profile_graph) <->
                In n (keys triangle_vertices)
                \/ exists kv,
                     In kv [("a"%string, line_segment 0 1); ("b"%string, line_segment 1 2);
                            ("c"%string, line_segment 2 0)]
                     /\ In n (EVertices (snd kv)))
  /\ (forall a b, adjacent arc_profile_graph a b <->
                  exists kv,
                    In kv [("a"%string, line_segment 0 1); ("b"%string, line_segment 1 2);
                           ("c"%string, line_segment 2 0)]
                    /\ (EVertices (snd kv) = [a; b] \/ EVertices (snd kv) = [b; a])).
Proof.
  exact (createGraph_nodes_and_edges triangle _ _ triangle_Edges triangle_Vertices).
Defined.

(* ================================================================= *)
(** ** The corners of the hull *)

(** Vectors from a common origin, by coordinates: [u1 * v2 - u2 * v1] is the
    cross product of [u] and [v]. *)
Lemma opposite_rays (u1 u2 v1 v2 w1 w2 : R) :
  (0 < u1 \/ (u1 = 0 /\ 0 < u2)) ->
  (v1 < 0 \/ (v1 = 0 /\ v2 < 0)) ->
  u1 * v2 - u2 * v1 = 0 ->
  0 < u1 * w2 - u2 * w1 ->
  v1 * w2 - v2 * w1 < 0.
Proof.
  intros Hu Hv Hpar Hturn.
  destruct Hu as [Hu | [Hu Hu2]], Hv as [Hv | [Hv Hv2]].
  - assert (E : u1 * (v1 * w2 - v2 * w1) - v1 * (u1 * w2 - u2 * w1)
                 = - w1 * (u1 * v2 - u2 * v1)) by ring.
    rewrite Hpar in E.
    assert (H : v1 * (u1 * w2 - u2 * w1) < 0) by nra.
    assert (H' : u1 * (v1 * w2 - v2 * w1) < 0) by lra.
    nra.
  - subst v1; nra.
  - subst u1; nra.
  - subst u1 v1; nra.
Qed.

Lemma same_rays (u1 u2 v1 v2 w1 w2 : R) :
  (0 < u1 \/ (u1 = 0 /\ 0 < u2)) ->
  (0 < v1 \/ (v1 = 0 /\ 0 < v2)) ->
  u1 * v2 - u2 * v1 = 0 ->
  0 < u1 * w2 - u2 * w1 ->
  0 < v1 * w2 - v2 * w1.
Proof.
  intros Hu Hv Hpar Hturn.
  destruct Hu as [Hu | [Hu Hu2]], Hv as [Hv | [Hv Hv2]].
  - assert (E : u1 * (v1 * w2 - v2 * w1) - v1 * (u1 * w2 - u2 * w1)
                 = - w1 * (u1 * v2 - u2 * v1)) by ring.
    rewrite Hpar in E.
    assert (H : 0 < v1 * (u1 * w2 - u2 * w1)) by nra.
    assert (H' : 0 < u1 * (v1 * w2 - v2 * w1)) by lra.
    nra.
  - subst v1; nra.
  - subst u1; nra.
  - subst u1 v1; nra.
Qed.

(** A point cannot be a corner of the lower chain, with [q] after it, and a
    corner of the upper chain, with [q'] after it. *)
Lemma corner_of_one_chain (x p q q' : point) :
  strictly lex_le x q -> strictly lex_le q' x ->
  0 < cross p x q -> 0 <= cross x q q' -> 0 <= cross x q' q -> 0 <= cross x q' p ->
  False.
Proof.
  rewrite !strictly_lex; unfold cross.
  destruct x as [x1 x2], p as [p1 p2], q as [q1 q2], q' as [r1 r2]; cbn [fst snd].
  intros Hq Hq' Hturn H1 H2 H3.
  pose proof (opposite_rays (q1 - x1) (q2 - x2) (r1 - x1) (r2 - x2) (p1 - x1) (p2 - x2)) as H.
  assert (r1 - x1 < 0 \/ (r1 - x1 = 0 /\ r2 - x2 < 0)) by lra.
  assert (0 < q1 - x1 \/ (q1 - x1 = 0 /\ 0 < q2 - x2)) by lra.
  lapply H; [clear H; intros H | assumption].
  lapply H; [clear H; intros H | assumption].
  lapply H; [clear H; intros H | lra].
  lapply H; [clear H; intros H | lra].
  lra.
Qed.

(** Where the two chains meet at [j]: were the corner before [j], [j] and
    the corner after it on one line, the corner [z] that follows would lie
    on the right of the side that ends at [j]. *)
Lemma same_ray_next (j a c z : point) :
  same_side j a c -> cross a j c = 0 -> 0 < cross j c z -> cross a j z < 0.
Proof.
  unfold same_side; rewrite !strictly_lex; unfold cross.
  destruct j as [j1 j2], a as [a1 a2], c as [c1 c2], z as [z1 z2]; cbn [fst snd].
  intros Hside Hpar Hturn; destruct Hside as [[Ha Hc] | [Ha Hc]].
  - pose proof (same_rays (j1 - c1) (j2 - c2) (j1 - a1) (j2 - a2) (j1 - z1) (j2 - z2)) as H.
    lapply H; [clear H; intros H | lra].
    lapply H; [clear H; intros H | lra].
    lapply H; [clear H; intros H | lra].
    lapply H; [clear H; intros H | lra].
    lra.
  - pose proof (same_rays (c1 - j1) (c2 - j2) (a1 - j1) (a2 - j2) (z1 - j1) (z2 - j2)) as H.
    lapply H; [clear H; intros H | lra].
    lapply H; [clear H; intros H | lra].
    lapply H; [clear H; intros H | lra].
    lapply H; [clear H; intros H | lra].
    lra.
Qed.

Lemma same_ray_previous (j a c w : point) :
  same_side j a c -> cross a j c = 0 -> 0 < cross w a j -> cross j c w < 0.
Proof.
  unfold same_side; rewrite !strictly_lex; unfold cross.
  destruct j as [j1 j2], a as [a1 a2], c as [c1 c2], w as [w1 w2]; cbn [fst snd].
  intros Hside Hpar Hturn; destruct Hside as [[Ha Hc] | [Ha Hc]].
  - pose proof (same_rays (j1 - a1) (j2 - a2) (j1 - c1) (j2 - c2) (w1 - j1) (w2 - j2)) as H.
    lapply H; [clear H; intros H | lra].
    lapply H; [clear H; intros H | lra].
    lapply H; [clear H; intros H | lra].
    lapply H; [clear H; intros H | lra].
    lra.
  - pose proof (same_rays (a1 - j1) (a2 - j2) (c1 - j1) (c2 - j2) (j1 - w1) (j2 - w2)) as H.
    lapply H; [clear H; intros H | lra].
    lapply H; [clear H; intros H | lra].
    lapply H; [clear H; intros H | lra].
    lapply H; [clear H; intros H | lra].
    lra.
Qed.

Lemma chain_forward (le : point -> point -> Prop) (points : list point) :
  chain_spec le points -> forward_chain le points (rev (chain points)).
Proof.
  intros (Hinc & Hturn & Hsub & Hleft & _); split; [|split; [|split]].
  - intros front a b back E.
    apply (increasing_pair le (chain points) (rev back) b a (rev front)); [exact Hinc|].
    rewrite <- (rev_involutive (chain points)), E, rev_app_distr; cbn [rev].
    rewrite <- !app_assoc; reflexivity.
  - intros front a b d back E.
    apply (left_turns_triple (chain points) (rev back) d b a (rev front)); [exact Hturn|].
    rewrite <- (rev_involutive (chain points)), E, rev_app_distr; cbn [rev].
    rewrite <- !app_assoc; reflexivity.
  - intros x a b Hx Hab; apply (left_of_sides_rev (chain points)); auto.
  - intros s Hs; apply Hsub, in_rev; exact Hs.
Qed.

Lemma increasing_NoDup (le : point -> point -> Prop) (stack : list point) :
  (forall a, le a a) ->
  (forall a b c, le a b -> le b c -> le a c) ->
  (forall a b, le a b -> le b a -> a = b) ->
  increasing le stack -> NoDup stack.
Proof.
  intros Hrefl Htrans Hanti; induction 1 as [| a | q p rest [Hpq Hne] Hinc IH];
    [constructor | constructor; [intros [] | constructor] |].
  constructor; [|exact IH].
  intros Hq; apply Hne, Hanti; [exact Hpq|].
  apply (increasing_le_top le Hrefl Htrans p rest q Hinc Hq).
Qed.

Lemma NoDup_split_unique {A : Type} (x : A) (front : list A) :
  forall l back front' back',
    NoDup l -> l = front ++ x :: back -> l = front' ++ x :: back' ->
    front = front' /\ back = back'.
Proof.
  induction front as [|a front IH]; intros l back front' back' Hnd E E'; subst l.
  - destruct front' as [|a' front']; cbn [app] in E'.
    + injection E' as <-; split; reflexivity.
    + injection E' as <- E'; exfalso.
      inversion Hnd as [|? ? Hx _]; apply Hx; rewrite E'.
      apply in_or_app; right; left; reflexivity.
  - destruct front' as [|a' front']; cbn [app] in E'.
    + injection E' as -> E'; exfalso.
      inversion Hnd as [|? ? Hx _]; apply Hx.
      apply in_or_app; right; left; reflexivity.
    + injection E' as <- E'.
      inversion Hnd as [|? ? _ Hnd']; subst.
      destruct (IH _ back front' back' Hnd' eq_refl E') as [-> ->]; split; reflexivity.
Qed.

Lemma izip_next_of_split {A : Type} (front : list A) (a b : A) (back : list A) :
  In (a, b) (izip_next (front ++ a :: b :: back)).
Proof.
  induction front as [|x front IH]; cbn [app].
  - rewrite izip_next_cons2; left; reflexivity.
  - destruct front as [|y front]; cbn [app] in *; rewrite izip_next_cons2; right; exact IH.
Qed.

Lemma lex_ge_refl (p : point) : lex_ge p p.
Proof. apply lex_le_refl. Qed.

Lemma lex_ge_trans (p q r : point) : lex_ge p q -> lex_ge q r -> lex_ge p r.
Proof. unfold lex_ge; intros H1 H2; exact (lex_le_trans _ _ _ H2 H1). Qed.

Lemma lex_ge_antisym (p q : point) : lex_ge p q -> lex_ge q p -> p = q.
Proof. unfold lex_ge; intros H1 H2; exact (lex_le_antisym _ _ H2 H1). Qed.

Lemma forward_chain_of (le : point -> point -> Prop) (points points' c : list point) :
  (forall x, In x points' <-> In x points) ->
  forward_chain le points' c -> forward_chain le points c.
Proof.
  intros Hsame (H1 & H2 & H3 & H4); split; [exact H1|]; split; [exact H2|]; split.
  - intros x a b Hx; apply H3, Hsame, Hx.
  - intros s Hs; apply Hsame, H4, Hs.
Qed.

Lemma grahams_hull_frame (points : list point) :
  points <> [] -> exists lo hi l' u', hull_frame points lo hi l' u'.
Proof.
  intros Hpts.
  destruct (grahams_hull_shape points Hpts)
    as (lo & hi & l' & u' & Hl & Hu & Hlast_l & Hlast_u & Hhull & HL & HU & Hrange).
  assert (Hsorted : forall x, In x (sorted points) <-> In x points).
  { intros x; split; apply Permutation_in;
      [apply Permutation_sym|]; apply sorted_Permutation. }
  assert (Hrev : forall x, In x (rev (sorted points)) <-> In x points).
  { intros x; rewrite <- in_rev; apply Hsorted. }
  exists lo, hi, l', u'; unfold hull_frame.
  split; [exact Hhull|]; split; [exact Hlast_l|]; split; [exact Hlast_u|].
  split; [|split; [|split; [|split]]].
  - apply (forward_chain_of lex_le points (sorted points)); [exact Hsorted|].
    rewrite <- Hl; apply chain_forward; exact HL.
  - apply (forward_chain_of lex_ge points (rev (sorted points))); [exact Hrev|].
    rewrite <- Hu; apply chain_forward; exact HU.
  - rewrite <- Hl; apply NoDup_rev.
    apply (increasing_NoDup lex_le);
      [exact lex_le_refl | exact lex_le_trans | exact lex_le_antisym | apply HL].
  - rewrite <- Hu; apply NoDup_rev.
    apply (increasing_NoDup lex_ge);
      [exact lex_ge_refl | exact lex_ge_trans | exact lex_ge_antisym | apply HU].
  - intros x Hx; apply Hrange, Hsorted, Hx.
Qed.

(** The part of the upper chain that goes into the hull: the chain without
    its two ends. *)
Lemma upper_chain_middle (lo hi : point) (u' : list point) :
  last (hi :: u') hi = lo ->
  (u' = [] /\ hi = lo)
  \/ exists mid, hi :: u' = hi :: mid ++ [lo]
                 /\ firstn (length (hi :: u') - 2) (skipn 1 (hi :: u')) = mid.
Proof.
  intros Hlast; destruct u' as [|u1 u''].
  - left; split; [reflexivity | exact Hlast].
  - right.
    destruct (exists_last (l := u1 :: u'') ltac:(discriminate)) as (mid & um & E).
    rewrite E in *; exists mid.
    assert (Eum : um = lo) by (rewrite <- Hlast, app_comm_cons, last_last; reflexivity).
    subst um; split; [reflexivity | apply firstn_middle].
Qed.

(** No point is a corner of the lower chain and, between its ends, of the
    upper chain. *)
Lemma chains_share_ends_only (points : list point) (lo hi : point) (l' u' mid : list point)
    (x : point) :
  hull_frame points lo hi l' u' ->
  hi :: u' = hi :: mid ++ [lo] ->
  In x (lo :: l') -> In x mid -> False.
Proof.
  intros (_ & Hlast_l & _ & HL & HU & HndL & HndU & Hrange) EU HxL HxU.
  destruct HL as (HL1 & HL2 & HL3 & HL4), HU as (HU1 & HU2 & HU3 & HU4).
  apply in_split in HxU as (m1 & m2 & ->).
  assert (EU' : exists q' rest, hi :: u' = (hi :: m1) ++ x :: q' :: rest).
  { rewrite EU, <- app_assoc; cbn [app].
    destruct m2 as [|q' m2]; [exists lo, [] | exists q', (m2 ++ [lo])]; reflexivity. }
  destruct EU' as (q' & rest & EU').
  assert (EU'' : exists front p', hi :: u' = front ++ p' :: x :: q' :: rest).
  { destruct (exists_last (l := hi :: m1) ltac:(discriminate)) as (front & p' & E).
    exists front, p'; rewrite EU', E, <- app_assoc; reflexivity. }
  destruct EU'' as (front & p' & EU'').
  assert (Hq'x : strictly lex_le q' x).
  { apply strictly_lex_ge_le, (HU1 (hi :: m1) x q' rest EU'). }
  assert (Hxp' : strictly lex_le x p').
  { apply strictly_lex_ge_le, (HU1 front p' x (q' :: rest) EU''). }
  assert (Hq' : In q' points).
  { apply HU4; rewrite EU'; apply in_or_app; right; right; left; reflexivity. }
  assert (Hp' : In p' points).
  { apply HU4; rewrite EU''; apply in_or_app; right; left; reflexivity. }
  assert (Hx_lo : x <> lo).
  { intros ->; destruct Hq'x as [Hle Hne]; apply Hne, lex_le_antisym; [exact Hle|].
    apply Hrange, Hq'. }
  assert (Hx_hi : x <> hi).
  { intros ->; destruct Hxp' as [Hle Hne]; apply Hne, lex_le_antisym; [exact Hle|].
    apply Hrange, Hp'. }
  apply in_split in HxL as (f & b & EL).
  destruct (exists_last (l := f)) as (f' & p & Ef).
  { intros ->; cbn [app] in EL; injection EL as E _; apply Hx_lo; symmetry; exact E. }
  destruct b as [|q b].
  { apply Hx_hi; rewrite <- Hlast_l, EL; symmetry; apply last_last. }
  subst f; rewrite <- app_assoc in EL; cbn [app] in EL.
  assert (EL' : lo :: l' = (f' ++ [p]) ++ x :: q :: b)
    by (rewrite <- app_assoc; exact EL).
  assert (Hq : In q points).
  { apply HL4; rewrite EL'; apply in_or_app; right; right; left; reflexivity. }
  assert (Hp : In p points).
  { apply HL4; rewrite EL; apply in_or_app; right; left; reflexivity. }
  apply (corner_of_one_chain x p q q').
  - apply (HL1 (f' ++ [p]) x q b EL').
  - exact Hq'x.
  - apply (HL2 f' p x q b EL).
  - apply HL3; [exact Hq'|]; rewrite EL'; apply izip_next_of_split.
  - apply HU3; [exact Hq|]; rewrite EU'; apply izip_next_of_split.
  - apply HU3; [exact Hp|]; rewrite EU'; apply izip_next_of_split.
Qed.

(** X18. The corners [grahams_hull] returns are points it was given, no point is
    returned twice, and the first corner is the least of the points in the
    order of [sorted]. *)
Theorem grahams_hull_corners_distinct (points : list point) :
  NoDup (grahams_hull points)
  /\ (forall h, In h (grahams_hull points) -> In h points)
  /\ (forall d x, In x points -> lex_le (hd d (grahams_hull points)) x).
Proof.
  split; [|split; [apply grahams_hull_incl|]].
  - destruct points as [|p0 points']; [constructor|].
    destruct (grahams_hull_frame (p0 :: points') ltac:(discriminate))
      as (lo & hi & l' & u' & Hframe).
    pose proof Hframe as (Hhull & _ & Hlast_u & _ & _ & HndL & HndU & _).
    rewrite Hhull.
    destruct (upper_chain_middle lo hi u' Hlast_u) as [[-> _] | (mid & EU & ->)].
    + cbn [length Nat.sub firstn]; rewrite app_nil_r; exact HndL.
    + apply NoDup_app; [exact HndL | |].
      * rewrite EU in HndU; inversion HndU as [|? ? _ Hnd]; subst.
        apply NoDup_app_remove_r in Hnd; exact Hnd.
      * intros x HxL HxU.
        exact (chains_share_ends_only _ lo hi l' u' mid x Hframe EU HxL HxU).
  - intros d x Hx.
    assert (Hpts : points <> []) by (intros ->; contradiction).
    destruct (grahams_hull_frame points Hpts) as (lo & hi & l' & u' & Hframe).
    destruct Hframe as (Hhull & _ & _ & _ & _ & _ & _ & Hrange).
    rewrite Hhull; cbn [app hd]; apply Hrange, Hx.
Qed.

Lemma NoDup_head_split {A : Type} (x : A) (l front back : list A) :
  NoDup (x :: l) -> x :: l = front ++ x :: back -> front = [].
Proof.
  intros Hnd E.
  destruct (NoDup_split_unique x [] (x :: l) l front back Hnd eq_refl E) as [<- _].
  reflexivity.
Qed.

Lemma NoDup_last_split {A : Type} (x d : A) (l front back : list A) :
  NoDup l -> last l d = x -> l = front ++ x :: back -> back = [].
Proof.
  intros Hnd Hlast E.
  destruct back as [|b back]; [reflexivity | exfalso].
  destruct (exists_last (l := b :: back) ltac:(discriminate)) as (back' & y & Eb).
  rewrite Eb in E.
  assert (Hy : y = x).
  { rewrite <- Hlast, E, app_comm_cons, app_assoc; symmetry; apply last_last. }
  subst y; rewrite E in Hnd.
  apply NoDup_remove_2 in Hnd; apply Hnd.
  apply in_or_app; right; apply in_or_app; right; left; reflexivity.
Qed.

(** Where the lower chain arrives at [hi] and the upper chain leaves it, and
    where the upper chain arrives at [lo] and the lower chain leaves it, the
    hull turns left. *)
Lemma junction_turns_left (points : list point) (j a c : point)
    (arriving leaving before after : list point) :
  (forall x u v, In x points -> In (u, v) (izip_next arriving) -> 0 <= cross u v x) ->
  (forall x u v, In x points -> In (u, v) (izip_next leaving) -> 0 <= cross u v x) ->
  (forall s, In s arriving -> In s points) ->
  (forall s, In s leaving -> In s points) ->
  (forall front u v d back, arriving = front ++ u :: v :: d :: back -> 0 < cross u v d) ->
  (forall front u v d back, leaving = front ++ u :: v :: d :: back -> 0 < cross u v d) ->
  arriving = before ++ [a; j] ->
  leaving = j :: c :: after ->
  same_side j a c ->
  (before <> [] \/ after <> []) ->
  0 < cross a j c.
Proof.
  intros Harr Hlea Hin_a Hin_l Hturn_a Hturn_l Ea El Hside Hmore.
  assert (Hc : In c points) by (apply Hin_l; rewrite El; right; left; reflexivity).
  assert (Hside_a : In (a, j) (izip_next arriving)).
  { rewrite Ea; apply (izip_next_of_split before a j []). }
  assert (Hside_l : In (j, c) (izip_next leaving)).
  { rewrite El; apply (izip_next_of_split [] j c after). }
  pose proof (Harr c a j Hc Hside_a) as Hge.
  destruct (Req_dec (cross a j c) 0) as [Hzero | Hne]; [exfalso | lra].
  destruct after as [|z after].
  - destruct Hmore as [Hb | Ha]; [|congruence].
    destruct (exists_last Hb) as (before' & w & ->).
    rewrite <- app_assoc in Ea; cbn [app] in Ea.
    assert (Hw : In w points).
    { apply Hin_a; rewrite Ea; apply in_or_app; right; left; reflexivity. }
    pose proof (Hturn_a before' w a j [] Ea) as Hturn.
    pose proof (same_ray_previous j a c w Hside Hzero Hturn).
    pose proof (Hlea w j c Hw Hside_l); lra.
  - assert (Hz : In z points).
    { apply Hin_l; rewrite El; right; right; left; reflexivity. }
    pose proof (Hturn_l [] j c z after El) as Hturn.
    pose proof (same_ray_next j a c z Hside Hzero Hturn).
    pose proof (Harr z a j Hz Hside_a); lra.
Qed.

(** X19. Every corner of a hull of three corners or more is a strict left turn:
    for consecutive sides [(a, b)] and [(b, c)] of the hull, the closing side
    included, [c] lies strictly on the left of the line from [a] to [b].  No
    three consecutive corners are on one line. *)
Theorem grahams_hull_turns_left (points : list point) (a b c : point) :
  (3 <= length (grahams_hull points))%nat ->
  In (a, b) (sides (grahams_hull points)) ->
  In (b, c) (sides (grahams_hull points)) ->
  0 < cross a b c.
Proof.
  intros Hlen Hab Hbc.
  assert (Hpts : points <> []) by (intros ->; cbn in Hlen; lia).
  destruct (grahams_hull_frame points Hpts) as (lo & hi & l' & u' & Hframe).
  pose proof Hframe as (Hhull & Hlast_l & Hlast_u & HL & HU & HndL & HndU & Hrange).
  pose proof HL as (HL1 & HL2 & HL3 & HL4); pose proof HU as (HU1 & HU2 & HU3 & HU4).
  rewrite Hhull in Hlen, Hab, Hbc.
  destruct (upper_chain_middle lo hi u' Hlast_u) as [[-> Hsame] | (mid & EU & Emid)].
  { (* one point only *)
    exfalso; cbn [length Nat.sub firstn] in Hlen; rewrite app_nil_r in Hlen.
    destruct l' as [|l1 l'']; [cbn in Hlen; lia|].
    inversion HndL as [|? ? Hx _]; apply Hx.
    change (last (lo :: l1 :: l'') lo) with (last (l1 :: l'') lo) in Hlast_l.
    rewrite Hsame in Hlast_l; rewrite <- Hlast_l at 1.
    apply In_last; discriminate. }
  rewrite Emid in Hlen, Hab, Hbc; rewrite length_app in Hlen.
  assert (Hsides : forall e, In e (sides ((lo :: l') ++ mid)) ->
             In e (izip_next (lo :: l')) \/ In e (izip_next (hi :: u'))).
  { intros e He; rewrite <- Emid in He.
    destruct (hull_sides lo hi l' u' e Hlast_l Hlast_u He) as [H | [H | [H _]]]; auto.
    rewrite H in EU; destruct mid; discriminate. }
  assert (Hdisjoint : forall x, In x (lo :: l') -> In x mid -> False).
  { intros x; apply (chains_share_ends_only points lo hi l' u' mid x Hframe EU). }
  apply Hsides in Hab, Hbc.
  destruct Hab as [Hab | Hab], Hbc as [Hbc | Hbc];
    apply izip_next_split in Hab as (f1 & b1 & E1), Hbc as (f2 & b2 & E2).
  - (* both sides on the lower chain *)
    assert (E1' : lo :: l' = (f1 ++ [a]) ++ b :: b1) by (rewrite <- app_assoc; exact E1).
    destruct (NoDup_split_unique b _ _ _ _ _ HndL E1' E2) as [<- ->].
    apply (HL2 f1 a b c b2); rewrite <- app_assoc in E2; exact E2.
  - (* arriving at [hi] on the lower chain, leaving on the upper chain *)
    assert (Hf2 : f2 = []).
    { destruct f2 as [|x f2]; [reflexivity | exfalso].
      cbn [app] in E2; injection E2 as <- E2.
      apply (Hdisjoint b).
      - rewrite E1; apply in_or_app; right; right; left; reflexivity.
      - injection EU as EU; rewrite E2 in EU.
        destruct (exists_last (l := c :: b2) ltac:(discriminate)) as (b2' & y & Eb).
        rewrite Eb in EU.
        assert (EU' : (f2 ++ b :: b2') ++ [y] = mid ++ [lo])
          by (rewrite <- app_assoc; exact EU).
        apply app_inj_tail in EU' as [<- _].
        apply in_or_app; right; left; reflexivity. }
    subst f2; cbn [app] in E2; injection E2 as <- E2.
    assert (Hb1 : b1 = []).
    { apply (NoDup_last_split hi lo (lo :: l') (f1 ++ [a]) b1 HndL Hlast_l).
      rewrite <- app_assoc; exact E1. }
    subst b1.
    apply (junction_turns_left points hi a c (lo :: l') (hi :: u') f1 b2);
      try assumption; try (rewrite E2; reflexivity).
    + left; split.
      * apply (HL1 f1 a hi [] E1).
      * apply strictly_lex_ge_le, (HU1 [] hi c b2); rewrite E2; reflexivity.
    + destruct f1 as [|x f1]; [|left; discriminate].
      destruct b2 as [|x b2]; [|right; discriminate].
      exfalso; cbn [app] in E1; injection E1 as _ El'; subst l'.
      rewrite E2 in EU; injection EU as EU.
      destruct mid as [|m [|m' mid]]; try discriminate.
      cbn in Hlen; lia.
  - (* arriving at [lo] on the upper chain, leaving on the lower chain *)
    assert (Hf2 : f2 = []).
    { destruct f2 as [|x f2]; [reflexivity | exfalso].
      cbn [app] in E2; injection E2 as <- E2.
      assert (Hb_hi : b <> hi).
      { intros ->.
        assert (E1' : hi :: u' = (f1 ++ [a]) ++ hi :: b1)
          by (rewrite <- app_assoc; exact E1).
        apply NoDup_head_split in E1'; [|exact HndU].
        destruct f1; discriminate. }
      assert (Hb_lo : b <> lo).
      { inversion HndL as [|? ? Hx _]; intros ->; apply Hx.
        rewrite E2; apply in_or_app; right; left; reflexivity. }
      apply (Hdisjoint b).
      - right; rewrite E2; apply in_or_app; right; left; reflexivity.
      - assert (Hb : In b (hi :: mid ++ [lo])).
        { rewrite <- EU, E1; apply in_or_app; right; right; left; reflexivity. }
        destruct Hb as [E | Hb]; [congruence|].
        apply in_app_or in Hb as [Hb | [E | []]]; [exact Hb | congruence]. }
    subst f2; cbn [app] in E2; injection E2 as <- E2.
    assert (Hb1 : b1 = []).
    { apply (NoDup_last_split lo hi (hi :: u') (f1 ++ [a]) b1 HndU Hlast_u).
      rewrite <- app_assoc; exact E1. }
    subst b1.
    apply (junction_turns_left points lo a c (hi :: u') (lo :: l') f1 b2);
      try assumption; try (rewrite E2; reflexivity).
    + right; split.
      * destruct (HU1 f1 a lo [] E1) as [Hle Hne]; split; [exact Hle | congruence].
      * apply (HL1 [] lo c b2); rewrite E2; reflexivity.
    + destruct f1 as [|x f1]; [|left; discriminate].
      destruct b2 as [|x b2]; [|right; discriminate].
      exfalso; cbn [app] in E1; injection E1 as _ Eu'; subst u'.
      injection EU as EU.
      destruct mid as [|m mid]; [|destruct mid; discriminate].
      subst l'; cbn in Hlen; lia.
  - (* both sides on the upper chain *)
    assert (E1' : hi :: u' = (f1 ++ [a]) ++ b :: b1) by (rewrite <- app_assoc; exact E1).
    destruct (NoDup_split_unique b _ _ _ _ _ HndU E1' E2) as [<- ->].
    apply (HU2 f1 a b c b2); rewrite <- app_assoc in E2; exact E2.
Qed.

Lemma grahams_hull_turns_left_witness : 0 < cross (0, 0) (4, 0) (0, 3).
Proof.
  apply (grahams_hull_turns_left [(0, 0); (4, 0); (0, 3)]).
  - exact length_grahams_hull_3_4_5.
  - match goal with
    | |- context [grahams_hull ?l] =>
        replace (grahams_hull l) with [((0, 0) : point); (4, 0); (0, 3)]
          by (symmetry; exact grahams_hull_3_4_5)
    end.
    left; reflexivity.
  - match goal with
    | |- context [grahams_hull ?l] =>
        replace (grahams_hull l) with [((0, 0) : point); (4, 0); (0, 3)]
          by (symmetry; exact grahams_hull_3_4_5)
    end.
    right; left; reflexivity.
Defined.

(* ================================================================= *)
(** ** The extrusion test on a side of two adjacent vertices *)

Lemma list_index_pair (a b s : Z) :
  a <> b ->
  list_index [a; b] s
  = if eqb a s then Ok 0%nat else if eqb b s then Ok 1%nat else Raise ValueError.
Proof.
  intros Hab; cbn [list_index].
  destruct (eqb a s); [reflexivity|].
  destruct (eqb b s); reflexivity.
Qed.

(** X20. When the shortest path between two hull vertices [a] and [b] is the
    edge that joins them and that edge is an arc, the arc is an extrusion
    exactly when it starts at [b], the vertex the walk arrives at, and
    finishes at [a]; an arc whose start vertex is neither of the two makes
    [path.index] raise [ValueError]. *)
Theorem extrusion_of_adjacent_vertices
    (lib : Library) (schema : Schema) (g : Graph) (values_dict : dict string EdgeValues)
    (es : dict string Edge) (a b : Z) (arc : string) (edge : Edge) (v : EdgeValues)
    (s f : Z) :
  a <> b ->
  nx_shortest_path lib g a b = Ok [a; b] ->
  Edges schema = Some es ->
  edgeLookup (a, b) schema = Ok arc ->
  getitem es arc = Ok edge ->
  is_CircularArc edge = true ->
  getitem values_dict arc = Ok v ->
  start_id v = Ok s ->
  finish_id v = Ok f ->
  (s = b -> f = a ->
   extrusions_between lib schema g values_dict a b = Ok [arc])
  /\ (s = a -> f = a \/ f = b ->
      extrusions_between lib schema g values_dict a b = Ok [])
  /\ (s <> a -> s <> b ->
      extrusions_between lib schema g values_dict a b = Raise ValueError).
Proof.
  intros Hab Hpath Hes Hlook Hedge Harc Hv Hs Hf.
  assert (Hcommon : extrusions_between lib schema g values_dict a b
                    = (i <- list_index [a; b] s ;;
                       j <- list_index [a; b] f ;;
                       Ok (if (j <? i)%nat then [arc] else []))).
  { unfold extrusions_between; rewrite Hpath; cbn [bind izip_next combine skipn mapM].
    rewrite Hlook; cbn [bind filterM]; unfold schema_Edges; rewrite Hes; cbn [bind].
    rewrite Hedge; cbn [bind]; rewrite Harc; cbn [filterM bind].
    rewrite Hv; cbn [bind]; rewrite Hs, Hf; cbn [bind].
    destruct (list_index [a; b] s) as [i|e]; cbn [bind]; [|reflexivity].
    destruct (list_index [a; b] f) as [j|e]; cbn [bind]; [|reflexivity].
    destruct (j <? i)%nat; reflexivity. }
  rewrite Hcommon, !list_index_pair by assumption.
  assert (Hba : eqb a b = false) by (apply eqb_false; exact Hab).
  split; [|split].
  - intros -> ->; rewrite Hba, !eqb_refl; reflexivity.
  - intros -> [-> | ->]; rewrite ?Hba, !eqb_refl; reflexivity.
  - intros Hsa Hsb.
    apply not_eq_sym, eqb_false in Hsa; apply not_eq_sym, eqb_false in Hsb.
    rewrite Hsa, Hsb; reflexivity.
Qed.

Lemma extrusion_of_adjacent_vertices_witness :
  extrusions_between triangle_library bulge_profile arc_profile_graph bulge_values_dict 1 0
  = Ok ["arc"%string].
Proof.
  refine (proj1 (extrusion_of_adjacent_vertices triangle_library bulge_profile
                   arc_profile_graph bulge_values_dict
                   [("arc"%string, circular_arc 0 1 0 0 0);
                    ("s1"%string, line_segment 1 2);
                    ("s2"%string, line_segment 2 0)]
                   1 0 "arc" (circular_arc 0 1 0 0 0) _ 0 1
                   _ eq_refl eq_refl eq_refl eq_refl eq_refl eq_refl eq_refl eq_refl)
            eq_refl eq_refl).
  discriminate.
Defined.

(* ================================================================= *)
(** ** Moving the points *)

Lemma translate_injective (t p q : point) : translate t p = translate t q -> p = q.
Proof.
  destruct p as [p1 p2], q as [q1 q2]; unfold translate; cbn [fst snd].
  intros E; injection E as E1 E2; f_equal; lra.
Qed.

Lemma eqb_translate (t p q : point) : eqb (translate t p) (translate t q) = eqb p q.
Proof.
  destruct (eqb p q) eqn:E.
  - apply eqb_true in E; subst q; apply eqb_refl.
  - apply eqb_false; intros H; apply translate_injective in H.
    apply eqb_false in E; contradiction.
Qed.

Lemma turn_translate (t p q r : point) :
  turn (translate t p) (translate t q) (translate t r) = turn p q r.
Proof. unfold turn, translate; cbn [fst snd]; f_equal; ring. Qed.

Lemma point_leb_translate (t p q : point) :
  point_leb (translate t p) (translate t q) = point_leb p q.
Proof.
  unfold point_leb, translate; cbn [fst snd].
  repeat match goal with
         | |- context [Rlt_dec ?a ?b] => destruct (Rlt_dec a b)
         | |- context [Rle_dec ?a ?b] => destruct (Rle_dec a b)
         end; try reflexivity; exfalso; lra.
Qed.

Lemma insert_sorted_translate (t x : point) (l : list point) :
  insert_sorted (translate t x) (map (translate t) l)
  = map (translate t) (insert_sorted x l).
Proof.
  induction l as [|y l IH]; cbn [map insert_sorted]; [reflexivity|].
  rewrite point_leb_translate; destruct (point_leb x y); cbn [map]; [reflexivity|].
  rewrite IH; reflexivity.
Qed.

Lemma sorted_translate (t : point) (points : list point) :
  sorted (map (translate t) points) = map (translate t) (sorted points).
Proof.
  unfold sorted; induction points as [|p points IH]; cbn [map fold_right]; [reflexivity|].
  rewrite IH; apply insert_sorted_translate.
Qed.

Lemma keep_left_pop_translate (t : point) (stack : list point) (r : point) :
  keep_left_pop (map (translate t) stack) (translate t r)
  = map (translate t) (keep_left_pop stack r).
Proof.
  induction stack as [|q stack IH]; [reflexivity|].
  destruct stack as [|p stack]; [reflexivity|].
  cbn [map] in *; rewrite !keep_left_pop_step, turn_translate.
  destruct (negb (turn p q r =? 1)%Z); [exact IH | reflexivity].
Qed.

Lemma keep_left_translate (t : point) (hull : list point) (r : point) :
  keep_left (map (translate t) hull) (translate t r)
  = map (translate t) (keep_left hull r).
Proof.
  unfold keep_left; rewrite <- map_rev, keep_left_pop_translate.
  destruct (keep_left_pop (rev hull) r) as [|top rest]; cbn [map].
  - reflexivity.
  - rewrite eqb_translate; destruct (negb (eqb top r)).
    + symmetry; apply (map_rev (translate t) (r :: top :: rest)).
    + symmetry; apply (map_rev (translate t) (top :: rest)).
Qed.

Lemma fold_keep_left_translate (t : point) (points hull : list point) :
  fold_left keep_left (map (translate t) points) (map (translate t) hull)
  = map (translate t) (fold_left keep_left points hull).
Proof.
  revert hull; induction points as [|p points IH]; intros hull; cbn [map fold_left].
  - reflexivity.
  - rewrite keep_left_translate; apply IH.
Qed.

(** X21. Moving every point by the same vector moves the hull by that vector:
    the same points are corners, in the same order. *)
Theorem grahams_hull_translate (t : point) (points : list point) :
  grahams_hull (map (translate t) points) = map (translate t) (grahams_hull points).
Proof.
  unfold grahams_hull; rewrite sorted_translate, <- map_rev.
  pose proof (fold_keep_left_translate t (sorted points) []) as Hl.
  pose proof (fold_keep_left_translate t (rev (sorted points)) []) as Hu.
  cbn [map] in Hl, Hu; rewrite Hl, Hu.
  rewrite map_app, length_map, skipn_map, firstn_map; reflexivity.
Qed.

Lemma translate_side_injective (t : point) (e e' : point * point) :
  translate_side t e = translate_side t e' -> e = e'.
Proof.
  destruct e as [a b], e' as [a' b']; unfold translate_side; cbn [fst snd].
  intros E.
  pose proof (f_equal fst E) as Ea; pose proof (f_equal snd E) as Eb.
  cbn [fst snd] in Ea, Eb.
  apply translate_injective in Ea, Eb; subst; reflexivity.
Qed.

Lemma eqb_translate_side (t : point) (e e' : point * point) :
  eqb (translate_side t e) (translate_side t e') = eqb e e'.
Proof.
  destruct (eqb e e') eqn:E.
  - apply eqb_true in E; subst e'; apply eqb_refl.
  - apply eqb_false; intros H; apply translate_side_injective in H.
    apply eqb_false in E; contradiction.
Qed.

Lemma izip_next_map {A B : Type} (f : A -> B) (l : list A) :
  izip_next (map f l) = map (fun ab => (f (fst ab), f (snd ab))) (izip_next l).
Proof.
  unfold izip_next; rewrite skipn_map.
  generalize (skipn 1 l) as l'; induction l as [|a l IH]; intros l'; [reflexivity|].
  destruct l' as [|b l']; [reflexivity|].
  cbn [map combine fst snd]; rewrite IH; reflexivity.
Qed.

Lemma product_map {A B A' B' : Type} (f : A -> A') (g : B -> B')
    (xs : list A) (ys : list B) :
  product (map f xs) (map g ys)
  = map (fun xy => (f (fst xy), g (snd xy))) (product xs ys).
Proof.
  unfold product; induction xs as [|x xs IH]; cbn [map list_prod]; [reflexivity|].
  rewrite IH, map_app, !map_map; reflexivity.
Qed.

Lemma filter_map_commute {A B : Type} (f : A -> B) (test : A -> bool) (test' : B -> bool)
    (l : list A) :
  (forall a, test' (f a) = test a) ->
  filter test' (map f l) = map f (filter test l).
Proof.
  intros H; induction l as [|a l IH]; cbn [map filter]; [reflexivity|].
  rewrite H; destruct (test a); cbn [map]; rewrite IH; reflexivity.
Qed.

Lemma height_numerator_translate (t : point) (e : point * point) (p : point) :
  height_numerator (translate_side t e) (translate t p) = height_numerator e p.
Proof.
  destruct e as [[x1 y1] [x2 y2]], p as [x3 y3], t as [t1 t2].
  unfold height_numerator, translate_side, translate; cbn [fst snd]; ring.
Qed.

Lemma width_numerator_translate (t : point) (e pq : point * point) :
  width_numerator (translate_side t e) (translate_side t pq) = width_numerator e pq.
Proof.
  destruct e as [[x1 y1] [x2 y2]], pq as [[x4 y4] [x5 y5]], t as [t1 t2].
  unfold width_numerator, translate_side, translate; cbn [fst snd]; ring.
Qed.

Lemma segment_length_square_translate (t : point) (e : point * point) :
  segment_length_square (translate_side t e) = segment_length_square e.
Proof.
  destruct e as [[x1 y1] [x2 y2]], t as [t1 t2].
  unfold segment_length_square, translate_side, translate; cbn [fst snd]; ring.
Qed.

Lemma keys_translate_keys (t : point) (d : dict (point * point) caliper) :
  keys (translate_keys t d) = map (translate_side t) (keys d).
Proof. unfold keys, translate_keys; rewrite !map_map; reflexivity. Qed.

Lemma contains_translate_keys (t : point) (d : dict (point * point) caliper)
    (e : point * point) :
  contains (translate_side t e) (keys (translate_keys t d)) = contains e (keys d).
Proof.
  rewrite keys_translate_keys; unfold contains.
  induction (keys d) as [|k ks IH]; cbn [map existsb]; [reflexivity|].
  rewrite eqb_translate_side, IH; reflexivity.
Qed.

Lemma dict_find_translate_keys (t : point) (d : dict (point * point) caliper)
    (e : point * point) :
  dict_find (translate_keys t d) (translate_side t e) = dict_find d e.
Proof.
  induction d as [|[k v] d IH]; cbn [translate_keys map dict_find fst snd]; [reflexivity|].
  rewrite eqb_translate_side; destruct (eqb e k); [reflexivity | exact IH].
Qed.

Lemma setitem_translate_keys (t : point) (d : dict (point * point) caliper)
    (e : point * point) (v : caliper) :
  setitem (translate_keys t d) (translate_side t e) v
  = translate_keys t (setitem d e v).
Proof.
  induction d as [|[k v'] d IH]; cbn [translate_keys map setitem fst snd]; [reflexivity|].
  rewrite eqb_translate_side; destruct (eqb e k); cbn [map fst snd]; [reflexivity|].
  f_equal; exact IH.
Qed.

Lemma caliper_step_translate (t : point) (d : dict (point * point) caliper)
    (s : ((point * point) * point) * (point * point)) :
  caliper_step (translate_keys t d) (translate_candidate t s)
  = (d' <- caliper_step d s ;; Ok (translate_keys t d')).
Proof.
  unfold caliper_step, translate_candidate; cbn [fst snd].
  rewrite height_numerator_translate, width_numerator_translate,
    segment_length_square_translate.
  destruct (pdiv _ _) as [area|e]; cbn [bind]; [|reflexivity].
  rewrite contains_translate_keys.
  destruct (contains (fst (fst s)) (keys d)).
  - unfold getitem; rewrite dict_find_translate_keys.
    destruct (dict_find d (fst (fst s))) as [old|]; cbn [bind]; [|reflexivity].
    destruct (Rltb (fst old) area); cbn [bind]; [|reflexivity].
    rewrite setitem_translate_keys; reflexivity.
  - cbn [bind]; rewrite setitem_translate_keys; reflexivity.
Qed.

Lemma caliper_loop_translate (t : point)
    (cands : list (((point * point) * point) * (point * point)))
    (d : dict (point * point) caliper) :
  foldM caliper_step (map (translate_candidate t) cands) (translate_keys t d)
  = (d' <- foldM caliper_step cands d ;; Ok (translate_keys t d')).
Proof.
  revert d; induction cands as [|s cands IH]; intros d; cbn [map foldM]; [reflexivity|].
  rewrite caliper_step_translate.
  destruct (caliper_step d s) as [d'|e]; cbn [bind]; [apply IH | reflexivity].
Qed.

Lemma min_by_value_translate (t : point) (d : dict (point * point) caliper) :
  min_by_value (translate_keys t d)
  = (k <- min_by_value d ;; Ok (translate_side t k)).
Proof.
  destruct d as [|kv d]; [reflexivity|].
  cbn [translate_keys map min_by_value bind]; f_equal.
  change (translate_side t (fst kv), snd kv)
    with ((fun kv : (point * point) * caliper => (translate_side t (fst kv), snd kv)) kv).
  generalize kv; induction d as [|kv' d IH]; intros best; cbn [map fold_left fst snd].
  - reflexivity.
  - destruct (caliper_ltb (snd kv') (snd best)); apply IH.
Qed.

(** X22. The area [findMinimumRectangle] returns does not depend on where the
    hull lies: moving every corner by the same vector changes neither the
    result nor the exception. *)
Theorem findMinimumRectangle_translate (t : point) (hull : list point) :
  findMinimumRectangle (map (translate t) hull) = findMinimumRectangle hull.
Proof.
  unfold findMinimumRectangle.
  destruct hull as [|first rest]; [reflexivity|].
  cbn [map index_at nth_error bind].
  change (translate t first :: map (translate t) rest)
    with (map (translate t) (first :: rest)).
  set (hull := first :: rest).
  replace (map (translate t) hull ++ [translate t first])
    with (map (translate t) (hull ++ [first])) by (rewrite map_app; reflexivity).
  rewrite izip_next_map.
  rewrite (product_map (fun ab => (translate t (fst ab), translate t (snd ab)))
             (translate t)).
  rewrite (filter_map_commute _
             (fun x => negb (eqb (snd x) (fst (fst x))) && negb (eqb (snd x) (snd (fst x))))).
  2: { intros [[a b] p]; cbn [fst snd]; rewrite !eqb_translate; reflexivity. }
  rewrite (product_map (translate t) (translate t)).
  rewrite (product_map _ (fun xy : point * point => (translate t (fst xy), translate t (snd xy)))).
  match goal with
  | |- context [foldM caliper_step (map ?f ?cands) []] =>
      change (foldM caliper_step (map f cands) [])
        with (foldM caliper_step (map (translate_candidate t) cands) (translate_keys t []))
  end.
  rewrite caliper_loop_translate.
  destruct (foldM caliper_step _ []) as [sizes|e]; cbn [bind]; [|reflexivity].
  rewrite min_by_value_translate.
  destruct (min_by_value sizes) as [best|e]; cbn [bind]; [|reflexivity].
  unfold getitem; rewrite dict_find_translate_keys; reflexivity.
Qed.

(* ================================================================= *)
(** ** The direction of an arc *)

Lemma distance_sym (p q : point) : distance p q = distance q p.
Proof. unfold distance; f_equal; ring. Qed.

(** X23. Naming the other end of an arc as its ["ClockwiseFrom"] vertex changes
    neither its radius, chord, arc length and sagitta nor its cut cost, when
    the two ends are at the same distance from the centre: the direction of
    the arc plays no part in the cost of cutting it. *)
Theorem arc_cost_ignores_direction (schema : Schema) (edge edge' : Edge)
    (v v' : EdgeValues) (s f : Z) (ps pf c : point) :
  is_LineSegment edge = false ->
  is_LineSegment edge' = false ->
  arc_ends schema edge s f ps pf c ->
  arc_ends schema edge' f s pf ps c ->
  distance ps c = distance pf c ->
  edgeValues schema edge = Ok v ->
  edgeValues schema edge' = Ok v' ->
  radius v = radius v'
  /\ chord_length v = chord_length v'
  /\ sector_length v = sector_length v'
  /\ sector_height v = sector_height v'
  /\ cut_cost v = cut_cost v'.
Proof.
  intros Hline Hline' Hends Hends' Hr Hv Hv'.
  rewrite (edgeValues_arc schema edge s f ps pf c Hline Hends) in Hv.
  rewrite (edgeValues_arc schema edge' f s pf ps c Hline' Hends') in Hv'.
  apply arc_geometry_Ok in Hv as [_ ->]; apply arc_geometry_Ok in Hv' as [_ ->].
  unfold arc_entry, cut_cost;
    cbn [radius chord_length sector_length sector_height cut_length effective_speed].
  rewrite <- Hr, (distance_sym pf ps); repeat split; reflexivity.
Qed.

Lemma bulge_profile_reversed_ends :
  arc_ends bulge_profile (circular_arc 0 1 0 0 1) 1 0 (3, 4) (-3, 4) (0, 0).
Proof. repeat split. Qed.

Lemma arc_cost_ignores_direction_witness :
  radius (arc_entry 0 1 (-3, 4) (3, 4) (0, 0)) = radius (arc_entry 1 0 (3, 4) (-3, 4) (0, 0))
  /\ chord_length (arc_entry 0 1 (-3, 4) (3, 4) (0, 0))
     = chord_length (arc_entry 1 0 (3, 4) (-3, 4) (0, 0))
  /\ sector_length (arc_entry 0 1 (-3, 4) (3, 4) (0, 0))
     = sector_length (arc_entry 1 0 (3, 4) (-3, 4) (0, 0))
  /\ sector_height (arc_entry 0 1 (-3, 4) (3, 4) (0, 0))
     = sector_height (arc_entry 1 0 (3, 4) (-3, 4) (0, 0))
  /\ cut_cost (arc_entry 0 1 (-3, 4) (3, 4) (0, 0))
     = cut_cost (arc_entry 1 0 (3, 4) (-3, 4) (0, 0)).
Proof.
  apply (arc_cost_ignores_direction bulge_profile (circular_arc 0 1 0 0 0)
           (circular_arc 0 1 0 0 1) _ _ 0 1 (-3, 4) (3, 4) (0, 0)).
  - reflexivity.
  - reflexivity.
  - apply arc_profile_ends.
  - exact bulge_profile_reversed_ends.
  - rewrite distance_m3_4_to_origin, distance_3_4_to_origin; reflexivity.
  - rewrite (edgeValues_arc _ _ 0 1 (-3, 4) (3, 4) (0, 0))
      by (reflexivity || apply arc_profile_ends).
    apply arc_geometry_accepts.
    rewrite distance_m3_4_to_origin, distance_m3_4_to_3_4; lra.
  - rewrite (edgeValues_arc _ _ 1 0 (3, 4) (-3, 4) (0, 0))
      by (reflexivity || exact bulge_profile_reversed_ends).
    apply arc_geometry_accepts.
    rewrite distance_3_4_to_origin, distance_3_4_to_m3_4; lra.
Defined.
